(** * Cloud Profiler agent for Node.js: serializer and poll loop

    A shallow embedding of
    - [ts/src/profilers/profile-serializer.ts] (string table, function and
      location interning, the work-list traversal, the WALL and HEAP
      adapters),
    - the interner of [bindings/serialize.cc] ([Profile::stringID],
      [Profile::functionID], [Profile::locationID]),
    - [Profiler.createProfile] of [ts/src/profiler.ts],
    together with the properties the specification states about them; and
    further, with properties read off the code,
    - [Profile::Profile] and [Profile::addSampleType] of
      [bindings/serialize.cc],
    - the constructor, [profile], [writeTimeProfile], [writeHeapProfile],
      [profileAndUpload] and [pollProfilerService] of [ts/src/profiler.ts],
    - [initConfig] of [ts/src/index.ts], from the merged configuration on.

    JavaScript numbers are modelled by [Z]: every number the serializer
    handles is an integer (ids, indices, counts, line numbers, times), and
    the development stays within exact integer arithmetic; the products the
    serializer forms are exact in JavaScript, too, as long as they stay
    below 2^53. *)

From stdpp Require Import gmap strings list pretty.
From Stdlib Require Import ZArith Lia Ascii.

Local Open Scope Z_scope.

(** ** Outcomes of a JavaScript computation *)

(** [TypeError] is what reading a property of [undefined] raises;
    [OutOfFuel] only concerns the bounded unrolling of the [while] loop. *)
Inductive result (A : Type) : Type :=
  | Ok (a : A)
  | TypeError
  | OutOfFuel.
Arguments Ok {A} a.
Arguments TypeError {A}.
Arguments OutOfFuel {A}.

Global Instance result_bind : MBind result := λ A B k r,
  match r with
  | Ok a => k a
  | TypeError => TypeError
  | OutOfFuel => OutOfFuel
  end.

Global Instance result_fmap : FMap result := λ A B f r,
  match r with
  | Ok a => Ok (f a)
  | TypeError => TypeError
  | OutOfFuel => OutOfFuel
  end.

(** [arr[i]] for a JavaScript array and a number: [undefined] outside the
    array. *)
Definition arrayGet {A : Type} (arr : list A) (i : Z) : option A :=
  if i <? 0 then None else arr !! Z.to_nat i.

(** [arr.pop()]: the last element and the shortened array. *)
Fixpoint pop {A : Type} (arr : list A) : option (list A * A) :=
  match arr with
  | [] => None
  | x :: tl =>
      match pop tl with
      | None => Some ([], x)
      | Some (tl', y) => Some (x :: tl', y)
      end
  end.

(** ** The pprof messages the serializer fills in *)

(** Modelled from the spec: the generated classes [perftools.profiles.*]
    (proto/profile) are not among the sources. The records have the fields
    the serializer sets, under the names of the pprof schema; a field the
    serializer does not pass to a constructor keeps the proto default. *)
Record ValueType := { vt_type : Z; vt_unit : Z }.
Record Sample := { locationId : list Z; value : list Z }.
Record Line := { ln_functionId : Z; ln_line : Z }.
Record Location := { loc_id : Z; loc_line : list Line }.
(** [perftools.profiles.Function]; [fn_startLine] is the proto default [0]
    unless the constructor is given one. *)
Record ProfileFunction :=
  { fn_id : Z; fn_name : Z; fn_systemName : Z; fn_filename : Z;
    fn_startLine : Z }.

Record IProfile :=
  { sampleType : list ValueType;
    sample : list Sample;
    location : list Location;
    function_ : list ProfileFunction;
    stringTable : list string;
    timeNanos : Z;
    durationNanos : Z;
    periodType : ValueType;
    period : Z }.

(** ** The sampler's trees *)

(** Modelled from the spec: the declarations of [ProfileNode],
    [TimeProfileNode], [AllocationProfileNode], [Allocation] and
    [TimeProfile] that the serializer imports from v8-types are not among
    the sources. A node has the fields the serializer reads ([name],
    [scriptName], [scriptId], [lineNumber], [columnNumber], [children]) and
    the payload of the profile kind: [hitCount] for a [TimeProfileNode],
    [allocations] for an [AllocationProfileNode]. *)
#[warnings="-register-all"]
Inductive ProfileNode (P : Type) : Type :=
  mkNode { name : string;
           scriptName : string;
           scriptId : Z;
           lineNumber : Z;
           columnNumber : Z;
           payload : P;
           children : list (ProfileNode P) }.
Arguments mkNode {P}.
Arguments name {P}.
Arguments scriptName {P}.
Arguments scriptId {P}.
Arguments lineNumber {P}.
Arguments columnNumber {P}.
Arguments payload {P}.
Arguments children {P}.

Record Allocation := { count : Z; sizeBytes : Z }.

Definition TimeProfileNode := ProfileNode Z.
Definition hitCount (n : TimeProfileNode) : Z := payload n.
Definition AllocationProfileNode := ProfileNode (list Allocation).
Definition allocations (n : AllocationProfileNode) : list Allocation := payload n.

Record TimeProfile :=
  { endTime : Z; topDownRoot : TimeProfileNode; startTime : Z }.

(** ** profile-serializer.ts *)

Module Serializer.

(** *** class StringTable *)

Record StringTable := { strings : list string; stringsMap : gmap string Z }.

Definition getIndexOrAdd (str : string) (t : StringTable) : Z * StringTable :=
  match stringsMap t !! str with
  | Some loc => (loc, t)
  | None =>
      let strings' := strings t ++ [str] in
      let loc := Z.of_nat (length strings') - 1 in
      (loc, {| strings := strings'; stringsMap := <[str := loc]> (stringsMap t) |})
  end.

(** The constructor: two empty containers, then [getIndexOrAdd('')]. *)
Definition newStringTable : StringTable :=
  snd (getIndexOrAdd "" {| strings := []; stringsMap := ∅ |}).

(** *** Arrays of location ids *)

(** A stack is a JavaScript array, and a sample is given the very array of
    the entry it is made from ([locationId: entry.stack]); the samples of
    one HEAP node all hold the same array. The arrays therefore live in a
    store, entries and samples hold references, and a profile is read
    through the store that [serialize] leaves. *)
Abbreviation Ref := nat.
Abbreviation Store := (list (list Z)).

(** [[]] or [arr.slice()]: a new array with the given elements. *)
Definition alloc (store : Store) (elements : list Z) : Ref * Store :=
  (length store, store ++ [elements]).

Definition read (store : Store) (r : Ref) : list Z := default [] (store !! r).

(** [arr.unshift(x)] *)
Definition unshift (store : Store) (r : Ref) (x : Z) : Store :=
  <[r := x :: read store r]> store.

(** A [perftools.profiles.Sample] as the serializer holds it. *)
Record SampleObject := { locationIdRef : Ref; sampleValue : list Z }.

(** The sample that a reader of the profile finds. *)
Definition readSample (store : Store) (s : SampleObject) : Sample :=
  {| locationId := read store (locationIdRef s); value := sampleValue s |}.

(** *** The closure state of [serialize] *)

(** [locations], [functions], [locationIdMap], [functionIdMap] and the
    string table. ([locationMap] and [functionMap] are never used.) *)
Record Builder :=
  { locations : list Location;
    functions : list ProfileFunction;
    functionIdMap : gmap string Z;
    locationIdMap : gmap string Z;
    table : StringTable }.

Definition newBuilder (t : StringTable) : Builder :=
  {| locations := []; functions := [];
     functionIdMap := ∅; locationIdMap := ∅; table := t |}.

Section Nodes.
Context {P : Type}.
Implicit Types node : ProfileNode P.

(** [`${node.scriptId}:${node.name}`]; an integer prints in decimal. *)
Definition functionKey node : string :=
  pretty (scriptId node) +:+ ":" +:+ name node.

(** [`${node.scriptId}:${node.lineNumber}:${node.columnNumber}:${node.name}`] *)
Definition locationKey node : string :=
  pretty (scriptId node) +:+ ":" +:+ pretty (lineNumber node) +:+ ":" +:+
  pretty (columnNumber node) +:+ ":" +:+ name node.

(** [getFunction]: on a hit the array read may yield [undefined]. *)
Definition getFunction node (b : Builder) : option ProfileFunction * Builder :=
  let keyStr := functionKey node in
  match functionIdMap b !! keyStr with
  | Some id => (arrayGet (functions b) (id - 1), b)
  | None =>
      let id := Z.of_nat (length (functions b)) + 1 in
      let fmap := <[keyStr := id]> (functionIdMap b) in
      let '(nameId, t1) := getIndexOrAdd (name node) (table b) in
      let '(fileId, t2) := getIndexOrAdd (scriptName node) t1 in
      let f := {| fn_id := id; fn_name := nameId; fn_systemName := nameId;
                  fn_filename := fileId; fn_startLine := 0 |} in
      (Some f,
       {| locations := locations b;
          functions := functions b ++ [f];
          functionIdMap := fmap; locationIdMap := locationIdMap b;
          table := t2 |})
  end.

(** [getLine]: reads [.id] of what [getFunction] returned. *)
Definition getLine node (b : Builder) : result (Line * Builder) :=
  match getFunction node b with
  | (Some f, b') => Ok ({| ln_functionId := fn_id f; ln_line := lineNumber node |}, b')
  | (None, _) => TypeError
  end.

Definition getLocation node (b : Builder) : result (option Location * Builder) :=
  let keyStr := locationKey node in
  match locationIdMap b !! keyStr with
  | Some id => Ok (arrayGet (locations b) (id - 1), b)
  | None =>
      let id := Z.of_nat (length (locations b)) + 1 in
      let b1 := {| locations := locations b;
                   functions := functions b; functionIdMap := functionIdMap b;
                   locationIdMap := <[keyStr := id]> (locationIdMap b);
                   table := table b |} in
      '(ln, b2) ← getLine node b1 ;
      let l := {| loc_id := id; loc_line := [ln] |} in
      Ok (Some l,
          {| locations := locations b2 ++ [l];
             functions := functions b2; functionIdMap := functionIdMap b2;
             locationIdMap := locationIdMap b2; table := table b2 |})
  end.

(** *** The traversal *)

(** [interface Entry]: a node and the array of its stack. *)
Record Entry := { node : ProfileNode P; stack : Ref }.

(** [(entry, samples) => void], as the array of samples it leaves. *)
Definition AppendEntryToSamples := Entry → list SampleObject → list SampleObject.

(** What the loop works on: the entries still to visit, the samples, the
    arrays and the tables. *)
Record State :=
  { entries : list Entry;
    samples : list SampleObject;
    store : Store;
    builder : Builder }.

(** [root.children.map((n) => ({node: n, stack: []}))] *)
Fixpoint initialEntries (cs : list (ProfileNode P)) (entries : list Entry)
    (store : Store) : list Entry * Store :=
  match cs with
  | [] => (entries, store)
  | n :: cs' =>
      let '(r, store') := alloc store [] in
      initialEntries cs' (entries ++ [ {| node := n; stack := r |} ]) store'
  end.

(** [for (let child of node.children)
       entries.push({node: child, stack: stack.slice()})] *)
Fixpoint pushChildren (stackRef : Ref) (cs : list (ProfileNode P))
    (entries : list Entry) (store : Store) : list Entry * Store :=
  match cs with
  | [] => (entries, store)
  | child :: cs' =>
      let '(r, store') := alloc store (read store stackRef) in
      pushChildren stackRef cs' (entries ++ [ {| node := child; stack := r |} ]) store'
  end.

(** One turn of the [while] loop on the popped entry: the location id goes
    to the front of the entry's own array, the callback runs on the entry,
    and the children are pushed in order, each with a copy of the array. *)
Definition visit (appendToSamples : AppendEntryToSamples) (entry : Entry)
    (st : State) : result State :=
  '(l, b1) ← getLocation (node entry) (builder st) ;
  match l with
  | None => TypeError
  | Some l =>
      let store1 := unshift (store st) (stack entry) (loc_id l) in
      let samples1 := appendToSamples entry (samples st) in
      let '(entries1, store2) :=
        pushChildren (stack entry) (children (node entry)) (entries st) store1 in
      Ok {| entries := entries1; samples := samples1; store := store2;
            builder := b1 |}
  end.

Fixpoint loop (fuel : nat) (appendToSamples : AppendEntryToSamples)
    (st : State) : result State :=
  match pop (entries st) with
  | None => Ok st
  | Some (entries', entry) =>
      match fuel with
      | O => OutOfFuel
      | S fuel' =>
          st' ← visit appendToSamples entry
                  {| entries := entries'; samples := samples st;
                     store := store st; builder := builder st |} ;
          loop fuel' appendToSamples st'
      end
  end.

(** Number of nodes of a forest: the number of turns the loop takes. *)
Fixpoint nodeCount (n : ProfileNode P) : nat :=
  S ((fix forest (cs : list (ProfileNode P)) : nat :=
        match cs with
        | [] => O
        | c :: cs' => (nodeCount c + forest cs')%nat
        end) (children n)).

Definition forestCount (cs : list (ProfileNode P)) : nat :=
  foldr (λ c k, (nodeCount c + k)%nat) O cs.

(** The body of [serialize] up to the assignments to [profile]. *)
Definition build (root : ProfileNode P) (appendToSamples : AppendEntryToSamples)
    (t : StringTable) : result State :=
  let '(entries0, store0) := initialEntries (children root) [] [] in
  loop (forestCount (children root)) appendToSamples
    {| entries := entries0; samples := []; store := store0;
       builder := newBuilder t |}.

(** [serialize]; the samples of the profile are read through the store. *)
Definition serialize (profile : IProfile) (root : ProfileNode P)
    (appendToSamples : AppendEntryToSamples) (t : StringTable) : result IProfile :=
  st ← build root appendToSamples t ;
  Ok {| sampleType := sampleType profile;
        sample := map (readSample (store st)) (samples st);
        location := locations (builder st);
        function_ := functions (builder st);
        stringTable := strings (table (builder st));
        timeNanos := timeNanos profile;
        durationNanos := durationNanos profile;
        periodType := periodType profile;
        period := period profile |}.

End Nodes.

Arguments Entry : clear implicits.
Arguments State : clear implicits.
Arguments AppendEntryToSamples : clear implicits.

(** *** Value types *)

Definition createSampleValueType (t : StringTable) : ValueType * StringTable :=
  let '(ty, t1) := getIndexOrAdd "samples" t in
  let '(un, t2) := getIndexOrAdd "count" t1 in
  ({| vt_type := ty; vt_unit := un |}, t2).

Definition createTimeValueType (t : StringTable) : ValueType * StringTable :=
  let '(ty, t1) := getIndexOrAdd "time" t in
  let '(un, t2) := getIndexOrAdd "microseconds" t1 in
  ({| vt_type := ty; vt_unit := un |}, t2).

Definition createAllocationValueType (t : StringTable) : ValueType * StringTable :=
  let '(ty, t1) := getIndexOrAdd "space" t in
  let '(un, t2) := getIndexOrAdd "bytes" t1 in
  ({| vt_type := ty; vt_unit := un |}, t2).

(** *** The WALL adapter *)

Definition appendTimeEntryToSamples (intervalMicros : Z)
    : AppendEntryToSamples Z :=
  λ entry samples,
    if 0 <? hitCount (node entry) then
      samples ++ [ {| locationIdRef := stack entry;
                      sampleValue := [hitCount (node entry);
                                      hitCount (node entry) * intervalMicros] |} ]
    else samples.

Definition serializeTimeProfile (prof : TimeProfile) (intervalMicros : Z)
    : result IProfile :=
  let t0 := newStringTable in
  let '(sampleValueType, t1) := createSampleValueType t0 in
  let '(timeValueType, t2) := createTimeValueType t1 in
  let profile :=
    {| sampleType := [sampleValueType; timeValueType];
       sample := []; location := []; function_ := []; stringTable := [];
       timeNanos := startTime prof * 1000 * 1000;
       durationNanos := (endTime prof - startTime prof) * 1000 * 1000;
       periodType := timeValueType;
       period := intervalMicros |} in
  serialize profile (topDownRoot prof) (appendTimeEntryToSamples intervalMicros) t2.

(** *** The HEAP adapter *)

Definition appendHeapEntryToSamples : AppendEntryToSamples (list Allocation) :=
  λ entry samples,
    if (0 <? length (allocations (node entry)))%nat then
      foldl (λ acc alloc,
               acc ++ [ {| locationIdRef := stack entry;
                           sampleValue := [count alloc; sizeBytes alloc * count alloc] |} ])
            samples (allocations (node entry))
    else samples.

Definition serializeHeapProfile (prof : AllocationProfileNode)
    (startTimeNanos durationNanos_ intervalBytes : Z) : result IProfile :=
  let t0 := newStringTable in
  let '(sampleValueType, t1) := createSampleValueType t0 in
  let '(allocationValueType, t2) := createAllocationValueType t1 in
  let profile :=
    {| sampleType := [sampleValueType; allocationValueType];
       sample := []; location := []; function_ := []; stringTable := [];
       timeNanos := startTimeNanos;
       durationNanos := durationNanos_;
       periodType := allocationValueType;
       period := intervalBytes |} in
  serialize profile prof appendHeapEntryToSamples t2.

End Serializer.

(** ** bindings/serialize.cc: the interner of the native serializer *)

(** [size()] of a vector fits its integer type by far, so ids and indices
    are modelled by [Z] without wrap-around. *)
Module Cpp.

(** The accessors of the abstract class [Node] that the interner calls. *)
Record Node :=
  { name : string;
    filename : string;
    getFileID : Z;
    lineNumber : Z;
    columnNumber : Z }.

Record Line := { getFunctionID : Z; getLine : Z }.

Record ProfileFunction :=
  { fnID : Z; nameX : Z; systemNameX : Z; filenameX : Z; startLine : Z }.

Record ProfileLocation :=
  { locID : Z; mappingID : Z; address : Z; lines : list Line; isFolded : bool }.

(** The members of [Profile] that the interner and the constructor touch. *)
Record Profile :=
  { strings : list string;
    stringIDMap : gmap string Z;
    function : list ProfileFunction;
    functionIDMap : gmap (Z * string) Z;
    location : list ProfileLocation;
    locationIDMap : gmap (Z * Z * Z * string) Z;
    sampleType : list ValueType;
    periodType : ValueType;
    period : Z;
    timeNanos : Z;
    durationNanos : Z;
    dropFramesX : Z;
    keepFramesX : Z;
    defaultSampleTypeX : Z }.

Definition setStrings (ss : list string) (m : gmap string Z) (p : Profile) : Profile :=
  {| strings := ss; stringIDMap := m;
     function := function p; functionIDMap := functionIDMap p;
     location := location p; locationIDMap := locationIDMap p;
     sampleType := sampleType p; periodType := periodType p;
     period := period p; timeNanos := timeNanos p;
     durationNanos := durationNanos p; dropFramesX := dropFramesX p;
     keepFramesX := keepFramesX p; defaultSampleTypeX := defaultSampleTypeX p |}.

Definition setFunctions (fs : list ProfileFunction) (m : gmap (Z * string) Z)
    (p : Profile) : Profile :=
  {| strings := strings p; stringIDMap := stringIDMap p;
     function := fs; functionIDMap := m;
     location := location p; locationIDMap := locationIDMap p;
     sampleType := sampleType p; periodType := periodType p;
     period := period p; timeNanos := timeNanos p;
     durationNanos := durationNanos p; dropFramesX := dropFramesX p;
     keepFramesX := keepFramesX p; defaultSampleTypeX := defaultSampleTypeX p |}.

Definition setLocations (ls : list ProfileLocation) (m : gmap (Z * Z * Z * string) Z)
    (p : Profile) : Profile :=
  {| strings := strings p; stringIDMap := stringIDMap p;
     function := function p; functionIDMap := functionIDMap p;
     location := ls; locationIDMap := m;
     sampleType := sampleType p; periodType := periodType p;
     period := period p; timeNanos := timeNanos p;
     durationNanos := durationNanos p; dropFramesX := dropFramesX p;
     keepFramesX := keepFramesX p; defaultSampleTypeX := defaultSampleTypeX p |}.

(** [Profile::stringID] *)
Definition stringID (s : string) (p : Profile) : Z * Profile :=
  match stringIDMap p !! s with
  | Some id => (id, p)
  | None =>
      let id := Z.of_nat (length (strings p)) in
      (id, setStrings (strings p ++ [s]) (<[s := id]> (stringIDMap p)) p)
  end.

(** [Profile::functionID] *)
Definition functionID (node : Node) (p : Profile) : Z * Profile :=
  let key := (getFileID node, name node) in
  match functionIDMap p !! key with
  | Some id => (id, p)
  | None =>
      let '(nameX, p1) := stringID (name node) p in
      let '(filenameX, p2) := stringID (filename node) p1 in
      let id := Z.of_nat (length (function p2)) + 1 in
      let f := {| fnID := id; nameX := nameX; systemNameX := nameX;
                  filenameX := filenameX; startLine := lineNumber node |} in
      (id, setFunctions (function p2 ++ [f]) (<[key := id]> (functionIDMap p2)) p2)
  end.

(** [Profile::line] *)
Definition lineOf (node : Node) (p : Profile) : Line * Profile :=
  let '(fid, p') := functionID node p in
  ({| getFunctionID := fid; getLine := lineNumber node |}, p').

(** [Profile::locationID] *)
Definition locationID (node : Node) (p : Profile) : Z * Profile :=
  let key := (getFileID node, lineNumber node, columnNumber node, name node) in
  match locationIDMap p !! key with
  | Some id => (id, p)
  | None =>
      let id := Z.of_nat (length (location p)) + 1 in
      let '(ln, p1) := lineOf node p in
      let l := {| locID := id; mappingID := 0; address := 0; lines := [ln];
                  isFolded := false |} in
      (id, setLocations (location p1 ++ [l]) (<[key := id]> (locationIDMap p1)) p1)
  end.

(** [Profile::Profile]. C++ leaves open which of the two arguments of
    [ValueType(stringID(periodType), stringID(periodUnit))] is evaluated
    first; here the period type is interned before the period unit. *)
Definition newProfile (periodTypeS periodUnitS : string) (period_ timeNanos_
    durationNanos_ : Z) (dropFrames keepFrames : string) : Profile :=
  let p0 := {| strings := []; stringIDMap := ∅; function := []; functionIDMap := ∅;
               location := []; locationIDMap := ∅; sampleType := [];
               periodType := {| vt_type := 0; vt_unit := 0 |};
               period := period_; timeNanos := timeNanos_;
               durationNanos := durationNanos_; dropFramesX := 0;
               keepFramesX := 0; defaultSampleTypeX := 0 |} in
  let '(_, p1) := stringID "" p0 in
  let '(typeX, p2) := stringID periodTypeS p1 in
  let '(unitX, p3) := stringID periodUnitS p2 in
  let '(dropX, p4) := stringID dropFrames p3 in
  let '(keepX, p5) := stringID keepFrames p4 in
  {| strings := strings p5; stringIDMap := stringIDMap p5;
     function := function p5; functionIDMap := functionIDMap p5;
     location := location p5; locationIDMap := locationIDMap p5;
     sampleType := sampleType p5;
     periodType := {| vt_type := typeX; vt_unit := unitX |};
     period := period p5; timeNanos := timeNanos p5;
     durationNanos := durationNanos p5; dropFramesX := dropX;
     keepFramesX := keepX; defaultSampleTypeX := defaultSampleTypeX p5 |}.

(** [Profile::addSampleType] *)
Definition addSampleType (type unit : string) (p : Profile) : Profile :=
  let '(typeX, p1) := stringID type p in
  let '(unitX, p2) := stringID unit p1 in
  {| strings := strings p2; stringIDMap := stringIDMap p2;
     function := function p2; functionIDMap := functionIDMap p2;
     location := location p2; locationIDMap := locationIDMap p2;
     sampleType := sampleType p2 ++ [ {| vt_type := typeX; vt_unit := unitX |} ];
     periodType := periodType p2;
     period := period p2; timeNanos := timeNanos p2;
     durationNanos := durationNanos p2; dropFramesX := dropFramesX p2;
     keepFramesX := keepFramesX p2; defaultSampleTypeX := defaultSampleTypeX p2 |}.

End Cpp.

(** ** profiler.ts: polling the profiler service *)

Module Agent.

(** [interface RequestProfile] *)
Record RequestProfile :=
  { name : option string;
    profileType : option string;
    duration : option string;
    profileBytes : option string;
    labels : option (option string * option string) }.

(** What [createProfile] reads of the configuration. *)
Record ProfilerConfig :=
  { projectId : string;
    service : string;
    zone : string;
    instance : string;
    backoffMillis : Z }.

Record Response := { statusCode : Z; statusMessage : string }.

(** The error of a rejected request: its text and, when it has one, its
    status code. *)
Record RequestError := { toString : string; errStatusCode : option Z }.

(** How [await this.request(options)] ends. *)
Inductive Outcome :=
  | Resolved (body : RequestProfile) (response : Response)
  | Rejected (err : RequestError).

(** What the agent does that the outside can see. *)
Inductive Event :=
  | EvRequest (method uri : string) (deployment : string * string * (string * string))
      (profileTypes : list string)
  | EvLogDebug (message : string)
  | EvDelay (millis : Z).

(** How a call of [createProfile] ends; [Pending] when the server has not
    answered the last request. *)
Inductive Completion :=
  | Returned (body : RequestProfile)
  | Thrown (message : string)
  | Pending.

Definition isErrorResponseCode (code : Z) : bool :=
  (code <? 200) || (code >=? 300).

Definition isRetriableResponseCode (code : option Z) : bool := true.

Definition isRetriableError (err : RequestError) : bool := true.

(** [createProfile], against the answers the server gives to the successive
    requests. *)
Fixpoint createProfile (config : ProfilerConfig) (profileTypes : list string)
    (server : list Outcome) : list Event * Completion :=
  let request :=
    EvRequest "POST" "/profiles"
      (projectId config, service config, (zone config, instance config))
      profileTypes in
  match server with
  | [] => ([request], Pending)
  | outcome :: server' =>
      let retry (retryRequest : bool) (requestError : string) :=
        if retryRequest then
          let '(events, completion) := createProfile config profileTypes server' in
          (request :: EvLogDebug requestError :: EvDelay (backoffMillis config) :: events,
           completion)
        else ([request; EvLogDebug requestError], Thrown requestError) in
      match outcome with
      | Resolved body response =>
          if isErrorResponseCode (statusCode response) then
            retry (isRetriableResponseCode (Some (statusCode response)))
                  ("Error creating profile: " +:+ statusMessage response)
          else ([request], Returned body)
      | Rejected err =>
          retry (isRetriableError err || isRetriableResponseCode (errStatusCode err))
                ("Error creating profile: " +:+ toString err)
      end
  end.

(** An answer that makes [createProfile] poll again. *)
Definition failed (outcome : Outcome) : Prop :=
  match outcome with
  | Resolved _ response => statusCode response < 200 ∨ 300 ≤ statusCode response
  | Rejected _ => True
  end.

(** What the agent does on a failed answer: the request, the log line, the
    wait. *)
Definition retryEvents (config : ProfilerConfig) (profileTypes : list string)
    (outcome : Outcome) : list Event :=
  [ EvRequest "POST" "/profiles"
      (projectId config, service config, (zone config, instance config))
      profileTypes;
    EvLogDebug ("Error creating profile: " +:+
                match outcome with
                | Resolved _ response => statusMessage response
                | Rejected err => toString err
                end);
    EvDelay (backoffMillis config) ].

End Agent.

(** ** ts/src/profiler.ts: the constructor, the collection and the upload *)

Module Collect.

(** The configuration fields that the constructor reads, on top of those
    that [createProfile] reads. *)
Record Config :=
  { poll : Agent.ProfilerConfig;
    disableTime : bool;
    disableHeap : bool;
    timeIntervalMicros : Z;
    heapIntervalBytes : Z;
    heapMaxStackDepth : Z }.

(** [new TimeProfiler(intervalMicros)] and
    [new HeapProfiler(intervalBytes, stackDepth)], by their arguments. *)
Record TimeProfiler := { intervalMicros : Z }.
Record HeapProfiler := { intervalBytes : Z; stackDepth : Z }.

(** The fields of [class Profiler]. *)
Record Profiler :=
  { config : Config;
    profileTypes : list string;
    timeProfiler : option TimeProfiler;
    heapProfiler : option HeapProfiler }.

(** The constructor, from [this.profileTypes = []] on. *)
Definition newProfiler (config : Config) : Profiler :=
  let profileTypes0 : list string := [] in
  let '(profileTypes1, timeProfiler_) :=
    if negb (disableTime config)
    then (profileTypes0 ++ ["WALL"],
          Some {| intervalMicros := timeIntervalMicros config |})
    else (profileTypes0, None) in
  let '(profileTypes2, heapProfiler_) :=
    if negb (disableHeap config)
    then (profileTypes1 ++ ["HEAP"],
          Some {| intervalBytes := heapIntervalBytes config;
                  stackDepth := heapMaxStackDepth config |})
    else (profileTypes1, None) in
  {| config := config; profileTypes := profileTypes2;
     timeProfiler := timeProfiler_; heapProfiler := heapProfiler_ |}.

(** How a call ends that may throw or reject: with a value, or with an
    error, kept as the text that [err.toString()] gives. *)
Inductive Try (A : Type) : Type :=
  | Done (a : A)
  | Failure (text : string).
Arguments Done {A}.
Arguments Failure {A}.

(** [new Error(message).toString()] *)
Definition errorText (message : string) : string := "Error: " +:+ message.

(** The parts that are not in this file: the two samplers, and
    [profileBytes], whose body is made of library calls (protobuf encoding,
    gzip, base64). *)
Record World :=
  { timeProfile : TimeProfiler → Z → Try IProfile;
    heapProfile : HeapProfiler → Try IProfile;
    profileBytes : IProfile → Try string }.

(** What the profiler does that the outside can see: what [createProfile]
    does, a run of a sampler, the upload request, a log line at debug
    level, and the scheduling of the next turn. *)
Inductive Event :=
  | EvPoll (e : Agent.Event)
  | EvTimeProfile (durationMillis : Z)
  | EvHeapProfile
  | EvPatch (uri : string) (body : Agent.RequestProfile)
  | EvLogDebug (message : string)
  | EvSetImmediate.

Definition API : string := "https://cloudprofiler.googleapis.com/v2".

(** [prof.profileBytes = bytes] *)
Definition setProfileBytes (prof : Agent.RequestProfile) (bytes : string)
    : Agent.RequestProfile :=
  {| Agent.name := Agent.name prof;
     Agent.profileType := Agent.profileType prof;
     Agent.duration := Agent.duration prof;
     Agent.profileBytes := Some bytes;
     Agent.labels := Agent.labels prof |}.

(** A string field in a string concatenation. *)
Definition text (field : option string) : string := default "undefined" field.

Definition writeTimeProfile (w : World) (this : Profiler)
    (prof : Agent.RequestProfile) : list Event * Try Agent.RequestProfile :=
  match timeProfiler this with
  | Some timeProfiler_ =>
      let durationMillis := 10 * 1000 in
      match timeProfile w timeProfiler_ durationMillis with
      | Done p =>
          match profileBytes w p with
          | Done bytes => ([EvTimeProfile durationMillis], Done (setProfileBytes prof bytes))
          | Failure err => ([EvTimeProfile durationMillis], Failure err)
          end
      | Failure err => ([EvTimeProfile durationMillis], Failure err)
      end
  | None =>
      ([], Failure (errorText "Cannot collect time profile, time profiler not enabled."))
  end.

Definition writeHeapProfile (w : World) (this : Profiler)
    (prof : Agent.RequestProfile) : list Event * Try Agent.RequestProfile :=
  match heapProfiler this with
  | Some heapProfiler_ =>
      match heapProfile w heapProfiler_ with
      | Done p =>
          match profileBytes w p with
          | Done bytes => ([EvHeapProfile], Done (setProfileBytes prof bytes))
          | Failure err => ([EvHeapProfile], Failure err)
          end
      | Failure err => ([EvHeapProfile], Failure err)
      end
  | None =>
      ([], Failure (errorText "Cannot collect heap profile, heap profiler not enabled."))
  end.

Definition profile (w : World) (this : Profiler) (prof : Agent.RequestProfile)
    : list Event * Try Agent.RequestProfile :=
  if decide (Agent.profileType prof = Some "WALL") then writeTimeProfile w this prof
  else if decide (Agent.profileType prof = Some "HEAP") then writeHeapProfile w this prof
  else ([], Failure (errorText ("Unexpected profile type " +:+
                                text (Agent.profileType prof) +:+ "."))).

(** [profileAndUpload], against the answer to the upload request, if one
    comes; the flag tells whether the call came to its end. *)
Definition profileAndUpload (w : World) (this : Profiler)
    (prof : Agent.RequestProfile) (answer : option Agent.Outcome)
    : list Event * bool :=
  match profile w this prof with
  | (events, Failure err) =>
      (events ++ [EvLogDebug ("Error collecting profile: " +:+ err)], true)
  | (events, Done prof) =>
      let request := EvPatch (API +:+ "/" +:+ text (Agent.name prof)) prof in
      match answer with
      | None => (events ++ [request], false)
      | Some (Agent.Resolved body response) =>
          if Agent.isErrorResponseCode (Agent.statusCode response) then
            (events ++ [request;
                        EvLogDebug ("Error uploading profile: " +:+
                                    Agent.statusMessage response)], true)
          else (events ++ [request], true)
      | Some (Agent.Rejected err) =>
          (events ++ [request;
                      EvLogDebug ("Error uploading profile: " +:+
                                  Agent.toString err)], true)
      end
  end.



End Collect.

(** ** ts/src/index.ts: [initConfig], from the merged configuration on *)

Module Init.

(** The fields of the merged configuration that [initConfig] reads or
    writes after the merge; a field that is [undefined] is [None]. *)
Record Config :=
  { projectId : option string;
    service : option string;
    zone : option string;
    instance : option string }.

(** [!field] for a field that holds a string or [undefined]. *)
Definition unset (field : option string) : bool :=
  match field with
  | None => true
  | Some s => bool_decide (s = "")
  end.

(** [s.lastIndexOf(c)] for a pattern of one character. *)
Fixpoint lastIndexOf (c : ascii) (s : string) : Z :=
  match s with
  | EmptyString => -1
  | String a s' =>
      let i := lastIndexOf c s' in
      if 0 <=? i then i + 1
      else if bool_decide (a = c) then 0 else -1
  end.

(** [s.substring(start)] for a [start] that is not beyond the end. *)
Fixpoint substring (start : nat) (s : string) : string :=
  match start, s with
  | O, _ => s
  | S start', String _ s' => substring start' s'
  | S _, EmptyString => EmptyString
  end.

(** What the three metadata requests gave, [None] when one of them
    failed: the instance name, the zone and the project id. *)
Definition Metadata : Type := option (string * string * string).

Inductive Outcome :=
  | Returned (config : Config)
  | Thrown (message : string).

(** [initConfig] from the test on [mergedConfig.zone] on. *)
Definition initConfig (mergedConfig : Config) (metadata : Metadata) : Outcome :=
  let mergedConfig :=
    if unset (zone mergedConfig) || unset (instance mergedConfig) then
      let '(instance_, zone_, projectId_) :=
        match metadata with
        | Some (i, z, p) => (i, z, Some p)
        | None => ("", "", None)
        end in
      let mergedConfig :=
        if unset (zone mergedConfig) then
          {| projectId := projectId mergedConfig; service := service mergedConfig;
             zone := Some (substring (Z.to_nat (lastIndexOf "/" zone_ + 1)) zone_);
             instance := instance mergedConfig |}
        else mergedConfig in
      let mergedConfig :=
        if unset (instance mergedConfig) then
          {| projectId := projectId mergedConfig; service := service mergedConfig;
             zone := zone mergedConfig; instance := Some instance_ |}
        else mergedConfig in
      if unset (projectId mergedConfig) then
        {| projectId := projectId_; service := service mergedConfig;
           zone := zone mergedConfig; instance := instance mergedConfig |}
      else mergedConfig
    else mergedConfig in
  match service mergedConfig with
  | None => Thrown "Service must be specified in the configuration."
  | Some _ =>
      match projectId mergedConfig with
      | None =>
          Thrown "ProjectId must be specified in the configuration when running outside of GCP."
      | Some _ => Returned mergedConfig
      end
  end.

End Init.

Import Serializer.

(** * Specification-side definitions *)

(** A string without the separator of the interning keys. *)
Fixpoint noColon (s : string) : Prop :=
  match s with
  | EmptyString => True
  | String c s' => c ≠ ":"%char ∧ noColon s'
  end.

(** The work-list loop, read as a recursion on the tree, with the stacks
    as values: a node is visited, then its children from the last to the
    first, each with its whole subtree. [emit] gives the samples of a node
    for its stack. *)
Abbreviation Stack := (list Z).

Section Walk.
Context {P : Type}.
Variable emit : ProfileNode P → Stack → list Sample.

Fixpoint walk (n : ProfileNode P) (stk : Stack) (acc : list Sample)
    (b : Builder) {struct n} : result (list Sample * Builder) :=
  match getLocation n b with
  | Ok (Some l, b1) =>
      let stack' := loc_id l :: stk in
      (fix forest (cs : list (ProfileNode P)) (acc : list Sample) (b : Builder)
         : result (list Sample * Builder) :=
         match cs with
         | [] => Ok (acc, b)
         | c :: cs' =>
             match forest cs' acc b with
             | Ok (acc', b') => walk c stack' acc' b'
             | TypeError => TypeError
             | OutOfFuel => OutOfFuel
             end
         end) (children n) (acc ++ emit n stack') b1
  | Ok (None, _) => TypeError
  | TypeError => TypeError
  | OutOfFuel => OutOfFuel
  end.

Fixpoint walkForest (stk : Stack) (cs : list (ProfileNode P))
    (acc : list Sample) (b : Builder) : result (list Sample * Builder) :=
  match cs with
  | [] => Ok (acc, b)
  | c :: cs' =>
      '(acc', b') ← walkForest stk cs' acc b;
      walk c stk acc' b'
  end.

Fixpoint walkEntries (es : list (ProfileNode P * Stack))
    (acc : list Sample) (b : Builder) : result (list Sample * Builder) :=
  match es with
  | [] => Ok (acc, b)
  | e :: es' =>
      '(acc', b') ← walkEntries es' acc b;
      walk e.1 e.2 acc' b'
  end.

(** The order of the visits, each node with its ancestors from its parent
    up to (and without) the root. *)
Fixpoint visitNode (anc : list (ProfileNode P)) (n : ProfileNode P)
    : list (ProfileNode P * list (ProfileNode P)) :=
  (n, anc) ::
  (fix forest (cs : list (ProfileNode P)) :=
     match cs with
     | [] => []
     | c :: cs' => forest cs' ++ visitNode (n :: anc) c
     end) (children n).

Fixpoint visitForest (anc : list (ProfileNode P)) (cs : list (ProfileNode P))
    : list (ProfileNode P * list (ProfileNode P)) :=
  match cs with
  | [] => []
  | c :: cs' => visitForest anc cs' ++ visitNode anc c
  end.

(** A callback that appends the samples [emit] gives for the node, all on
    the array of the entry. *)
Definition appendsOnEntry (appendToSamples : AppendEntryToSamples P) : Prop :=
  ∀ e acc, ∃ values,
    appendToSamples e acc =
      acc ++ map (λ v, {| locationIdRef := stack e; sampleValue := v |}) values ∧
    ∀ stk, emit (node e) stk = map (λ v, {| locationId := stk; value := v |}) values.

(** The entries and the samples, read through the store. *)
Definition readEntries (store : Store) (es : list (Entry P))
    : list (ProfileNode P * Stack) :=
  map (λ e, (node e, read store (stack e))) es.

(** The arrays of the entries are distinct, allocated, and not yet held by a
    sample. *)
Record Separate (st : State P) : Prop :=
  { sep_entries : NoDup (map stack (entries st));
    sep_alloc : ∀ e, e ∈ entries st → (stack e < length (store st))%nat;
    sep_samples : ∀ s e, s ∈ samples st → e ∈ entries st →
      locationIdRef s ≠ stack e;
    sep_samples_alloc : ∀ s, s ∈ samples st →
      (locationIdRef s < length (store st))%nat }.

(** What a reader finds in a state: the samples and the tables. *)
Definition readState (st : State P) : list Sample * Builder :=
  (map (readSample (store st)) (samples st), builder st).

End Walk.

(** The keys of an interning table in the order of their first use. *)
Definition addKey (ks : list string) (k : string) : list string :=
  if decide (k ∈ ks) then ks else ks ++ [k].

Definition addKeys (ks : list string) (l : list string) : list string :=
  foldl addKey ks l.

(** A map from keys to numbers agrees with a list of keys: key number [i]
    of the list is mapped to [i + off], and nothing else is mapped. *)
Definition Indexed (off : Z) (m : gmap string Z) (ks : list string) : Prop :=
  ∀ k id, m !! k = Some id ↔ off ≤ id ∧ ks !! Z.to_nat (id - off) = Some k.

(** The string table numbers its strings from [0]. *)
Definition StrWF (t : StringTable) : Prop :=
  Indexed 0 (stringsMap t) (strings t).

Section Invariants.
Context {P : Type}.

(** The function table, for the list [fks] of the function keys met. *)
Record FInv (funs : list ProfileFunction) (fmap : gmap string Z)
    (t : StringTable) (fks : list string) : Prop :=
  { finv_keys : Indexed 1 fmap fks;
    finv_length : length funs = length fks;
    finv_strings : StrWF t;
    finv_funs : ∀ i f, funs !! i = Some f →
      fn_id f = Z.of_nat i + 1 ∧ fn_systemName f = fn_name f ∧
      0 ≤ fn_name f < Z.of_nat (length (strings t)) ∧
      0 ≤ fn_filename f < Z.of_nat (length (strings t));
    finv_node : ∀ (n : ProfileNode P) fid,
      fmap !! functionKey n = Some fid →
      ∃ f, funs !! Z.to_nat (fid - 1) = Some f ∧
           strings t !! Z.to_nat (fn_name f) = Some (name n) }.

(** The location table, for the list [lks] of the location keys met. *)
Record LInv (locs : list Location) (lmap : gmap string Z)
    (funs : list ProfileFunction) (fmap : gmap string Z)
    (lks : list string) : Prop :=
  { linv_keys : Indexed 1 lmap lks;
    linv_length : length locs = length lks;
    linv_locs : ∀ i loc, locs !! i = Some loc →
      loc_id loc = Z.of_nat i + 1 ∧
      ∃ fid ln, loc_line loc = [ {| ln_functionId := fid; ln_line := ln |} ] ∧
                1 ≤ fid ≤ Z.of_nat (length funs);
    linv_node : ∀ (n : ProfileNode P) id,
      lmap !! locationKey n = Some id →
      ∃ loc fid, locs !! Z.to_nat (id - 1) = Some loc ∧
        loc_line loc = [ {| ln_functionId := fid; ln_line := lineNumber n |} ] ∧
        fmap !! functionKey n = Some fid }.

(** The tables only grow. *)
Record ext (b b' : Builder) : Prop :=
  { ext_lmap : locationIdMap b ⊆ locationIdMap b';
    ext_fmap : functionIdMap b ⊆ functionIdMap b';
    ext_locs : locations b `prefix_of` locations b';
    ext_funs : functions b `prefix_of` functions b';
    ext_strs : strings (table b) `prefix_of` strings (table b') }.

End Invariants.

Section Visits.
Context {P : Type}.

(** The id the location map gives to the location of a node. *)
Definition idOf (m : gmap string Z) (n : ProfileNode P) : Z :=
  default 0 (m !! locationKey n).

(** The stack of a visit: the ids of the node and of its ancestors, nearest
    first. *)
Definition stackOf (m : gmap string Z)
    (v : ProfileNode P * list (ProfileNode P)) : Stack :=
  map (idOf m) (v.1 :: v.2).

(** The samples and the tables after the visits [vs]. *)
Record Inv (emit : ProfileNode P → Stack → list Sample) (acc : list Sample)
    (b : Builder) (vs : list (ProfileNode P * list (ProfileNode P))) : Prop :=
  { inv_F : FInv (P:=P) (functions b) (functionIdMap b) (table b)
              (addKeys [] (map (λ v, functionKey v.1) vs));
    inv_L : LInv (P:=P) (locations b) (locationIdMap b) (functions b)
              (functionIdMap b) (addKeys [] (map (λ v, locationKey v.1) vs));
    inv_samples :
      acc = flat_map (λ v, emit v.1 (stackOf (locationIdMap b) v)) vs;
    inv_anc : ∀ v a, v ∈ vs → a ∈ v.1 :: v.2 →
      is_Some (locationIdMap b !! locationKey a) }.

End Visits.

(** What a profile owes to its tables: ids are positions plus one, and
    every id and string index that is used points into its table. *)
Record WellFormedProfile (p : IProfile) : Prop :=
  { wf_function_ids : ∀ i f, function_ p !! i = Some f → fn_id f = Z.of_nat i + 1;
    wf_location_ids : ∀ i l, location p !! i = Some l → loc_id l = Z.of_nat i + 1;
    wf_sample_locations : ∀ s id, s ∈ sample p → id ∈ locationId s →
      1 ≤ id ≤ Z.of_nat (length (location p));
    wf_line_functions : ∀ l ln, l ∈ location p → ln ∈ loc_line l →
      1 ≤ ln_functionId ln ≤ Z.of_nat (length (function_ p));
    wf_sampleType_strings : ∀ vt, vt ∈ periodType p :: sampleType p →
      0 ≤ vt_type vt < Z.of_nat (length (stringTable p)) ∧
      0 ≤ vt_unit vt < Z.of_nat (length (stringTable p));
    wf_function_strings : ∀ f, f ∈ function_ p →
      0 ≤ fn_name f < Z.of_nat (length (stringTable p)) ∧
      0 ≤ fn_systemName f < Z.of_nat (length (stringTable p)) ∧
      0 ≤ fn_filename f < Z.of_nat (length (stringTable p)) }.

(** The samples the two adapters append for a node and its stack. *)
Definition timeSamples (intervalMicros : Z) (n : TimeProfileNode)
    (stk : Stack) : list Sample :=
  if 0 <? hitCount n then
    [ {| locationId := stk;
         value := [hitCount n; hitCount n * intervalMicros] |} ]
  else [].

Definition heapSamples (n : AllocationProfileNode) (stk : Stack) : list Sample :=
  map (λ alloc, {| locationId := stk;
                   value := [count alloc; sizeBytes alloc * count alloc] |})
      (allocations n).

Section TreeShape.
Context {P : Type}.

(** The tables of a profile hold the location of node [n] under [id]: the
    location has that id and one line, on the node's line number, whose
    function is in the function table under the node's name. *)
Definition located (locs : list Location) (funs : list ProfileFunction)
    (strs : list string) (id : Z) (n : ProfileNode P) : Prop :=
  ∃ loc f,
    arrayGet locs (id - 1) = Some loc ∧ loc_id loc = id ∧
    loc_line loc = [ {| ln_functionId := fn_id f; ln_line := lineNumber n |} ] ∧
    arrayGet funs (fn_id f - 1) = Some f ∧
    arrayGet strs (fn_name f) = Some (name n).

(** [n], then [anc] from the parent of [n] upwards, is a path of the tree
    that ends at a child of the root: the root is not on it. *)
Fixpoint chain (root n : ProfileNode P) (anc : list (ProfileNode P)) : Prop :=
  match anc with
  | [] => n ∈ children root
  | a :: anc' => n ∈ children a ∧ chain root a anc'
  end.

(** The nodes of a tree and of a forest, in source order. *)
Fixpoint nodesOf (n : ProfileNode P) : list (ProfileNode P) :=
  n :: (fix forest (cs : list (ProfileNode P)) :=
          match cs with
          | [] => []
          | c :: cs' => nodesOf c ++ forest cs'
          end) (children n).

Definition forestNodes (cs : list (ProfileNode P)) : list (ProfileNode P) :=
  flat_map nodesOf cs.

End TreeShape.

Definition sumZ (l : list Z) : Z := foldr Z.add 0 l.

(** Sample inputs. *)
Definition leaf {P : Type} (nm file : string) (sid ln col : Z) (p : P)
    : ProfileNode P :=
  mkNode nm file sid ln col p [].

(** A WALL tree: [main] (3 hits) calls [read] (1 hit) and [idle] (no hit);
    [gc] (4 hits) is a second child of the root. *)
Definition wallExample : TimeProfile :=
  {| endTime := 3; startTime := 1;
     topDownRoot :=
       mkNode "(root)" "" 0 0 0 0
         [ mkNode "main" "a.js" 1 10 0 3
             [ leaf "read" "a.js" 1 20 4 1; leaf "idle" "a.js" 1 30 4 0 ];
           leaf "gc" "b.js" 2 5 0 4 ] |}.

(** Two children of the root, [first] before [second], each with hits. *)
Definition siblingsExample : TimeProfile :=
  {| endTime := 0; startTime := 0;
     topDownRoot :=
       mkNode "(root)" "" 0 0 0 0
         [ leaf "first" "a.js" 1 10 0 1; leaf "second" "a.js" 1 20 0 2 ] |}.

(** Calls of the native interner, and the profile a sequence of calls
    leaves. *)
Inductive CppCall :=
  | CallStringID (s : string)
  | CallFunctionID (node : Cpp.Node)
  | CallLocationID (node : Cpp.Node).

Definition cppCall (p : Cpp.Profile) (c : CppCall) : Cpp.Profile :=
  match c with
  | CallStringID s => (Cpp.stringID s p).2
  | CallFunctionID node => (Cpp.functionID node p).2
  | CallLocationID node => (Cpp.locationID node p).2
  end.

Definition cppCalls (calls : list CppCall) (p : Cpp.Profile) : Cpp.Profile :=
  foldl cppCall p calls.

(** Ids and indices of the native tables point into the tables. *)
Record CppWF (p : Cpp.Profile) : Prop :=
  { cpp_strings : ∀ s i, Cpp.stringIDMap p !! s = Some i →
      0 ≤ i < Z.of_nat (length (Cpp.strings p));
    cpp_fmap : ∀ k id, Cpp.functionIDMap p !! k = Some id →
      1 ≤ id ≤ Z.of_nat (length (Cpp.function p));
    cpp_lmap : ∀ k id, Cpp.locationIDMap p !! k = Some id →
      1 ≤ id ≤ Z.of_nat (length (Cpp.location p));
    cpp_funs : ∀ i f, Cpp.function p !! i = Some f →
      Cpp.fnID f = Z.of_nat i + 1 ∧
      0 ≤ Cpp.nameX f < Z.of_nat (length (Cpp.strings p)) ∧
      0 ≤ Cpp.systemNameX f < Z.of_nat (length (Cpp.strings p)) ∧
      0 ≤ Cpp.filenameX f < Z.of_nat (length (Cpp.strings p));
    cpp_locs : ∀ i l, Cpp.location p !! i = Some l →
      Cpp.locID l = Z.of_nat i + 1 ∧
      ∀ ln, ln ∈ Cpp.lines l →
        1 ≤ Cpp.getFunctionID ln ≤ Z.of_nat (length (Cpp.function p)) }.

(** A poll that meets two 503 answers and then a 200 with a WALL request. *)
Definition pollConfig : Agent.ProfilerConfig :=
  {| Agent.projectId := "project"; Agent.service := "service";
     Agent.zone := "zone"; Agent.instance := "instance";
     Agent.backoffMillis := 1000 |}.

Definition wallRequest : Agent.RequestProfile :=
  {| Agent.name := Some "projects/project/profiles/1";
     Agent.profileType := Some "WALL";
     Agent.duration := Some "10s";
     Agent.profileBytes := None;
     Agent.labels := None |}.

Definition noRequest : Agent.RequestProfile :=
  {| Agent.name := None; Agent.profileType := None; Agent.duration := None;
     Agent.profileBytes := None; Agent.labels := None |}.

Definition unavailable : Agent.Outcome :=
  Agent.Resolved noRequest
    {| Agent.statusCode := 503; Agent.statusMessage := "Service Unavailable" |}.

Definition pollExample : list Agent.Outcome :=
  [ unavailable; unavailable;
    Agent.Resolved wallRequest {| Agent.statusCode := 200; Agent.statusMessage := "OK" |} ].

(** ** Further vocabulary for the serializer *)

Section MoreTreeShape.
Context {P : Type}.

(** The id the function map gives to the function of a node. *)
Definition fidOf (m : gmap string Z) (n : ProfileNode P) : Z :=
  default 0 (m !! functionKey n).

(** Number of nodes on the longest path from a node down to a leaf, and
    the same for a forest. *)
Fixpoint height (n : ProfileNode P) : nat :=
  S ((fix forest (cs : list (ProfileNode P)) : nat :=
        match cs with
        | [] => O
        | c :: cs' => (height c `max` forest cs')%nat
        end) (children n)).

Definition forestHeight (cs : list (ProfileNode P)) : nat :=
  foldr (λ c k, (height c `max` k)%nat) O cs.

(** The nodes of [ns] that are the first of their function key, the keys
    [seen] apart, in the order of [ns]: the nodes at which [getFunction]
    makes a function. *)
Fixpoint firstOfFunction (seen : list string) (ns : list (ProfileNode P))
    : list (ProfileNode P) :=
  match ns with
  | [] => []
  | n :: ns' =>
      if decide (functionKey n ∈ seen) then firstOfFunction seen ns'
      else n :: firstOfFunction (functionKey n :: seen) ns'
  end.

(** The strings that [getFunction] interns when it makes the function of a
    node, in the order in which it interns them. *)
Definition functionStrings (n : ProfileNode P) : list string :=
  [name n; scriptName n].

(** Every function of [funs] has the name and the script name of one of
    the nodes [ns]. *)
Definition FunFrom (funs : list ProfileFunction) (strs : list string)
    (ns : list (ProfileNode P)) : Prop :=
  ∀ f, f ∈ funs →
    ∃ n, n ∈ ns ∧
      strs !! Z.to_nat (fn_name f) = Some (name n) ∧
      strs !! Z.to_nat (fn_filename f) = Some (scriptName n).

(** Every string of [strs] is one of [hdr], or the name or the script name
    of one of the nodes [ns]. *)
Definition StrFrom (hdr strs : list string) (ns : list (ProfileNode P)) : Prop :=
  ∀ s, s ∈ strs →
    s ∈ hdr ∨ ∃ n, n ∈ ns ∧ (s = name n ∨ s = scriptName n).

End MoreTreeShape.

(** The two strings that a value type points to. *)
Definition valueTypeNames (strs : list string) (vt : ValueType)
    : option (string * string) :=
  ty ← arrayGet strs (vt_type vt);
  un ← arrayGet strs (vt_unit vt);
  Some (ty, un).

(** A string in which the character [c] does not occur. *)
Fixpoint without (c : ascii) (s : string) : Prop :=
  match s with
  | EmptyString => True
  | String a s' => a ≠ c ∧ without c s'
  end.

(** A WALL tree with a negative hit count: [odd] (-2 hits) and [even]
    (1 hit) are the children of the root. *)
Definition negativeExample : TimeProfile :=
  {| endTime := 0; startTime := 0;
     topDownRoot :=
       mkNode "(root)" "" 0 0 0 0
         [ leaf "odd" "a.js" 1 10 0 (-2); leaf "even" "a.js" 1 20 0 1 ] |}.

(** A configuration with a service and a project, without zone and
    instance, and what the metadata service of an instance answers. *)
Definition bareConfig : Init.Config :=
  {| Init.projectId := Some "project"; Init.service := Some "service";
     Init.zone := None; Init.instance := None |}.

Definition gceMetadata : Init.Metadata :=
  Some ("instance-1", "projects/123456789012/zones/us-central1-a", "gce-project").

(** A profiler with both samplers, and a world in which sampling and
    encoding work. *)
Definition bothConfig : Collect.Config :=
  {| Collect.poll := pollConfig; Collect.disableTime := false;
     Collect.disableHeap := false; Collect.timeIntervalMicros := 1000;
     Collect.heapIntervalBytes := 524288; Collect.heapMaxStackDepth := 32 |}.

Definition emptyProfile : IProfile :=
  {| sampleType := []; sample := []; location := []; function_ := [];
     stringTable := [""]; timeNanos := 0; durationNanos := 0;
     periodType := {| vt_type := 0; vt_unit := 0 |}; period := 0 |}.

(** What [writeTimeProfile] and [writeHeapProfile] make of the outcome of
    the sampler: the request with the encoded profile, or the error of the
    sampler or of the encoding. *)
Definition withBytes (w : Collect.World) (prof : Agent.RequestProfile)
    (sampled : Collect.Try IProfile) : Collect.Try Agent.RequestProfile :=
  match sampled with
  | Collect.Done p =>
      match Collect.profileBytes w p with
      | Collect.Done bytes => Collect.Done (Collect.setProfileBytes prof bytes)
      | Collect.Failure err => Collect.Failure err
      end
  | Collect.Failure err => Collect.Failure err
  end.

Definition workingWorld : Collect.World :=
  {| Collect.timeProfile := λ _ _, Collect.Done emptyProfile;
     Collect.heapProfile := λ _, Collect.Done emptyProfile;
     Collect.profileBytes := λ _, Collect.Done "H4sIAAAA" |}.

(** ** Further vocabulary for the native interner *)

(** [Indexed] for keys of any type. *)
Definition IndexedBy `{Countable K} (off : Z) (m : gmap K Z) (ks : list K)
    : Prop :=
  ∀ k id, m !! k = Some id ↔ off ≤ id ∧ ks !! Z.to_nat (id - off) = Some k.

(** The keys under which the native interner files a node. *)
Definition cppFunctionKey (node : Cpp.Node) : Z * string :=
  (Cpp.getFileID node, Cpp.name node).

Definition cppLocationKey (node : Cpp.Node) : Z * Z * Z * string :=
  (Cpp.getFileID node, Cpp.lineNumber node, Cpp.columnNumber node, Cpp.name node).

(** The native tables agree with their maps, for the lists [fks] and [lks]
    of the function and location keys in the order of their first use:
    strings are numbered from 0, functions and locations from 1; a function
    points to the name of its key; a location has no mapping and no
    address, is not folded, and has one line, on the line number of its
    key, whose function is the one of the file id and name of its key. *)
Record CppTables (p : Cpp.Profile) (fks : list (Z * string))
    (lks : list (Z * Z * Z * string)) : Prop :=
  { ct_strings : IndexedBy 0 (Cpp.stringIDMap p) (Cpp.strings p);
    ct_fkeys : IndexedBy 1 (Cpp.functionIDMap p) fks;
    ct_flength : length (Cpp.function p) = length fks;
    ct_funs : ∀ i f k, Cpp.function p !! i = Some f → fks !! i = Some k →
      Cpp.fnID f = Z.of_nat i + 1 ∧ Cpp.systemNameX f = Cpp.nameX f ∧
      0 ≤ Cpp.nameX f ∧
      Cpp.strings p !! Z.to_nat (Cpp.nameX f) = Some k.2;
    ct_lkeys : IndexedBy 1 (Cpp.locationIDMap p) lks;
    ct_llength : length (Cpp.location p) = length lks;
    ct_locs : ∀ i l k, Cpp.location p !! i = Some l → lks !! i = Some k →
      ∃ fid,
        l = {| Cpp.locID := Z.of_nat i + 1; Cpp.mappingID := 0;
               Cpp.address := 0;
               Cpp.lines := [ {| Cpp.getFunctionID := fid;
                                 Cpp.getLine := k.1.1.2 |} ];
               Cpp.isFolded := false |} ∧
        Cpp.functionIDMap p !! (k.1.1.1, k.2) = Some fid }.

(** A later state of the native profile: the tables have only grown and
    the header fields are the same. *)
Record CppLater (p : Cpp.Profile) (fks : list (Z * string))
    (lks : list (Z * Z * Z * string)) (p' : Cpp.Profile)
    (fks' : list (Z * string)) (lks' : list (Z * Z * Z * string)) : Prop :=
  { later_tables : CppTables p' fks' lks';
    later_fks : fks `prefix_of` fks';
    later_lks : lks `prefix_of` lks';
    later_strings : Cpp.strings p `prefix_of` Cpp.strings p';
    later_function : Cpp.function p `prefix_of` Cpp.function p';
    later_location : Cpp.location p `prefix_of` Cpp.location p';
    later_sampleType : Cpp.sampleType p `prefix_of` Cpp.sampleType p';
    later_periodType : Cpp.periodType p' = Cpp.periodType p;
    later_dropFramesX : Cpp.dropFramesX p' = Cpp.dropFramesX p;
    later_keepFramesX : Cpp.keepFramesX p' = Cpp.keepFramesX p }.

(** Calls of the native profile, [addSampleType] included. *)
Inductive NativeCall :=
  | NativeIntern (c : CppCall)
  | NativeAddSampleType (type unit : string).

Definition nativeCall (p : Cpp.Profile) (c : NativeCall) : Cpp.Profile :=
  match c with
  | NativeIntern c => cppCall p c
  | NativeAddSampleType type unit => Cpp.addSampleType type unit p
  end.

Definition nativeCalls (calls : list NativeCall) (p : Cpp.Profile) : Cpp.Profile :=
  foldl nativeCall p calls.

(** A native profile, and two nodes of the same file id and name on
    different lines of differently named files. *)
Definition timeNativeProfile : Cpp.Profile :=
  Cpp.newProfile "time" "microseconds" 1000 0 0 "" "".

Definition firstNode : Cpp.Node :=
  {| Cpp.name := "f"; Cpp.filename := "a.js"; Cpp.getFileID := 1;
     Cpp.lineNumber := 10; Cpp.columnNumber := 0 |}.

Definition secondNode : Cpp.Node :=
  {| Cpp.name := "f"; Cpp.filename := "b.js"; Cpp.getFileID := 1;
     Cpp.lineNumber := 20; Cpp.columnNumber := 4 |}.

(** The table after a sequence of [getIndexOrAdd] calls. *)
Definition internAll (l : list string) (t : StringTable) : StringTable :=
  foldl (λ t s, (getIndexOrAdd s t).2) t l.

(** * Properties *)

(** ** Arrays *)

Section Arrays.
Context {A : Type}.
Implicit Types arr : list A.

Lemma pop_snoc arr x : pop (arr ++ [x]) = Some (arr, x).
Proof.
  induction arr as [|y arr IH]; simpl; [done|].
  by rewrite IH.
Qed.

Lemma pop_None arr : pop arr = None → arr = [].
Proof.
  destruct arr as [|y arr _] using rev_ind; [done|].
  by rewrite pop_snoc.
Qed.

Lemma arrayGet_of_nat arr (i : nat) : arrayGet arr (Z.of_nat i) = arr !! i.
Proof.
  unfold arrayGet. destruct (Z.ltb_spec (Z.of_nat i) 0); [lia|].
  by rewrite Nat2Z.id.
Qed.

Lemma arrayGet_Some arr i x :
  arrayGet arr i = Some x ↔ 0 ≤ i ∧ arr !! Z.to_nat i = Some x.
Proof.
  unfold arrayGet. destruct (Z.ltb_spec i 0).
  - split; [done|]. intros [? _]. lia.
  - split; [done|]. by intros [_ ?].
Qed.

Lemma arrayGet_last arr x :
  arrayGet (arr ++ [x]) (Z.of_nat (length arr) + 1 - 1) = Some x.
Proof.
  replace (Z.of_nat (length arr) + 1 - 1) with (Z.of_nat (length arr)) by lia.
  rewrite arrayGet_of_nat. by rewrite lookup_app_r, Nat.sub_diag.
Qed.

Lemma read_app (store extra : Store) r :
  (r < length store)%nat → read (store ++ extra) r = read store r.
Proof. intros Hr. unfold read. by rewrite lookup_app_l. Qed.

Lemma read_unshift_eq (store : Store) r x :
  (r < length store)%nat → read (unshift store r x) r = x :: read store r.
Proof.
  intros Hr. unfold unshift, read at 1. by rewrite list_lookup_insert_eq.
Qed.

Lemma read_unshift_ne (store : Store) r r' x :
  r ≠ r' → read (unshift store r x) r' = read store r'.
Proof.
  intros Hne. unfold unshift, read at 1 3. by rewrite list_lookup_insert_ne.
Qed.

Lemma length_unshift (store : Store) r x :
  length (unshift store r x) = length store.
Proof. unfold unshift. apply length_insert. Qed.

Lemma read_replicate (store : Store) n (arr : list Z) i :
  (i < n)%nat → read (store ++ replicate n arr) (length store + i) = arr.
Proof.
  intros Hi. unfold read. rewrite lookup_app_r by lia.
  replace (length store + i - length store)%nat with i by lia.
  by rewrite lookup_replicate_2.
Qed.

End Arrays.

(** ** Interning keys determine the fields they are built from *)

Section Keys.

Lemma pretty_N_char_noColon x : pretty_N_char x ≠ ":"%char.
Proof. unfold pretty_N_char. by repeat case_match. Qed.

Lemma pretty_N_go_noColon x s : noColon s → noColon (pretty_N_go x s).
Proof.
  revert s. induction (N.lt_wf_0 x) as [x _ IH]; intros s Hs.
  assert (x = 0 ∨ 0 < x)%N as [->|Hpos] by lia.
  - exact Hs.
  - rewrite pretty_N_go_step by done. apply IH.
    + by apply N.div_lt.
    + split; [apply pretty_N_char_noColon | done].
Qed.

Lemma pretty_N_noColon (x : N) : noColon (pretty x).
Proof.
  unfold pretty, pretty_N. case_decide; [by compute|].
  by apply pretty_N_go_noColon.
Qed.

Lemma pretty_Z_noColon (x : Z) : noColon (pretty x).
Proof.
  destruct x as [|p|p]; unfold pretty, pretty_Z.
  - by compute.
  - apply pretty_N_noColon.
  - split; [done|]. apply pretty_N_noColon.
Qed.

Lemma colon_split_inj a b s t :
  noColon a → noColon b →
  a +:+ ":" +:+ s = b +:+ ":" +:+ t → a = b ∧ s = t.
Proof.
  revert b. induction a as [|c a IH]; intros [|d b]; simpl.
  - intros _ _ Heq. by simplify_eq.
  - intros _ [Hd _] Heq. by simplify_eq.
  - intros [Hc _] _ Heq. by simplify_eq.
  - intros [_ Ha] [_ Hb] Heq. simplify_eq.
    match goal with H : a +:+ _ = b +:+ _ |- _ =>
      destruct (IH b Ha Hb H) as [-> ->] end.
    done.
Qed.

Context {P : Type}.
Implicit Types n : ProfileNode P.

Lemma functionKey_inj n n' :
  functionKey n = functionKey n' ↔ scriptId n = scriptId n' ∧ name n = name n'.
Proof.
  unfold functionKey. split.
  - intros Heq. apply colon_split_inj in Heq as [Hs Hn];
      [|apply pretty_Z_noColon..].
    split; [by apply (inj pretty)|done].
  - by intros [-> ->].
Qed.

Lemma locationKey_inj n n' :
  locationKey n = locationKey n' ↔
  scriptId n = scriptId n' ∧ lineNumber n = lineNumber n' ∧
  columnNumber n = columnNumber n' ∧ name n = name n'.
Proof.
  unfold locationKey. split.
  - intros Heq.
    apply colon_split_inj in Heq as [Hs Heq]; [|apply pretty_Z_noColon..].
    apply colon_split_inj in Heq as [Hl Heq]; [|apply pretty_Z_noColon..].
    apply colon_split_inj in Heq as [Hc Hn]; [|apply pretty_Z_noColon..].
    repeat split; try done; by apply (inj pretty).
  - by intros (-> & -> & -> & ->).
Qed.

Lemma locationKey_functionKey n n' :
  locationKey n = locationKey n' → functionKey n = functionKey n'.
Proof.
  rewrite locationKey_inj, functionKey_inj. tauto.
Qed.

End Keys.

(** ** The loop is the recursion on the tree *)

Section LoopWalk.
Context {P : Type}.
Implicit Types (n : ProfileNode P) (cs : list (ProfileNode P)).
Implicit Types (es : list (Entry P)) (b : Builder) (st : State P).
Variable appendToSamples : AppendEntryToSamples P.
Variable emit : ProfileNode P → Stack → list Sample.
Hypothesis appends : appendsOnEntry emit appendToSamples.

Lemma ProfileNode_forest_ind (Q : ProfileNode P → Prop) :
  (∀ n, Forall Q (children n) → Q n) → ∀ n, Q n.
Proof.
  intros step. fix IH 1. intros [nm sn sid ln col p cs].
  apply step. simpl. induction cs as [|c cs IHcs]; constructor; [apply IH|done].
Qed.

Lemma nodeCount_eq n : nodeCount n = S (forestCount (children n)).
Proof.
  by destruct n.
Qed.

Lemma forestCount_app cs1 cs2 :
  forestCount (cs1 ++ cs2) = (forestCount cs1 + forestCount cs2)%nat.
Proof.
  unfold forestCount. induction cs1 as [|c cs1 IH]; simpl; [done|].
  rewrite IH. lia.
Qed.

Lemma walk_eq n stk acc b :
  walk emit n stk acc b =
  '(l, b1) ← getLocation n b;
  match l with
  | None => TypeError
  | Some l =>
      walkForest emit (loc_id l :: stk) (children n)
        (acc ++ emit n (loc_id l :: stk)) b1
  end.
Proof.
  destruct n as [nm sn sid ln col p cs]. simpl.
  destruct (getLocation _ b) as [[[l|] b1]| |]; simpl; try done.
  generalize (acc ++ emit (mkNode nm sn sid ln col p cs) (loc_id l :: stk)).
  intros acc1. revert acc1 b1.
  induction cs as [|c cs IH]; intros acc1 b1; simpl; [done|].
  rewrite IH. by destruct (walkForest _ _ cs acc1 b1) as [[??]| |].
Qed.

Lemma visitNode_eq anc n :
  visitNode anc n = (n, anc) :: visitForest (n :: anc) (children n).
Proof.
  destruct n as [nm sn sid ln col p cs]. simpl. f_equal.
  generalize (mkNode nm sn sid ln col p cs :: anc). intros anc'.
  induction cs as [|c cs IH]; simpl; by rewrite ?IH.
Qed.

Lemma walkEntries_app (vs1 vs2 : list (ProfileNode P * Stack)) acc b :
  walkEntries emit (vs1 ++ vs2) acc b =
  '(acc', b') ← walkEntries emit vs2 acc b; walkEntries emit vs1 acc' b'.
Proof.
  induction vs1 as [|e vs1 IH]; simpl.
  - by destruct (walkEntries _ vs2 acc b) as [[??]| |].
  - rewrite IH. by destruct (walkEntries _ vs2 acc b) as [[??]| |].
Qed.

Lemma walkEntries_children stk cs acc b :
  walkEntries emit (map (λ c, (c, stk)) cs) acc b = walkForest emit stk cs acc b.
Proof.
  revert acc b. induction cs as [|c cs IH]; intros acc b; simpl; [done|].
  by rewrite IH.
Qed.

(** The entries that [pushChildren] and [initialEntries] add: one per
    child, in order, each on a new array. *)
Lemma pushChildren_spec r cs : ∀ es (store : Store),
  (r < length store)%nat →
  ∃ new, pushChildren r cs es store =
           (es ++ new, store ++ replicate (length cs) (read store r)) ∧
         map node new = cs ∧ map stack new = seq (length store) (length cs).
Proof.
  induction cs as [|c cs IH]; intros es store Hr; simpl.
  - exists []. by rewrite !app_nil_r.
  - destruct (IH (es ++ [ {| node := c; stack := length store |} ])
                (store ++ [read store r])) as (new & -> & Hnodes & Hrefs).
    { rewrite length_app. simpl. lia. }
    exists ({| node := c; stack := length store |} :: new).
    rewrite read_app by done. rewrite <-!app_assoc. simpl.
    split_and!; [done|by rewrite Hnodes|].
    rewrite Hrefs, length_app. simpl. by rewrite Nat.add_1_r.
Qed.

Lemma initialEntries_spec cs : ∀ es (store : Store),
  ∃ new, initialEntries cs es store =
           (es ++ new, store ++ replicate (length cs) []) ∧
         map node new = cs ∧ map stack new = seq (length store) (length cs).
Proof.
  induction cs as [|c cs IH]; intros es store; simpl.
  - exists []. by rewrite !app_nil_r.
  - destruct (IH (es ++ [ {| node := c; stack := length store |} ])
                (store ++ [ [] ])) as (new & -> & Hnodes & Hrefs).
    exists ({| node := c; stack := length store |} :: new).
    rewrite <-!app_assoc. simpl.
    split_and!; [done|by rewrite Hnodes|].
    rewrite Hrefs, length_app. simpl. by rewrite Nat.add_1_r.
Qed.

(** New entries on new arrays that all hold [arr]. *)
Lemma readEntries_new (store : Store) (new : list (Entry P)) arr :
  map stack new = seq (length store) (length new) →
  readEntries (store ++ replicate (length new) arr) new =
  map (λ c, (c, arr)) (map node new).
Proof.
  intros Hrefs. unfold readEntries. rewrite map_map.
  apply list_eq. intros i. rewrite !list_lookup_fmap.
  destruct (new !! i) as [e|] eqn:He; simpl; [|done].
  assert (stack e = (length store + i)%nat) as ->.
  { assert (map stack new !! i = Some (stack e)) as Hi
      by (by rewrite list_lookup_fmap, He).
    rewrite Hrefs in Hi. apply lookup_seq in Hi as [-> _]. done. }
  rewrite read_replicate; [done|]. by eapply lookup_lt_Some.
Qed.

Lemma readEntries_ext (store store' : Store) es :
  (∀ e, e ∈ es → read store' (stack e) = read store (stack e)) →
  readEntries store' es = readEntries store es.
Proof.
  intros Hes. unfold readEntries. apply map_ext_in. intros e He.
  f_equal. apply Hes. by apply list_elem_of_In.
Qed.

Lemma loop_walk fuel : ∀ st,
  Separate st →
  (forestCount (map node (entries st)) ≤ fuel)%nat →
  readState <$> loop fuel appendToSamples st =
  walkEntries emit (readEntries (store st) (entries st))
    (map (readSample (store st)) (samples st)) (builder st).
Proof.
  induction fuel as [|fuel IH]; intros [es smp store b] Hsep Hfuel;
    destruct es as [|e es _] using rev_ind; simpl in *; try done.
  - rewrite map_app, forestCount_app in Hfuel. simpl in Hfuel.
    rewrite nodeCount_eq in Hfuel. lia.
  - rewrite pop_snoc. unfold readEntries. rewrite map_app, walkEntries_app.
    simpl. rewrite walk_eq. unfold visit. simpl.
    destruct (getLocation (node e) b) as [[[l|] b1]| |]; simpl; try done.
    destruct Hsep as [Hnd Halloc Hsmp Hsalloc]. simpl in *.
    rewrite map_app in Hnd. apply NoDup_app in Hnd as (Hnd & Hne & _).
    assert (stack e < length store)%nat as Hr
      by (apply Halloc, elem_of_app; right; by left).
    assert (∀ e', e' ∈ es → stack e' ≠ stack e) as Hrest.
    { intros e' He' Heq. eapply (Hne (stack e')).
      - by apply list_elem_of_fmap_2.
      - rewrite Heq. by left. }
    set (store1 := unshift store (stack e) (loc_id l)).
    assert (length store1 = length store) as Hlen1 by apply length_unshift.
    destruct (pushChildren_spec (stack e) (children (node e)) es store1)
      as (new & -> & Hnodes & Hrefs); [lia|].
    assert (length new = length (children (node e))) as Hnew
      by (by rewrite <-Hnodes, length_map).
    assert (read store1 (stack e) = loc_id l :: read store (stack e)) as Hread
      by (by apply read_unshift_eq).
    destruct (appends e smp) as (values & -> & Hemit).
    match goal with |- _ <$> (Ok ?st ≫= _) = _ =>
      change (readState <$> loop fuel appendToSamples st =
              walkForest emit (loc_id l :: read store (stack e)) (children (node e))
                (map (readSample store) smp ++
                 emit (node e) (loc_id l :: read store (stack e))) b1
              ≫= λ '(acc', b'),
                   walkEntries emit
                     (map (λ e0 : Entry P, (node e0, read store (stack e0))) es)
                     acc' b')
    end.
    rewrite IH; simpl.
    + (* the state the next turn starts from, read through the new store *)
      unfold readEntries. rewrite map_app, walkEntries_app.
      rewrite <-Hnew. fold (readEntries (store1 ++ replicate (length new)
                                           (read store1 (stack e))) new).
      rewrite readEntries_new by (by rewrite Hlen1 in Hrefs |- *; rewrite Hnew).
      rewrite Hnodes, walkEntries_children, Hread.
      rewrite map_app, map_map. simpl.
      assert (map (readSample (store1 ++ replicate (length new)
                                 (loc_id l :: read store (stack e)))) smp
              = map (readSample store) smp) as ->.
      { apply map_ext_in. intros s Hs%list_elem_of_In. unfold readSample.
        f_equal. rewrite read_app by (rewrite Hlen1; by apply Hsalloc).
        apply read_unshift_ne. intros Heq.
        eapply (Hsmp s e); [done| |done]. apply elem_of_app. right. by left. }
      assert (map (λ v, readSample (store1 ++ replicate (length new)
                                      (loc_id l :: read store (stack e)))
                          {| locationIdRef := stack e; sampleValue := v |}) values
              = emit (node e) (loc_id l :: read store (stack e))) as ->.
      { rewrite Hemit. apply map_ext. intros v. unfold readSample. simpl.
        f_equal. rewrite read_app by lia. done. }
      destruct (walkForest emit _ _ _ b1) as [[acc' b']| |]; simpl; try done.
      f_equal.
      apply (readEntries_ext store). intros e' He'.
      rewrite read_app by (rewrite Hlen1; apply Halloc, elem_of_app; by left).
      apply read_unshift_ne. intros Heq. by eapply Hrest.
    + (* the arrays stay separate *)
      split; simpl.
      * rewrite map_app. apply NoDup_app. split_and!; [done| |].
        -- intros r Hr1 Hr2. rewrite Hrefs in Hr2.
           apply elem_of_seq in Hr2.
           apply list_elem_of_fmap in Hr1 as (e' & -> & He').
           assert (stack e' < length store)%nat
             by (apply Halloc, elem_of_app; by left). lia.
        -- rewrite Hrefs. apply NoDup_seq.
      * intros e' [He'|He']%elem_of_app; rewrite length_app, length_replicate.
        -- assert (stack e' < length store)%nat
             by (apply Halloc, elem_of_app; by left). lia.
        -- assert (stack e' ∈ map stack new) as Hin by (by apply list_elem_of_fmap_2).
           rewrite Hrefs in Hin. apply elem_of_seq in Hin. lia.
      * intros s e' Hs He' Heq.
        assert ((locationIdRef s < length store)%nat ∧
                (locationIdRef s = stack e ∨ s ∈ smp)) as (Hlt & Hcase).
        { apply elem_of_app in Hs as [Hs|Hs].
          - split; [by apply Hsalloc|by right].
          - apply list_elem_of_fmap in Hs as (v & -> & _). simpl.
            split; [done|by left]. }
        apply elem_of_app in He' as [He'|He'].
        -- destruct Hcase as [Hc|Hc].
           ++ eapply Hrest; [exact He'|]. congruence.
           ++ eapply (Hsmp s e'); [done| |done]. apply elem_of_app. by left.
        -- assert (stack e' ∈ map stack new) as Hin by (by apply list_elem_of_fmap_2).
           rewrite Hrefs in Hin. apply elem_of_seq in Hin. lia.
      * intros s Hs. rewrite length_app, Hlen1.
        apply elem_of_app in Hs as [Hs|Hs].
        -- specialize (Hsalloc s Hs). lia.
        -- apply list_elem_of_fmap in Hs as (v & -> & _). simpl. lia.
    + rewrite map_app, forestCount_app in Hfuel |- *. simpl in Hfuel.
      rewrite nodeCount_eq in Hfuel. rewrite Hnodes. lia.
Qed.

(** [build] is the walk over the children of the root, from empty stacks. *)
Lemma build_walk (root : ProfileNode P) t :
  readState <$> build root appendToSamples t =
  walkForest emit [] (children root) [] (newBuilder t).
Proof.
  unfold build.
  destruct (initialEntries_spec (children root) [] []) as (new & -> & Hnodes & Hrefs).
  simpl in *.
  assert (length new = length (children root)) as Hnew
    by (by rewrite <-Hnodes, length_map).
  rewrite loop_walk; simpl.
  - pose proof (readEntries_new [] new []) as Hre. simpl in Hre.
    rewrite <-Hnew, Hre by (by rewrite Hnew).
    by rewrite Hnodes, walkEntries_children.
  - split; simpl.
    + rewrite Hrefs. apply NoDup_seq.
    + intros e He. rewrite length_replicate.
      assert (stack e ∈ map stack new) as Hin by (by apply list_elem_of_fmap_2).
      rewrite Hrefs in Hin. apply elem_of_seq in Hin. lia.
    + intros s e Hs. by apply elem_of_nil in Hs.
    + intros s Hs. by apply elem_of_nil in Hs.
  - by rewrite Hnodes.
Qed.

End LoopWalk.

(** ** Maps that number the keys of a list *)

Section IndexedMaps.
Implicit Types (m : gmap string Z) (ks : list string) (k : string).

Lemma Indexed_empty off : Indexed off ∅ [].
Proof. intros k id. rewrite lookup_empty. split; [done|]. by intros [_ ?]. Qed.

Lemma Indexed_range off m ks k id :
  Indexed off m ks → m !! k = Some id → off ≤ id < off + Z.of_nat (length ks).
Proof.
  intros Hm Hk. apply Hm in Hk as [? Hk].
  apply lookup_lt_Some in Hk. lia.
Qed.

Lemma Indexed_elem_of off m ks k :
  Indexed off m ks → k ∈ ks ↔ is_Some (m !! k).
Proof.
  intros Hm. split.
  - intros [i Hi]%list_elem_of_lookup. exists (Z.of_nat i + off).
    apply Hm. split; [lia|].
    by replace (Z.to_nat (Z.of_nat i + off - off)) with i by lia.
  - intros [id Hid]. apply Hm in Hid as [_ Hid].
    by eapply list_elem_of_lookup_2.
Qed.

Lemma Indexed_insert off m ks k :
  Indexed off m ks → m !! k = None →
  Indexed off (<[k := Z.of_nat (length ks) + off]> m) (ks ++ [k]).
Proof.
  intros Hm Hk k' id. destruct (decide (k = k')) as [<-|Hne].
  - rewrite lookup_insert_eq. split.
    + intros [= <-]. split; [lia|].
      replace (Z.to_nat (Z.of_nat (length ks) + off - off)) with (length ks) by lia.
      by rewrite lookup_app_r, Nat.sub_diag.
    + intros [Hoff Hl].
      destruct (decide (Z.to_nat (id - off) < length ks)%nat) as [Hlt|Hge].
      * rewrite lookup_app_l in Hl by done.
        assert (m !! k = Some id) as Hc by (by apply Hm). congruence.
      * apply lookup_lt_Some in Hl as Hlen. rewrite length_app in Hlen.
        simpl in Hlen. f_equal. lia.
  - rewrite lookup_insert_ne by done. rewrite (Hm k' id). split.
    + intros [Hoff Hl]. split; [done|]. by apply lookup_app_l_Some.
    + intros [Hoff Hl]. split; [done|].
      destruct (decide (Z.to_nat (id - off) < length ks)%nat) as [Hlt|Hge].
      * by rewrite lookup_app_l in Hl.
      * rewrite lookup_app_r in Hl by lia.
        apply list_lookup_singleton_Some in Hl as [_ ?]. done.
Qed.

Lemma Indexed_NoDup off m ks : Indexed off m ks → NoDup ks.
Proof.
  intros Hm. apply NoDup_alt. intros i j k Hi Hj.
  assert (m !! k = Some (Z.of_nat i + off)) as Hi'.
  { apply Hm. split; [lia|].
    by replace (Z.to_nat (Z.of_nat i + off - off)) with i by lia. }
  assert (m !! k = Some (Z.of_nat j + off)) as Hj'.
  { apply Hm. split; [lia|].
    by replace (Z.to_nat (Z.of_nat j + off - off)) with j by lia. }
  rewrite Hi' in Hj'. simplify_eq. lia.
Qed.

Lemma addKey_old ks k : k ∈ ks → addKey ks k = ks.
Proof. intros Hk. unfold addKey. by rewrite decide_True. Qed.

Lemma addKey_new ks k : k ∉ ks → addKey ks k = ks ++ [k].
Proof. intros Hk. unfold addKey. by rewrite decide_False. Qed.

Lemma addKey_hit off m ks k id :
  Indexed off m ks → m !! k = Some id → addKey ks k = ks.
Proof.
  intros Hm Hk. apply addKey_old. eapply Indexed_elem_of; eauto.
Qed.

Lemma addKey_miss off m ks k :
  Indexed off m ks → m !! k = None → addKey ks k = ks ++ [k].
Proof.
  intros Hm Hk. apply addKey_new. intros Hin.
  eapply Indexed_elem_of in Hin as [? ?]; [|done]. congruence.
Qed.

Lemma addKeys_snoc ks l k : addKeys ks (l ++ [k]) = addKey (addKeys ks l) k.
Proof. unfold addKeys. by rewrite foldl_snoc. Qed.

Lemma addKeys_app ks l1 l2 : addKeys ks (l1 ++ l2) = addKeys (addKeys ks l1) l2.
Proof. unfold addKeys. by rewrite foldl_app. Qed.

Lemma elem_of_addKey ks k k' : k' ∈ addKey ks k ↔ k' ∈ ks ∨ k' = k.
Proof.
  unfold addKey. case_decide.
  - split; [by left|]. intros [?| ->]; done.
  - rewrite elem_of_app, list_elem_of_singleton. done.
Qed.

Lemma elem_of_addKeys ks l k : k ∈ addKeys ks l ↔ k ∈ ks ∨ k ∈ l.
Proof.
  revert ks. induction l as [|x l IH]; intros ks; simpl.
  - split; [by left|]. intros [?|?%elem_of_nil]; done.
  - unfold addKeys in *. simpl. rewrite IH, elem_of_addKey, elem_of_cons.
    tauto.
Qed.

Lemma NoDup_addKey ks k : NoDup ks → NoDup (addKey ks k).
Proof.
  intros Hnd. unfold addKey. case_decide; [done|].
  apply NoDup_app. split_and!; [done| |apply NoDup_singleton].
  intros x Hx ->%list_elem_of_singleton. done.
Qed.

Lemma NoDup_addKeys ks l : NoDup ks → NoDup (addKeys ks l).
Proof.
  revert ks. induction l as [|x l IH]; intros ks Hnd; [done|].
  apply IH. by apply NoDup_addKey.
Qed.

(** The number of keys is the number of distinct keys met. *)
Lemma length_addKeys_nil l :
  length (addKeys [] l) = size (list_to_set l : gset string).
Proof.
  rewrite <-(size_list_to_set (C:=gset string) (addKeys [] l))
    by (apply NoDup_addKeys; constructor).
  f_equal. apply set_eq. intros k.
  rewrite !elem_of_list_to_set, elem_of_addKeys, elem_of_nil. tauto.
Qed.

End IndexedMaps.

(** ** The string table *)

Section StringTableProps.
Implicit Types (t : StringTable) (str : string).

Lemma StrWF_new : StrWF newStringTable.
Proof.
  unfold newStringTable, getIndexOrAdd, StrWF. simpl.
  rewrite lookup_empty. simpl.
  apply (Indexed_insert 0 ∅ [] ""); [apply Indexed_empty|apply lookup_empty].
Qed.

Lemma getIndexOrAdd_spec str t i t' :
  StrWF t → getIndexOrAdd str t = (i, t') →
  StrWF t' ∧ strings t `prefix_of` strings t' ∧
  0 ≤ i < Z.of_nat (length (strings t')) ∧
  strings t' !! Z.to_nat i = Some str.
Proof.
  unfold getIndexOrAdd, StrWF. intros Ht.
  destruct (stringsMap t !! str) as [loc|] eqn:Hlk; intros [= <- <-]; simpl.
  - pose proof (Indexed_range _ _ _ _ _ Ht Hlk).
    apply Ht in Hlk as [? Hlk]. rewrite Z.sub_0_r in Hlk.
    split_and!; try done; lia.
  - rewrite length_app. simpl.
    replace (Z.of_nat (length (strings t) + 1) - 1)
      with (Z.of_nat (length (strings t)) + 0) by lia.
    split_and!; try lia.
    + by apply Indexed_insert.
    + by apply prefix_app_r.
    + replace (Z.to_nat (Z.of_nat (length (strings t)) + 0))
        with (length (strings t)) by lia.
      by rewrite lookup_app_r, Nat.sub_diag.
Qed.

End StringTableProps.

(** ** Interning functions and locations *)

Section Interning.
Context {P : Type}.
Implicit Types (n : ProfileNode P) (b : Builder).

Lemma ext_refl b : ext b b.
Proof. by split. Qed.

Lemma ext_trans b1 b2 b3 : ext b1 b2 → ext b2 b3 → ext b1 b3.
Proof. intros [] []. split; by etrans. Qed.

Lemma getFunction_spec n b fks :
  FInv (P:=P) (functions b) (functionIdMap b) (table b) fks →
  ∃ f b', getFunction n b = (Some f, b') ∧
    FInv (P:=P) (functions b') (functionIdMap b') (table b')
      (addKey fks (functionKey n)) ∧
    functionIdMap b' !! functionKey n = Some (fn_id f) ∧
    ext b b' ∧
    locations b' = locations b ∧ locationIdMap b' = locationIdMap b.
Proof.
  intros HF. unfold getFunction.
  destruct (functionIdMap b !! functionKey n) as [id|] eqn:Hlk.
  - destruct (finv_node _ _ _ _ HF n id Hlk) as (f & Hf & Hname).
    pose proof (Indexed_range _ _ _ _ _ (finv_keys _ _ _ _ HF) Hlk) as Hid.
    destruct (finv_funs _ _ _ _ HF _ _ Hf) as (Hfid & _).
    exists f, b. split_and!; try done.
    + f_equal. apply arrayGet_Some. split; [lia|done].
    + by erewrite addKey_hit; [|apply HF|].
    + rewrite Hlk, Hfid. f_equal. lia.
  - destruct (getIndexOrAdd (name n) (table b)) as [nameId t1] eqn:E1.
    destruct (getIndexOrAdd (scriptName n) t1) as [fileId t2] eqn:E2.
    destruct (getIndexOrAdd_spec _ _ _ _ (finv_strings _ _ _ _ HF) E1)
      as (Ht1 & Hp1 & Hr1 & Hn1).
    destruct (getIndexOrAdd_spec _ _ _ _ Ht1 E2) as (Ht2 & Hp2 & Hr2 & Hn2).
    pose proof (prefix_length _ _ Hp1) as Hl1.
    pose proof (prefix_length _ _ Hp2) as Hl2.
    pose proof (finv_length _ _ _ _ HF) as Hlen.
    eexists _, _. split; [reflexivity|]. simpl.
    erewrite addKey_miss; [|apply HF|done].
    split_and!; try done.
    + split; simpl.
      * rewrite Hlen. apply Indexed_insert; [apply HF|done].
      * rewrite !length_app. simpl. lia.
      * done.
      * intros i f Hi.
        destruct (decide (i < length (functions b))%nat) as [Hlt|Hge].
        -- rewrite lookup_app_l in Hi by done.
           destruct (finv_funs _ _ _ _ HF _ _ Hi) as (? & ? & ? & ?).
           split_and!; try done; lia.
        -- rewrite lookup_app_r in Hi by lia.
           apply list_lookup_singleton_Some in Hi as [Hi <-]. simpl.
           split_and!; try done; lia.
      * intros n' fid.
        destruct (decide (functionKey n = functionKey n')) as [Heq|Hne].
        -- rewrite <-Heq, lookup_insert_eq. intros [= <-].
           eexists. split.
           ++ replace (Z.to_nat (Z.of_nat (length (functions b)) + 1 - 1))
                with (length (functions b)) by lia.
              by rewrite lookup_app_r, Nat.sub_diag.
           ++ simpl. apply functionKey_inj in Heq as [_ <-].
              by eapply prefix_lookup_Some.
        -- rewrite lookup_insert_ne by done. intros Hfid.
           destruct (finv_node _ _ _ _ HF n' fid Hfid) as (f & Hf & Hname).
           exists f. split; [by apply lookup_app_l_Some|].
           eapply prefix_lookup_Some; [done|]. by etrans.
    + by rewrite lookup_insert_eq.
    + split; simpl; try done.
      * by apply insert_subseteq.
      * by apply prefix_app_r.
      * by etrans.
Qed.

Lemma LInv_mono locs lmap funs fmap funs' fmap' lks :
  LInv (P:=P) locs lmap funs fmap lks →
  fmap ⊆ fmap' → (length funs ≤ length funs')%nat →
  LInv (P:=P) locs lmap funs' fmap' lks.
Proof.
  intros HL Hsub Hlen. split; try apply HL.
  - intros i loc Hi.
    destruct (linv_locs _ _ _ _ _ HL _ _ Hi) as (? & fid & ln & ? & ?).
    split; [done|]. exists fid, ln. split; [done|lia].
  - intros n id Hid.
    destruct (linv_node _ _ _ _ _ HL _ _ Hid) as (loc & fid & ? & ? & ?).
    exists loc, fid. split_and!; try done. by eapply lookup_weaken.
Qed.

Lemma getLocation_spec n b fks lks :
  FInv (P:=P) (functions b) (functionIdMap b) (table b) fks →
  LInv (P:=P) (locations b) (locationIdMap b) (functions b) (functionIdMap b) lks →
  ∃ l b', getLocation n b = Ok (Some l, b') ∧
    FInv (P:=P) (functions b') (functionIdMap b') (table b')
      (addKey fks (functionKey n)) ∧
    LInv (P:=P) (locations b') (locationIdMap b') (functions b')
      (functionIdMap b') (addKey lks (locationKey n)) ∧
    locationIdMap b' !! locationKey n = Some (loc_id l) ∧
    ext b b'.
Proof.
  intros HF HL. unfold getLocation.
  destruct (locationIdMap b !! locationKey n) as [id|] eqn:Hlk.
  - destruct (linv_node _ _ _ _ _ HL n id Hlk) as (loc & fid & Hloc & Hline & Hfid).
    pose proof (Indexed_range _ _ _ _ _ (linv_keys _ _ _ _ _ HL) Hlk) as Hid.
    destruct (linv_locs _ _ _ _ _ HL _ _ Hloc) as (Hlid & _).
    exists loc, b. split_and!; try done.
    + do 2 f_equal. apply arrayGet_Some. split; [lia|done].
    + by erewrite addKey_hit; [|apply HF|].
    + by erewrite addKey_hit; [|apply HL|].
    + rewrite Hlk, Hlid. f_equal. lia.
  - set (b1 := {| locations := locations b;
                  functions := functions b; functionIdMap := functionIdMap b;
                  locationIdMap := <[locationKey n := Z.of_nat (length (locations b)) + 1]>
                                     (locationIdMap b);
                  table := table b |}).
    destruct (getFunction_spec n b1 fks HF)
      as (f & b2 & Hgf & HF2 & Hfid & Hext & Hlocs & Hlmap).
    unfold getLine. rewrite Hgf. simpl in *.
    pose proof (Indexed_range _ _ _ _ _ (finv_keys _ _ _ _ HF2) Hfid) as Hfr.
    rewrite <-(finv_length _ _ _ _ HF2) in Hfr.
    pose proof (linv_length _ _ _ _ _ HL) as Hlen.
    pose proof (prefix_length _ _ (ext_funs _ _ Hext)) as Hfl. simpl in Hfl.
    apply (LInv_mono _ _ _ _ (functions b2) (functionIdMap b2)) in HL;
      [|apply Hext|done].
    eexists _, _. split; [reflexivity|]. simpl.
    erewrite (addKey_miss 1 _ lks); [|apply HL|done].
    rewrite Hlocs, Hlmap.
    split_and!; try done.
    + split; simpl.
      * rewrite Hlen. apply Indexed_insert; [apply HL|done].
      * rewrite !length_app. simpl. lia.
      * intros i loc Hi.
        destruct (decide (i < length (locations b))%nat) as [Hlt|Hge].
        -- rewrite lookup_app_l in Hi by done.
           by apply (linv_locs _ _ _ _ _ HL).
        -- rewrite lookup_app_r in Hi by lia.
           apply list_lookup_singleton_Some in Hi as [Hi <-]. simpl.
           split; [lia|]. eexists _, _. split; [reflexivity|lia].
      * intros n' id.
        destruct (decide (locationKey n = locationKey n')) as [Heq|Hne].
        -- rewrite <-Heq, lookup_insert_eq. intros [= <-].
           eexists _, _. split_and!.
           ++ replace (Z.to_nat (Z.of_nat (length (locations b)) + 1 - 1))
                with (length (locations b)) by lia.
              by rewrite lookup_app_r, Nat.sub_diag.
           ++ simpl. apply locationKey_inj in Heq as (_ & -> & _). done.
           ++ by rewrite <-(locationKey_functionKey _ _ Heq).
        -- rewrite lookup_insert_ne by done. intros Hid.
           destruct (linv_node _ _ _ _ _ HL n' id Hid) as (loc & fid & ? & ? & ?).
           exists loc, fid. split_and!; try done. by apply lookup_app_l_Some.
    + by rewrite lookup_insert_eq.
    + destruct Hext as [E1 E2 E3 E4 E5]. simpl in *.
      split; simpl; try done.
      * by apply insert_subseteq.
      * by apply prefix_app_r.
Qed.

End Interning.

(** ** The traversal keeps the tables consistent *)

Section Traversal.
Context {P : Type}.
Implicit Types (n : ProfileNode P) (b : Builder) (m : gmap string Z).
Implicit Types (anc : list (ProfileNode P)) (acc : list Sample).
Implicit Types (vs : list (ProfileNode P * list (ProfileNode P))).
Variable emit : ProfileNode P → Stack → list Sample.

Lemma idOf_mono m m' n :
  m ⊆ m' → is_Some (m !! locationKey n) → idOf m' n = idOf m n.
Proof.
  intros Hsub [id Hid]. unfold idOf.
  by rewrite Hid, (lookup_weaken _ _ _ _ Hid Hsub).
Qed.

Lemma map_idOf_mono m m' (l : list (ProfileNode P)) :
  m ⊆ m' → (∀ a, a ∈ l → is_Some (m !! locationKey a)) →
  map (idOf m') l = map (idOf m) l.
Proof.
  intros Hsub Hl. induction l as [|a l IH]; simpl; [done|].
  rewrite IH by (intros; apply Hl; by right).
  f_equal. apply idOf_mono; [done|]. apply Hl. by left.
Qed.

Lemma stackOf_mono m m' (v : ProfileNode P * list (ProfileNode P)) :
  m ⊆ m' → (∀ a, a ∈ v.1 :: v.2 → is_Some (m !! locationKey a)) →
  stackOf m' v = stackOf m v.
Proof. intros Hsub Hv. by apply map_idOf_mono. Qed.

Lemma flat_map_ext_in {A B} (f g : A → list B) (l : list A) :
  (∀ x, x ∈ l → f x = g x) → flat_map f l = flat_map g l.
Proof.
  induction l as [|x l IH]; intros Hfg; simpl; [done|].
  rewrite Hfg by (by left). f_equal. apply IH. intros; apply Hfg; by right.
Qed.

Lemma is_Some_mono m m' k : m ⊆ m' → is_Some (m !! k) → is_Some (m' !! k).
Proof. intros Hsub [id Hid]. exists id. by eapply lookup_weaken. Qed.

Lemma Inv_init t : StrWF t → Inv emit [] (newBuilder t) [].
Proof.
  intros Ht. split; simpl; try done.
  - split; simpl; try done; apply Indexed_empty.
  - split; simpl; try done; apply Indexed_empty.
  - intros v a Hv. by apply elem_of_nil in Hv.
Qed.

(** One turn of the loop. *)
Lemma visit_spec n anc stk acc b vs :
  Inv emit acc b vs →
  stk = map (idOf (locationIdMap b)) anc →
  (∀ a, a ∈ anc → is_Some (locationIdMap b !! locationKey a)) →
  ∃ l b1, getLocation n b = Ok (Some l, b1) ∧
    Inv emit (acc ++ emit n (loc_id l :: stk)) b1 (vs ++ [(n, anc)]) ∧
    ext b b1 ∧
    loc_id l :: stk = map (idOf (locationIdMap b1)) (n :: anc) ∧
    (∀ a, a ∈ n :: anc → is_Some (locationIdMap b1 !! locationKey a)).
Proof.
  intros [HF HL Hsmp Hanc] -> Hdom.
  destruct (getLocation_spec n b _ _ HF HL)
    as (l & b1 & Hget & HF1 & HL1 & Hid & Hext).
  exists l, b1. split; [done|].
  pose proof (ext_lmap _ _ Hext) as Hsub.
  assert (loc_id l :: map (idOf (locationIdMap b)) anc
          = map (idOf (locationIdMap b1)) (n :: anc)) as Hstack.
  { simpl. f_equal.
    - unfold idOf. by rewrite Hid.
    - symmetry. by apply map_idOf_mono. }
  assert (∀ a, a ∈ n :: anc → is_Some (locationIdMap b1 !! locationKey a)) as Hdom1.
  { intros a [->|Ha]%elem_of_cons; [by eexists|].
    eapply is_Some_mono; [done|]. by apply Hdom. }
  split_and!; try done.
  split.
  - rewrite map_app. simpl. by rewrite addKeys_snoc.
  - rewrite map_app. simpl. by rewrite addKeys_snoc.
  - rewrite flat_map_app. simpl. rewrite app_nil_r, Hsmp. f_equal.
    + apply flat_map_ext_in. intros v Hv. f_equal. symmetry.
      apply stackOf_mono; [done|]. intros a Ha. by eapply Hanc.
    + by rewrite Hstack.
  - intros v a [Hv| ->%list_elem_of_singleton]%elem_of_app Ha.
    + eapply is_Some_mono; [done|]. by eapply Hanc.
    + by apply Hdom1.
Qed.

Local Abbreviation walk_ok := (λ n : ProfileNode P,
  ∀ anc stk acc b vs,
    Inv emit acc b vs →
    stk = map (idOf (locationIdMap b)) anc →
    (∀ a, a ∈ anc → is_Some (locationIdMap b !! locationKey a)) →
    ∃ acc' b', walk emit n stk acc b = Ok (acc', b') ∧
      Inv emit acc' b' (vs ++ visitNode anc n) ∧ ext b b').

Lemma walkForest_spec cs anc stk acc b vs :
  Forall walk_ok cs →
  Inv emit acc b vs →
  stk = map (idOf (locationIdMap b)) anc →
  (∀ a, a ∈ anc → is_Some (locationIdMap b !! locationKey a)) →
  ∃ acc' b', walkForest emit stk cs acc b = Ok (acc', b') ∧
    Inv emit acc' b' (vs ++ visitForest anc cs) ∧ ext b b'.
Proof.
  intros Hcs. revert acc b vs.
  induction Hcs as [|c cs Hc Hcs IH]; intros acc b vs HInv Hstk Hdom; simpl.
  - exists acc, b. rewrite app_nil_r. split_and!; [done..|apply ext_refl].
  - destruct (IH acc b vs HInv Hstk Hdom) as (acc1 & b1 & -> & HInv1 & Hext1).
    simpl. pose proof (ext_lmap _ _ Hext1) as Hsub.
    destruct (Hc anc stk acc1 b1 (vs ++ visitForest anc cs))
      as (acc2 & b2 & Hw & HInv2 & Hext2).
    + done.
    + rewrite Hstk. symmetry. by apply map_idOf_mono.
    + intros a Ha. eapply is_Some_mono; [done|]. by apply Hdom.
    + exists acc2, b2. rewrite app_assoc. split_and!; [done..|].
      by eapply ext_trans.
Qed.

Lemma walk_spec n : walk_ok n.
Proof.
  induction n as [n IH] using ProfileNode_forest_ind.
  intros anc stk acc b vs HInv Hstk Hdom.
  rewrite walk_eq, visitNode_eq.
  destruct (visit_spec n anc stk acc b vs HInv Hstk Hdom)
    as (l & b1 & -> & HInv2 & Hext2 & Hstack & Hdom2). simpl.
  destruct (walkForest_spec (children n) (n :: anc) (loc_id l :: stk) _ _ _
              IH HInv2 Hstack Hdom2) as (acc3 & b3 & Hw & HInv3 & Hext3).
  exists acc3, b3. split_and!; [done| |by eapply ext_trans].
  by rewrite <-app_assoc in HInv3.
Qed.

(** [build] returns, and what a reader finds in its result is described by
    the visits of the children of the root from the last to the first. *)
Lemma build_spec (appendToSamples : AppendEntryToSamples P)
    (root : ProfileNode P) t :
  appendsOnEntry emit appendToSamples →
  StrWF t →
  ∃ st, build root appendToSamples t = Ok st ∧
    Inv emit (map (readSample (store st)) (samples st)) (builder st)
      (visitForest [] (children root)) ∧
    strings t `prefix_of` strings (table (builder st)).
Proof.
  intros Happ Ht.
  pose proof (build_walk appendToSamples emit Happ root t) as Hbuild.
  destruct (walkForest_spec (children root) [] [] [] (newBuilder t) [])
    as (acc & b & Hw & HInv & Hext).
  - apply Forall_forall. intros c _. apply walk_spec.
  - by apply Inv_init.
  - done.
  - intros a Ha. by apply elem_of_nil in Ha.
  - rewrite Hw in Hbuild.
    destruct (build root appendToSamples t) as [st| |]; simpl in Hbuild; try done.
    injection Hbuild as <- <-.
    exists st. split_and!; [done..|]. apply (ext_strs _ _ Hext).
Qed.

End Traversal.

(** ** The two adapters *)

Section Adapters.

Lemma appendTime_onEntry intervalMicros :
  appendsOnEntry (timeSamples intervalMicros)
    (appendTimeEntryToSamples intervalMicros).
Proof.
  intros e acc. unfold appendTimeEntryToSamples, timeSamples.
  destruct (0 <? hitCount (node e)).
  - by exists [ [hitCount (node e); hitCount (node e) * intervalMicros] ].
  - exists []. by rewrite app_nil_r.
Qed.

Lemma appendHeap_onEntry : appendsOnEntry heapSamples appendHeapEntryToSamples.
Proof.
  intros e acc. unfold appendHeapEntryToSamples, heapSamples.
  exists (map (λ alloc, [count alloc; sizeBytes alloc * count alloc])
              (allocations (node e))).
  split; [|intros stk; by rewrite map_map].
  assert (∀ (l : list Allocation) acc0,
    foldl (λ acc alloc,
             acc ++ [ {| locationIdRef := stack e;
                         sampleValue := [count alloc; sizeBytes alloc * count alloc] |} ])
          acc0 l =
    acc0 ++ map (λ v, {| locationIdRef := stack e; sampleValue := v |})
                (map (λ alloc, [count alloc; sizeBytes alloc * count alloc]) l))
    as Hfold.
  { induction l as [|x l IH]; intros acc0; simpl.
    - by rewrite app_nil_r.
    - by rewrite IH, <-app_assoc. }
  rewrite Hfold.
  destruct (allocations (node e)) as [|a l]; simpl; [by rewrite app_nil_r|done].
Qed.

Lemma createSampleValueType_spec t vt t' :
  StrWF t → createSampleValueType t = (vt, t') →
  StrWF t' ∧ strings t `prefix_of` strings t' ∧
  0 ≤ vt_type vt < Z.of_nat (length (strings t')) ∧
  0 ≤ vt_unit vt < Z.of_nat (length (strings t')).
Proof.
  unfold createSampleValueType. intros Ht.
  destruct (getIndexOrAdd "samples" t) as [ty t1] eqn:E1.
  destruct (getIndexOrAdd "count" t1) as [un t2] eqn:E2.
  intros [= <- <-]. simpl.
  destruct (getIndexOrAdd_spec _ _ _ _ Ht E1) as (Ht1 & Hp1 & Hr1 & _).
  destruct (getIndexOrAdd_spec _ _ _ _ Ht1 E2) as (Ht2 & Hp2 & Hr2 & _).
  pose proof (prefix_length _ _ Hp2).
  split_and!; try done; try lia. by etrans.
Qed.

Lemma createTimeValueType_spec t vt t' :
  StrWF t → createTimeValueType t = (vt, t') →
  StrWF t' ∧ strings t `prefix_of` strings t' ∧
  0 ≤ vt_type vt < Z.of_nat (length (strings t')) ∧
  0 ≤ vt_unit vt < Z.of_nat (length (strings t')).
Proof.
  unfold createTimeValueType. intros Ht.
  destruct (getIndexOrAdd "time" t) as [ty t1] eqn:E1.
  destruct (getIndexOrAdd "microseconds" t1) as [un t2] eqn:E2.
  intros [= <- <-]. simpl.
  destruct (getIndexOrAdd_spec _ _ _ _ Ht E1) as (Ht1 & Hp1 & Hr1 & _).
  destruct (getIndexOrAdd_spec _ _ _ _ Ht1 E2) as (Ht2 & Hp2 & Hr2 & _).
  pose proof (prefix_length _ _ Hp2).
  split_and!; try done; try lia. by etrans.
Qed.

Lemma createAllocationValueType_spec t vt t' :
  StrWF t → createAllocationValueType t = (vt, t') →
  StrWF t' ∧ strings t `prefix_of` strings t' ∧
  0 ≤ vt_type vt < Z.of_nat (length (strings t')) ∧
  0 ≤ vt_unit vt < Z.of_nat (length (strings t')).
Proof.
  unfold createAllocationValueType. intros Ht.
  destruct (getIndexOrAdd "space" t) as [ty t1] eqn:E1.
  destruct (getIndexOrAdd "bytes" t1) as [un t2] eqn:E2.
  intros [= <- <-]. simpl.
  destruct (getIndexOrAdd_spec _ _ _ _ Ht E1) as (Ht1 & Hp1 & Hr1 & _).
  destruct (getIndexOrAdd_spec _ _ _ _ Ht1 E2) as (Ht2 & Hp2 & Hr2 & _).
  pose proof (prefix_length _ _ Hp2).
  split_and!; try done; try lia. by etrans.
Qed.

End Adapters.

(** ** What the profile inherits from the traversal *)

Section Profiles.
Context {P : Type}.
Implicit Types (b : Builder) (acc : list Sample).
Implicit Types (vs : list (ProfileNode P * list (ProfileNode P))).
Variable emit : ProfileNode P → Stack → list Sample.

Lemma Inv_id_range acc b vs v a :
  Inv emit acc b vs → v ∈ vs → a ∈ v.1 :: v.2 →
  locationIdMap b !! locationKey a = Some (idOf (locationIdMap b) a) ∧
  1 ≤ idOf (locationIdMap b) a ≤ Z.of_nat (length (locations b)).
Proof.
  intros HInv Hv Ha.
  destruct (inv_anc _ _ _ _ HInv v a Hv Ha) as [id Hid].
  unfold idOf. rewrite Hid. simpl. split; [done|].
  pose proof (Indexed_range _ _ _ _ _ (linv_keys _ _ _ _ _ (inv_L _ _ _ _ HInv)) Hid).
  rewrite (linv_length _ _ _ _ _ (inv_L _ _ _ _ HInv)). lia.
Qed.

Lemma Inv_wellformed acc b vs (header : IProfile) t0 :
  Inv emit acc b vs →
  (∀ n stk s, s ∈ emit n stk → locationId s = stk) →
  strings t0 `prefix_of` strings (table b) →
  (∀ vt, vt ∈ periodType header :: sampleType header →
     0 ≤ vt_type vt < Z.of_nat (length (strings t0)) ∧
     0 ≤ vt_unit vt < Z.of_nat (length (strings t0))) →
  WellFormedProfile
    {| sampleType := sampleType header; sample := acc;
       location := locations b; function_ := functions b;
       stringTable := strings (table b); timeNanos := timeNanos header;
       durationNanos := durationNanos header;
       periodType := periodType header; period := period header |}.
Proof.
  intros HInv Hstack Hpre Hvt.
  pose proof (inv_F _ _ _ _ HInv) as HF. pose proof (inv_L _ _ _ _ HInv) as HL.
  split; simpl.
  - intros i f Hf. by destruct (finv_funs _ _ _ _ HF _ _ Hf).
  - intros i l Hl. by destruct (linv_locs _ _ _ _ _ HL _ _ Hl).
  - intros s id Hs Hid. rewrite (inv_samples _ _ _ _ HInv) in Hs.
    apply list_elem_of_In, in_flat_map in Hs as (v & Hv & Hs).
    apply list_elem_of_In in Hv, Hs.
    rewrite (Hstack _ _ _ Hs) in Hid. unfold stackOf in Hid.
    apply list_elem_of_In, in_map_iff in Hid as (a & <- & Ha).
    apply list_elem_of_In in Ha.
    by apply (Inv_id_range acc b vs v a).
  - intros l ln [i Hl]%list_elem_of_lookup Hln.
    destruct (linv_locs _ _ _ _ _ HL _ _ Hl) as (_ & fid & line & Hline & Hfid).
    rewrite Hline in Hln. apply list_elem_of_singleton in Hln as ->. done.
  - intros vt Hin. pose proof (prefix_length _ _ Hpre).
    destruct (Hvt vt Hin). lia.
  - intros f [i Hf]%list_elem_of_lookup.
    destruct (finv_funs _ _ _ _ HF _ _ Hf) as (_ & -> & ? & ?). done.
Qed.

End Profiles.

Section TimeAndHeap.

Lemma serializeTimeProfile_spec prof intervalMicros :
  ∃ acc b,
    serializeTimeProfile prof intervalMicros =
    Ok {| sampleType := [ {| vt_type := 1; vt_unit := 2 |};
                          {| vt_type := 3; vt_unit := 4 |} ];
          sample := acc; location := locations b;
          function_ := functions b; stringTable := strings (table b);
          timeNanos := startTime prof * 1000 * 1000;
          durationNanos := (endTime prof - startTime prof) * 1000 * 1000;
          periodType := {| vt_type := 3; vt_unit := 4 |};
          period := intervalMicros |} ∧
    Inv (timeSamples intervalMicros) acc b
      (visitForest [] (children (topDownRoot prof))) ∧
    [""; "samples"; "count"; "time"; "microseconds"]
      `prefix_of` strings (table b).
Proof.
  unfold serializeTimeProfile.
  destruct (createSampleValueType newStringTable) as [svt t1] eqn:E1.
  destruct (createTimeValueType t1) as [tvt t2] eqn:E2.
  destruct (createSampleValueType_spec _ _ _ StrWF_new E1) as (Ht1 & _).
  destruct (createTimeValueType_spec _ _ _ Ht1 E2) as (Ht2 & _).
  assert (svt = {| vt_type := 1; vt_unit := 2 |}) as ->.
  { apply (f_equal fst) in E1. by vm_compute in E1. }
  assert (t1 = (createSampleValueType newStringTable).2) as Ht1eq by (by rewrite E1).
  assert (tvt = {| vt_type := 3; vt_unit := 4 |}) as ->.
  { apply (f_equal fst) in E2. rewrite Ht1eq in E2. by vm_compute in E2. }
  assert (strings t2 = [""; "samples"; "count"; "time"; "microseconds"]) as Hstr.
  { apply (f_equal (λ x, strings x.2)) in E2. rewrite Ht1eq in E2.
    by vm_compute in E2. }
  unfold serialize.
  destruct (build_spec (timeSamples intervalMicros)
              (appendTimeEntryToSamples intervalMicros) (topDownRoot prof) t2
              (appendTime_onEntry intervalMicros) Ht2) as (st & -> & HInv & Hpre).
  eexists _, (builder st). simpl. rewrite Hstr in Hpre. done.
Qed.

Lemma serializeHeapProfile_spec prof startTimeNanos durationNanos_ intervalBytes :
  ∃ acc b,
    serializeHeapProfile prof startTimeNanos durationNanos_ intervalBytes =
    Ok {| sampleType := [ {| vt_type := 1; vt_unit := 2 |};
                          {| vt_type := 3; vt_unit := 4 |} ];
          sample := acc; location := locations b;
          function_ := functions b; stringTable := strings (table b);
          timeNanos := startTimeNanos;
          durationNanos := durationNanos_;
          periodType := {| vt_type := 3; vt_unit := 4 |};
          period := intervalBytes |} ∧
    Inv heapSamples acc b (visitForest [] (children prof)) ∧
    [""; "samples"; "count"; "space"; "bytes"] `prefix_of` strings (table b).
Proof.
  unfold serializeHeapProfile.
  destruct (createSampleValueType newStringTable) as [svt t1] eqn:E1.
  destruct (createAllocationValueType t1) as [avt t2] eqn:E2.
  destruct (createSampleValueType_spec _ _ _ StrWF_new E1) as (Ht1 & _).
  destruct (createAllocationValueType_spec _ _ _ Ht1 E2) as (Ht2 & _).
  assert (svt = {| vt_type := 1; vt_unit := 2 |}) as ->.
  { apply (f_equal fst) in E1. by vm_compute in E1. }
  assert (t1 = (createSampleValueType newStringTable).2) as Ht1eq by (by rewrite E1).
  assert (avt = {| vt_type := 3; vt_unit := 4 |}) as ->.
  { apply (f_equal fst) in E2. rewrite Ht1eq in E2. by vm_compute in E2. }
  assert (strings t2 = [""; "samples"; "count"; "space"; "bytes"]) as Hstr.
  { apply (f_equal (λ x, strings x.2)) in E2. rewrite Ht1eq in E2.
    by vm_compute in E2. }
  unfold serialize.
  destruct (build_spec heapSamples appendHeapEntryToSamples prof t2
              appendHeap_onEntry Ht2) as (st & -> & HInv & Hpre).
  eexists _, (builder st). simpl. rewrite Hstr in Hpre. done.
Qed.

Lemma timeSamples_stack intervalMicros (n : TimeProfileNode) stk s :
  s ∈ timeSamples intervalMicros n stk → locationId s = stk.
Proof.
  unfold timeSamples. destruct (0 <? hitCount n).
  - by intros ->%list_elem_of_singleton.
  - by intros ?%elem_of_nil.
Qed.

Lemma heapSamples_stack (n : AllocationProfileNode) stk s :
  s ∈ heapSamples n stk → locationId s = stk.
Proof.
  unfold heapSamples. intros Hs.
  apply list_elem_of_In, in_map_iff in Hs as (a & <- & _). done.
Qed.

End TimeAndHeap.

(** ** Shape of the visits *)

Section VisitShape.
Context {P : Type}.
Implicit Types (n root : ProfileNode P) (anc cs : list (ProfileNode P)).
Implicit Types (v : ProfileNode P * list (ProfileNode P)).

Lemma nodesOf_eq n : nodesOf n = n :: forestNodes (children n).
Proof. by destruct n. Qed.

Lemma visitForest_app anc cs1 cs2 :
  visitForest anc (cs1 ++ cs2) = visitForest anc cs2 ++ visitForest anc cs1.
Proof.
  induction cs1 as [|c cs1 IH]; simpl.
  - by rewrite app_nil_r.
  - by rewrite IH, app_assoc.
Qed.

(** The later sibling, with its whole subtree, comes first. *)
Lemma visitForest_siblings anc cs1 a cs2 :
  visitForest anc (cs1 ++ a :: cs2) =
  visitForest anc cs2 ++ visitNode anc a ++ visitForest anc cs1.
Proof.
  rewrite visitForest_app. simpl. by rewrite <-app_assoc.
Qed.

Lemma visitForest_chain root anc cs v :
  (∀ c, c ∈ cs → ∀ v, v ∈ visitNode anc c → chain root v.1 v.2) →
  v ∈ visitForest anc cs → chain root v.1 v.2.
Proof.
  induction cs as [|c cs IH]; simpl; intros Hcs Hv.
  - by apply elem_of_nil in Hv.
  - apply elem_of_app in Hv as [Hv|Hv].
    + apply IH; [|done]. intros c' Hc'. apply Hcs. by right.
    + eapply Hcs; [by left|done].
Qed.

Lemma visitNode_chain root n :
  ∀ anc v, chain root n anc → v ∈ visitNode anc n → chain root v.1 v.2.
Proof.
  induction n as [n IH] using ProfileNode_forest_ind.
  intros anc v Hn. rewrite visitNode_eq.
  intros [->|Hv]%elem_of_cons; [done|].
  eapply visitForest_chain; [|done].
  intros c Hc v' Hv'. rewrite Forall_forall in IH.
  eapply IH; [done| |done]. by split.
Qed.

Lemma visits_chain root v :
  v ∈ visitForest [] (children root) → chain root v.1 v.2.
Proof.
  apply visitForest_chain. intros c Hc v' Hv'.
  apply (visitNode_chain root c [] v'); [exact Hc|exact Hv'].
Qed.

Lemma visitForest_nodes anc cs :
  Forall (λ c, ∀ anc, (visitNode anc c).*1 ≡ₚ nodesOf c) cs →
  (visitForest anc cs).*1 ≡ₚ forestNodes cs.
Proof.
  induction 1 as [|c cs Hc Hcs IH]; simpl; [done|].
  rewrite fmap_app, IH, Hc. apply Permutation_app_comm.
Qed.

Lemma visitNode_nodes n : ∀ anc, (visitNode anc n).*1 ≡ₚ nodesOf n.
Proof.
  induction n as [n IH] using ProfileNode_forest_ind. intros anc.
  rewrite visitNode_eq, nodesOf_eq. simpl.
  by rewrite visitForest_nodes.
Qed.

Lemma visits_nodes anc cs : (visitForest anc cs).*1 ≡ₚ forestNodes cs.
Proof.
  apply visitForest_nodes, Forall_forall. intros c _. apply visitNode_nodes.
Qed.

Lemma Inv_located (emit : ProfileNode P → Stack → list Sample) acc b vs v a :
  Inv emit acc b vs → v ∈ vs → a ∈ v.1 :: v.2 →
  located (locations b) (functions b) (strings (table b))
    (idOf (locationIdMap b) a) a.
Proof.
  intros HInv Hv Ha.
  pose proof (inv_F _ _ _ _ HInv) as HF. pose proof (inv_L _ _ _ _ HInv) as HL.
  destruct (inv_anc _ _ _ _ HInv v a Hv Ha) as [id Hid].
  unfold idOf. rewrite Hid. simpl.
  pose proof (Indexed_range _ _ _ _ _ (linv_keys _ _ _ _ _ HL) Hid) as Hidr.
  destruct (linv_node _ _ _ _ _ HL a id Hid) as (loc & fid & Hloc & Hline & Hfid).
  destruct (linv_locs _ _ _ _ _ HL _ _ Hloc) as (Hlid & _).
  pose proof (Indexed_range _ _ _ _ _ (finv_keys _ _ _ _ HF) Hfid) as Hfidr.
  destruct (finv_node _ _ _ _ HF a fid Hfid) as (f & Hf & Hname).
  destruct (finv_funs _ _ _ _ HF _ _ Hf) as (Hffid & _ & Hnr & _).
  assert (fn_id f = fid) as Hfeq by lia.
  exists loc, f. rewrite Hfeq. split_and!.
  - apply arrayGet_Some. split; [lia|done].
  - lia.
  - done.
  - apply arrayGet_Some. split; [lia|done].
  - apply arrayGet_Some. split; [lia|done].
Qed.

End VisitShape.

(** ** Values of the WALL samples *)

Section WallValues.
Implicit Types (vs : list (TimeProfileNode * list TimeProfileNode)).

Lemma timeSamples_values intervalMicros m vs :
  map value
    (flat_map (λ v, timeSamples intervalMicros v.1 (map (idOf m) (v.1 :: v.2))) vs) =
  map (λ n : TimeProfileNode, [hitCount n; hitCount n * intervalMicros])
    (filter (λ n : TimeProfileNode, 0 < hitCount n) vs.*1).
Proof.
  induction vs as [|v vs IH]; [done|].
  cbn [flat_map fmap list_fmap]. rewrite map_app, IH, filter_cons.
  unfold timeSamples at 1.
  destruct (Z.ltb_spec 0 (hitCount v.1)).
  - by rewrite decide_True.
  - by rewrite decide_False by lia.
Qed.

Lemma sumZ_perm (l1 l2 : list Z) : l1 ≡ₚ l2 → sumZ l1 = sumZ l2.
Proof.
  unfold sumZ. induction 1; simpl; lia.
Qed.

Lemma sumZ_filter_pos (l : list TimeProfileNode) :
  (∀ n, n ∈ l → 0 ≤ hitCount n) →
  sumZ (map hitCount (filter (λ n : TimeProfileNode, 0 < hitCount n) l)) =
  sumZ (map hitCount l).
Proof.
  induction l as [|n l IH]; intros Hl; [done|].
  rewrite filter_cons.
  assert (0 ≤ hitCount n) by (apply Hl; by left).
  assert (sumZ (map hitCount (filter (λ n : TimeProfileNode, 0 < hitCount n) l)) =
          sumZ (map hitCount l)) as IH'
    by (apply IH; intros; apply Hl; by right).
  case_decide; simpl; unfold sumZ in *; simpl; lia.
Qed.

End WallValues.

(** The profile of [negativeExample], by evaluation. *)
Lemma negativeExample_result :
  serializeTimeProfile negativeExample 1000 =
  Ok {| sampleType := [ {| vt_type := 1; vt_unit := 2 |};
                        {| vt_type := 3; vt_unit := 4 |} ];
        sample := [ {| locationId := [1]; value := [1; 1000] |} ];
        location := [ {| loc_id := 1; loc_line := [ {| ln_functionId := 1; ln_line := 20 |} ] |};
                      {| loc_id := 2; loc_line := [ {| ln_functionId := 2; ln_line := 10 |} ] |} ];
        function_ := [ {| fn_id := 1; fn_name := 5; fn_systemName := 5;
                          fn_filename := 6; fn_startLine := 0 |};
                       {| fn_id := 2; fn_name := 7; fn_systemName := 7;
                          fn_filename := 6; fn_startLine := 0 |} ];
        stringTable := [""; "samples"; "count"; "time"; "microseconds";
                        "even"; "a.js"; "odd"];
        timeNanos := 0; durationNanos := 0;
        periodType := {| vt_type := 3; vt_unit := 4 |};
        period := 1000 |}.
Proof. vm_compute. reflexivity. Qed.

(** The profile of [siblingsExample], by evaluation. *)
Lemma siblingsExample_result :
  serializeTimeProfile siblingsExample 1000 =
  Ok {| sampleType := [ {| vt_type := 1; vt_unit := 2 |};
                        {| vt_type := 3; vt_unit := 4 |} ];
        sample := [ {| locationId := [1]; value := [2; 2000] |};
                    {| locationId := [2]; value := [1; 1000] |} ];
        location := [ {| loc_id := 1; loc_line := [ {| ln_functionId := 1; ln_line := 20 |} ] |};
                      {| loc_id := 2; loc_line := [ {| ln_functionId := 2; ln_line := 10 |} ] |} ];
        function_ := [ {| fn_id := 1; fn_name := 5; fn_systemName := 5;
                          fn_filename := 6; fn_startLine := 0 |};
                       {| fn_id := 2; fn_name := 7; fn_systemName := 7;
                          fn_filename := 6; fn_startLine := 0 |} ];
        stringTable := [""; "samples"; "count"; "time"; "microseconds";
                        "second"; "a.js"; "first"];
        timeNanos := 0; durationNanos := 0;
        periodType := {| vt_type := 3; vt_unit := 4 |};
        period := 1000 |}.
Proof. vm_compute. reflexivity. Qed.

(** ** Interning twice *)

Section Idempotence.
Context {P : Type}.
Implicit Types (n : ProfileNode P) (b : Builder).

Lemma getIndexOrAdd_twice str t :
  getIndexOrAdd str (getIndexOrAdd str t).2 = getIndexOrAdd str t.
Proof.
  unfold getIndexOrAdd at 2 3.
  destruct (stringsMap t !! str) as [loc|] eqn:Hlk; simpl.
  - unfold getIndexOrAdd. by rewrite Hlk.
  - unfold getIndexOrAdd. simpl. by rewrite lookup_insert_eq.
Qed.

Lemma getFunction_unchanged n b :
  locations (getFunction n b).2 = locations b ∧
  locationIdMap (getFunction n b).2 = locationIdMap b.
Proof.
  unfold getFunction. destruct (functionIdMap b !! functionKey n); [done|].
  destruct (getIndexOrAdd (name n) (table b)) as [nameId t1].
  by destruct (getIndexOrAdd (scriptName n) t1) as [fileId t2].
Qed.

Lemma getFunction_twice n b :
  getFunction n (getFunction n b).2 = getFunction n b.
Proof.
  unfold getFunction at 2 3.
  destruct (functionIdMap b !! functionKey n) as [id|] eqn:Hlk; simpl.
  - unfold getFunction. by rewrite Hlk.
  - destruct (getIndexOrAdd (name n) (table b)) as [nameId t1].
    destruct (getIndexOrAdd (scriptName n) t1) as [fileId t2].
    unfold getFunction. simpl. rewrite lookup_insert_eq.
    by rewrite arrayGet_last.
Qed.

Lemma getLocation_twice n b r b1 :
  getLocation n b = Ok (r, b1) → getLocation n b1 = Ok (r, b1).
Proof.
  unfold getLocation at 1.
  destruct (locationIdMap b !! locationKey n) as [id|] eqn:Hlk.
  - intros [= <- <-]. unfold getLocation. by rewrite Hlk.
  - unfold getLine.
    match goal with |- context [getFunction n ?b0] =>
      pose proof (getFunction_unchanged n b0) as (Hlocs & Hlmap);
      destruct (getFunction n b0) as [[f|] b2]
    end; simpl in *; [|done].
    intros [= <- <-]. unfold getLocation. simpl.
    rewrite Hlmap, lookup_insert_eq, Hlocs. by rewrite arrayGet_last.
Qed.

(** On a miss [getFunction] fills every field but [startLine]. *)
Lemma getFunction_miss n b :
  functionIdMap b !! functionKey n = None →
  ∃ f b', getFunction n b = (Some f, b') ∧
    functions b' = functions b ++ [f] ∧
    fn_id f = Z.of_nat (length (functions b)) + 1 ∧
    fn_name f = (getIndexOrAdd (name n) (table b)).1 ∧
    fn_systemName f = fn_name f ∧
    fn_filename f =
      (getIndexOrAdd (scriptName n) (getIndexOrAdd (name n) (table b)).2).1 ∧
    fn_startLine f = 0.
Proof.
  intros Hlk. unfold getFunction. rewrite Hlk.
  destruct (getIndexOrAdd (name n) (table b)) as [nameId t1]. simpl.
  destruct (getIndexOrAdd (scriptName n) t1) as [fileId t2]. simpl.
  by eexists _, _.
Qed.

End Idempotence.

(** ** Every node is interned *)

Section AllInterned.
Context {P : Type}.
Implicit Types (b : Builder) (cs : list (ProfileNode P)) (acc : list Sample).
Variable emit : ProfileNode P → Stack → list Sample.

Lemma map_fst_key (key : ProfileNode P → string)
    (vs : list (ProfileNode P * list (ProfileNode P))) :
  map (λ v, key v.1) vs = map key vs.*1.
Proof. induction vs as [|v vs IH]; [done|]. cbn. by rewrite <-IH. Qed.

Lemma Inv_all_located acc b anc cs n :
  Inv emit acc b (visitForest anc cs) → n ∈ forestNodes cs →
  located (locations b) (functions b) (strings (table b))
    (idOf (locationIdMap b) n) n.
Proof.
  intros HInv Hn. rewrite <-(visits_nodes anc cs) in Hn.
  apply list_elem_of_fmap in Hn as (v & -> & Hv).
  eapply Inv_located; [done..|]. by left.
Qed.

Lemma Inv_location_count acc b anc cs :
  Inv emit acc b (visitForest anc cs) →
  length (locations b) =
  size (list_to_set (map locationKey (forestNodes cs)) : gset string).
Proof.
  intros HInv. rewrite (linv_length _ _ _ _ _ (inv_L _ _ _ _ HInv)).
  rewrite length_addKeys_nil. f_equal. apply list_to_set_perm_L.
  rewrite <-(visits_nodes anc cs). by rewrite map_fst_key.
Qed.

Lemma Inv_function_count acc b anc cs :
  Inv emit acc b (visitForest anc cs) →
  length (functions b) =
  size (list_to_set (map functionKey (forestNodes cs)) : gset string).
Proof.
  intros HInv. rewrite (finv_length _ _ _ _ (inv_F _ _ _ _ HInv)).
  rewrite length_addKeys_nil. f_equal. apply list_to_set_perm_L.
  rewrite <-(visits_nodes anc cs). by rewrite map_fst_key.
Qed.

End AllInterned.

(** ** The native interner *)

Section Native.
Implicit Types (p : Cpp.Profile) (node : Cpp.Node).

Lemma cpp_stringID_twice s p :
  Cpp.stringID s (Cpp.stringID s p).2 = Cpp.stringID s p.
Proof.
  unfold Cpp.stringID at 2 3.
  destruct (Cpp.stringIDMap p !! s) as [id|] eqn:Hlk; simpl.
  - unfold Cpp.stringID. by rewrite Hlk.
  - unfold Cpp.stringID. simpl. by rewrite lookup_insert_eq.
Qed.

Lemma cpp_stringID_other s p :
  Cpp.function (Cpp.stringID s p).2 = Cpp.function p ∧
  Cpp.functionIDMap (Cpp.stringID s p).2 = Cpp.functionIDMap p ∧
  Cpp.location (Cpp.stringID s p).2 = Cpp.location p ∧
  Cpp.locationIDMap (Cpp.stringID s p).2 = Cpp.locationIDMap p.
Proof. unfold Cpp.stringID. by destruct (Cpp.stringIDMap p !! s). Qed.

Lemma cpp_functionID_other node p :
  Cpp.location (Cpp.functionID node p).2 = Cpp.location p ∧
  Cpp.locationIDMap (Cpp.functionID node p).2 = Cpp.locationIDMap p.
Proof.
  unfold Cpp.functionID.
  destruct (Cpp.functionIDMap p !! _); [done|].
  pose proof (cpp_stringID_other (Cpp.name node) p) as (_ & _ & H1 & H2).
  destruct (Cpp.stringID (Cpp.name node) p) as [nameX p1]. simpl in *.
  pose proof (cpp_stringID_other (Cpp.filename node) p1) as (_ & _ & H3 & H4).
  destruct (Cpp.stringID (Cpp.filename node) p1) as [filenameX p2]. simpl in *.
  split; congruence.
Qed.

Lemma cpp_functionID_twice node p :
  Cpp.functionID node (Cpp.functionID node p).2 = Cpp.functionID node p.
Proof.
  unfold Cpp.functionID at 2 3.
  destruct (Cpp.functionIDMap p !! _) as [id|] eqn:Hlk; simpl.
  - unfold Cpp.functionID. by rewrite Hlk.
  - destruct (Cpp.stringID (Cpp.name node) p) as [nameX p1].
    destruct (Cpp.stringID (Cpp.filename node) p1) as [filenameX p2].
    unfold Cpp.functionID. simpl. by rewrite lookup_insert_eq.
Qed.

Lemma cpp_locationID_twice node p :
  Cpp.locationID node (Cpp.locationID node p).2 = Cpp.locationID node p.
Proof.
  unfold Cpp.locationID at 2 3.
  destruct (Cpp.locationIDMap p !! _) as [id|] eqn:Hlk; simpl.
  - unfold Cpp.locationID. by rewrite Hlk.
  - unfold Cpp.lineOf.
    destruct (Cpp.functionID node p) as [fid p1].
    unfold Cpp.locationID. simpl. by rewrite lookup_insert_eq.
Qed.

(** On a miss the native [functionID] fills all five fields. *)
Lemma cpp_functionID_miss node p :
  Cpp.functionIDMap p !! (Cpp.getFileID node, Cpp.name node) = None →
  ∃ f, Cpp.function (Cpp.functionID node p).2 =
         Cpp.function p ++ [f] ∧
    Cpp.fnID f = (Cpp.functionID node p).1 ∧
    Cpp.nameX f = (Cpp.stringID (Cpp.name node) p).1 ∧
    Cpp.systemNameX f = Cpp.nameX f ∧
    Cpp.filenameX f =
      (Cpp.stringID (Cpp.filename node) (Cpp.stringID (Cpp.name node) p).2).1 ∧
    Cpp.startLine f = Cpp.lineNumber node.
Proof.
  intros Hlk. unfold Cpp.functionID. rewrite Hlk.
  pose proof (cpp_stringID_other (Cpp.name node) p) as (H1 & _).
  destruct (Cpp.stringID (Cpp.name node) p) as [nameX p1]. simpl in *.
  pose proof (cpp_stringID_other (Cpp.filename node) p1) as (H2 & _).
  destruct (Cpp.stringID (Cpp.filename node) p1) as [filenameX p2]. simpl in *.
  eexists. rewrite H2, H1. by split_and!.
Qed.

Lemma cpp_newProfile_strings pt pu per tn dn df kf :
  Cpp.strings (Cpp.newProfile pt pu per tn dn df kf) !! 0%nat = Some "".
Proof.
  unfold Cpp.newProfile.
  assert (∀ s p, Cpp.strings p !! 0%nat = Some "" →
                 Cpp.strings (Cpp.stringID s p).2 !! 0%nat = Some "") as Hkeep.
  { intros s p Hp. unfold Cpp.stringID.
    destruct (Cpp.stringIDMap p !! s); simpl; [done|].
    by apply lookup_app_l_Some. }
  destruct (Cpp.stringID "" _) as [i0 p1] eqn:E1.
  assert (Cpp.strings p1 !! 0%nat = Some "") as H1.
  { unfold Cpp.stringID in E1. simpl in E1. rewrite lookup_empty in E1.
    by simplify_eq. }
  pose proof (Hkeep pt _ H1) as H2.
  destruct (Cpp.stringID pt p1) as [typeX p2]. simpl in H2.
  pose proof (Hkeep pu _ H2) as H3.
  destruct (Cpp.stringID pu p2) as [unitX p3]. simpl in H3.
  pose proof (Hkeep df _ H3) as H4.
  destruct (Cpp.stringID df p3) as [dropX p4]. simpl in H4.
  pose proof (Hkeep kf _ H4) as H5.
  destruct (Cpp.stringID kf p4) as [keepX p5]. simpl in H5.
  done.
Qed.

Lemma cpp_stringID_wf s p :
  CppWF p →
  CppWF (Cpp.stringID s p).2 ∧
  0 ≤ (Cpp.stringID s p).1 < Z.of_nat (length (Cpp.strings (Cpp.stringID s p).2)) ∧
  (length (Cpp.strings p) ≤ length (Cpp.strings (Cpp.stringID s p).2))%nat.
Proof.
  intros [Hs Hf Hl Hfs Hls]. unfold Cpp.stringID.
  destruct (Cpp.stringIDMap p !! s) as [id|] eqn:Hlk; simpl.
  - split_and!; [by split|by eapply Hs|by eapply Hs|done].
  - rewrite length_app. simpl. split_and!; try lia.
    split; simpl; try done.
    + intros s' i. rewrite length_app. simpl.
      destruct (decide (s = s')) as [<-|Hne].
      * rewrite lookup_insert_eq. intros [= <-]. lia.
      * rewrite lookup_insert_ne by done. intros Hi. apply Hs in Hi. lia.
    + intros i f Hi. rewrite length_app. simpl.
      destruct (Hfs i f Hi) as (? & ? & ? & ?). split_and!; try done; lia.
Qed.

Lemma cpp_functionID_wf node p :
  CppWF p →
  CppWF (Cpp.functionID node p).2 ∧
  1 ≤ (Cpp.functionID node p).1 ≤
    Z.of_nat (length (Cpp.function (Cpp.functionID node p).2)) ∧
  (length (Cpp.function p) ≤ length (Cpp.function (Cpp.functionID node p).2))%nat.
Proof.
  intros Hp. unfold Cpp.functionID.
  destruct (Cpp.functionIDMap p !! _) as [id|] eqn:Hlk; simpl.
  - split_and!; [done|by eapply (cpp_fmap p Hp)..|done].
  - destruct (cpp_stringID_wf (Cpp.name node) p Hp) as (Hp1 & Hn & _).
    pose proof (cpp_stringID_other (Cpp.name node) p) as (Hf1 & _).
    destruct (Cpp.stringID (Cpp.name node) p) as [nameX p1]. simpl in *.
    destruct (cpp_stringID_wf (Cpp.filename node) p1 Hp1) as (Hp2 & Hfn & Hlen).
    pose proof (cpp_stringID_other (Cpp.filename node) p1) as (Hf2 & _).
    destruct (Cpp.stringID (Cpp.filename node) p1) as [filenameX p2]. simpl in *.
    assert (length (Cpp.function p2) = length (Cpp.function p)) as Hfl by congruence.
    rewrite length_app. simpl. split_and!; try lia.
    destruct Hp2 as [Hs Hf Hl Hfs Hls].
    split; simpl; try done.
    + intros k id. rewrite length_app. simpl.
      destruct (decide ((Cpp.getFileID node, Cpp.name node) = k)) as [<-|Hne].
      * rewrite lookup_insert_eq. intros [= <-]. lia.
      * rewrite lookup_insert_ne by done. intros Hi. apply Hf in Hi. lia.
    + intros i f Hi.
      destruct (decide (i < length (Cpp.function p2))%nat) as [Hlt|Hge].
      * rewrite lookup_app_l in Hi by done. by apply Hfs.
      * rewrite lookup_app_r in Hi by lia.
        apply list_lookup_singleton_Some in Hi as [Hi <-]. simpl.
        split_and!; lia.
    + intros i l Hi. rewrite length_app. simpl.
      destruct (Hls i l Hi) as (? & Hln). split; [done|].
      intros ln Hin. specialize (Hln ln Hin). lia.
Qed.

Lemma cpp_locationID_wf node p :
  CppWF p →
  CppWF (Cpp.locationID node p).2 ∧
  1 ≤ (Cpp.locationID node p).1 ≤
    Z.of_nat (length (Cpp.location (Cpp.locationID node p).2)).
Proof.
  intros Hp. unfold Cpp.locationID.
  destruct (Cpp.locationIDMap p !! _) as [id|] eqn:Hlk; simpl.
  - split_and!; [done|by eapply (cpp_lmap p Hp)..].
  - unfold Cpp.lineOf.
    destruct (cpp_functionID_wf node p Hp) as (Hp1 & Hfid & _).
    pose proof (cpp_functionID_other node p) as (Hl1 & _).
    destruct (Cpp.functionID node p) as [fid p1]. simpl in *.
    assert (length (Cpp.location p1) = length (Cpp.location p)) as Hll by congruence.
    rewrite length_app. simpl. split_and!; try lia.
    destruct Hp1 as [Hs Hf Hl Hfs Hls].
    split; simpl; try done.
    + intros k id. rewrite length_app. simpl.
      destruct (decide ((Cpp.getFileID node, Cpp.lineNumber node,
                         Cpp.columnNumber node, Cpp.name node) = k)) as [<-|Hne].
      * rewrite lookup_insert_eq. intros [= <-]. lia.
      * rewrite lookup_insert_ne by done. intros Hi. apply Hl in Hi. lia.
    + intros i l Hi.
      destruct (decide (i < length (Cpp.location p1))%nat) as [Hlt|Hge].
      * rewrite lookup_app_l in Hi by done. by apply Hls.
      * rewrite lookup_app_r in Hi by lia.
        apply list_lookup_singleton_Some in Hi as [Hi <-]. simpl.
        split; [lia|]. by intros ln ->%list_elem_of_singleton.
Qed.

Lemma cpp_newProfile_wf pt pu per tn dn df kf :
  CppWF (Cpp.newProfile pt pu per tn dn df kf).
Proof.
  unfold Cpp.newProfile.
  match goal with |- context [Cpp.stringID "" ?p0] =>
    assert (CppWF p0) as H0
  end.
  { split; simpl; intros ? ?; rewrite ?lookup_empty; try done;
      by intros ?%lookup_nil_Some. }
  apply (cpp_stringID_wf "") in H0 as (H1 & _).
  destruct (Cpp.stringID "" _) as [i0 p1]. simpl in H1.
  apply (cpp_stringID_wf pt) in H1 as (H2 & _).
  destruct (Cpp.stringID pt p1) as [typeX p2]. simpl in H2.
  apply (cpp_stringID_wf pu) in H2 as (H3 & _).
  destruct (Cpp.stringID pu p2) as [unitX p3]. simpl in H3.
  apply (cpp_stringID_wf df) in H3 as (H4 & _).
  destruct (Cpp.stringID df p3) as [dropX p4]. simpl in H4.
  apply (cpp_stringID_wf kf) in H4 as (H5 & _).
  destruct (Cpp.stringID kf p4) as [keepX p5]. simpl in H5.
  destruct H5. by split.
Qed.

Lemma cppCalls_wf calls p : CppWF p → CppWF (cppCalls calls p).
Proof.
  revert p. induction calls as [|c calls IH]; intros p Hp; [done|].
  simpl. apply IH. destruct c as [s|node|node]; simpl.
  - by apply cpp_stringID_wf.
  - by apply cpp_functionID_wf.
  - by apply cpp_locationID_wf.
Qed.

End Native.

(** ** Scenarios of the specification, by evaluation *)

(** Two children with the same key: one location, one function, and two
    samples that share the location. *)
Example scenario_interning_across_siblings :
  ∃ p, serializeTimeProfile
         {| endTime := 0; startTime := 0;
            topDownRoot := mkNode "(root)" "" 0 0 0 0
               [ leaf "g" "a.js" 1 5 0 2; leaf "g" "a.js" 1 5 0 7 ] |} 1000 = Ok p ∧
       length (location p) = 1%nat ∧ length (function_ p) = 1%nat ∧
       sample p = [ {| locationId := [1]; value := [7; 7000] |};
                    {| locationId := [1]; value := [2; 2000] |} ].
Proof. eexists. split; [vm_compute; reflexivity|]. by vm_compute. Qed.

(** One HEAP node with two allocation records: two samples. *)
Example scenario_heap_allocations :
  ∃ p, serializeHeapProfile
         (mkNode "(root)" "" 0 0 0 []
            [ leaf "alloc" "a.js" 1 3 9
                [ {| count := 2; sizeBytes := 8 |}; {| count := 1; sizeBytes := 16 |} ] ])
         0 10000000000 524288 = Ok p ∧
       sample p = [ {| locationId := [1]; value := [2; 16] |};
                    {| locationId := [1]; value := [1; 16] |} ] ∧
       stringTable p = [""; "samples"; "count"; "space"; "bytes"; "alloc"; "a.js"].
Proof. eexists. split; [vm_compute; reflexivity|]. by vm_compute. Qed.

(** ** Sharing of locations and functions *)

Section Sharing.
Context {P : Type}.
Implicit Types (b : Builder) (cs : list (ProfileNode P)) (acc : list Sample).
Variable emit : ProfileNode P → Stack → list Sample.

Lemma Indexed_inj off m ks k1 k2 id :
  Indexed off m ks → m !! k1 = Some id → m !! k2 = Some id → k1 = k2.
Proof.
  intros HI H1 H2. apply HI in H1 as [_ H1]. apply HI in H2 as [_ H2].
  congruence.
Qed.

Lemma Inv_node_id acc b anc cs n :
  Inv emit acc b (visitForest anc cs) → n ∈ forestNodes cs →
  locationIdMap b !! locationKey n = Some (idOf (locationIdMap b) n).
Proof.
  intros HInv Hn. rewrite <-(visits_nodes anc cs) in Hn.
  apply list_elem_of_fmap in Hn as (v & -> & Hv).
  eapply Inv_id_range; [done..|]. by left.
Qed.

Lemma Inv_location_shared acc b anc cs n1 n2 :
  Inv emit acc b (visitForest anc cs) →
  n1 ∈ forestNodes cs → n2 ∈ forestNodes cs →
  idOf (locationIdMap b) n1 = idOf (locationIdMap b) n2 ↔
  locationKey n1 = locationKey n2.
Proof.
  intros HInv H1 H2.
  pose proof (Inv_node_id _ _ _ _ _ HInv H1) as Hl1.
  pose proof (Inv_node_id _ _ _ _ _ HInv H2) as Hl2.
  split.
  - intros Heq. rewrite Heq in Hl1.
    eapply Indexed_inj; [apply (linv_keys _ _ _ _ _ (inv_L _ _ _ _ HInv))|done..].
  - intros Heq. unfold idOf. by rewrite Heq.
Qed.

Lemma Inv_node_line acc b anc cs n :
  Inv emit acc b (visitForest anc cs) → n ∈ forestNodes cs →
  ∃ loc f,
    arrayGet (locations b) (idOf (locationIdMap b) n - 1) = Some loc ∧
    loc_line loc = [ {| ln_functionId := fidOf (functionIdMap b) n;
                        ln_line := lineNumber n |} ] ∧
    functionIdMap b !! functionKey n = Some (fidOf (functionIdMap b) n) ∧
    arrayGet (functions b) (fidOf (functionIdMap b) n - 1) = Some f ∧
    fn_id f = fidOf (functionIdMap b) n ∧
    arrayGet (strings (table b)) (fn_name f) = Some (name n).
Proof.
  intros HInv Hn.
  pose proof (Inv_node_id _ _ _ _ _ HInv Hn) as Hl.
  pose proof (inv_L _ _ _ _ HInv) as HL. pose proof (inv_F _ _ _ _ HInv) as HF.
  destruct (linv_node _ _ _ _ _ HL n _ Hl) as (loc & fid & Hloc & Hline & Hf).
  pose proof (Indexed_range _ _ _ _ _ (linv_keys _ _ _ _ _ HL) Hl) as Hr.
  pose proof (Indexed_range _ _ _ _ _ (finv_keys _ _ _ _ HF) Hf) as Hrf.
  destruct (finv_node _ _ _ _ HF n _ Hf) as (f & Hfun & Hname).
  destruct (finv_funs _ _ _ _ HF _ _ Hfun) as (Hid & _ & Hnm & _).
  assert (fidOf (functionIdMap b) n = fid) as Hfid by (unfold fidOf; by rewrite Hf).
  exists loc, f. rewrite Hfid.
  split_and!; try done.
  - apply arrayGet_Some. split; [lia|done].
  - apply arrayGet_Some. split; [lia|done].
  - rewrite Hid. apply lookup_lt_Some in Hfun. lia.
  - apply arrayGet_Some. split; [lia|done].
Qed.

Lemma Inv_function_shared acc b anc cs n1 n2 :
  Inv emit acc b (visitForest anc cs) →
  n1 ∈ forestNodes cs → n2 ∈ forestNodes cs →
  fidOf (functionIdMap b) n1 = fidOf (functionIdMap b) n2 ↔
  functionKey n1 = functionKey n2.
Proof.
  intros HInv H1 H2.
  destruct (Inv_node_line _ _ _ _ _ HInv H1) as (_ & _ & _ & _ & Hf1 & _).
  destruct (Inv_node_line _ _ _ _ _ HInv H2) as (_ & _ & _ & _ & Hf2 & _).
  split.
  - intros Heq. rewrite Heq in Hf1.
    eapply Indexed_inj; [apply (finv_keys _ _ _ _ (inv_F _ _ _ _ HInv))|done..].
  - intros Heq. unfold fidOf. by rewrite Heq.
Qed.

End Sharing.

(** ** The two serializers, as a run of [build] *)

Section Unfolded.

Lemma serializeTimeProfile_build prof intervalMicros :
  ∃ t, StrWF t ∧
    strings t = [""; "samples"; "count"; "time"; "microseconds"] ∧
    serializeTimeProfile prof intervalMicros =
    (st ← build (topDownRoot prof) (appendTimeEntryToSamples intervalMicros) t;
     Ok {| sampleType := [ {| vt_type := 1; vt_unit := 2 |};
                           {| vt_type := 3; vt_unit := 4 |} ];
           sample := map (readSample (store st)) (samples st);
           location := locations (builder st);
           function_ := functions (builder st);
           stringTable := strings (table (builder st));
           timeNanos := startTime prof * 1000 * 1000;
           durationNanos := (endTime prof - startTime prof) * 1000 * 1000;
           periodType := {| vt_type := 3; vt_unit := 4 |};
           period := intervalMicros |}).
Proof.
  unfold serializeTimeProfile.
  destruct (createSampleValueType newStringTable) as [svt t1] eqn:E1.
  destruct (createTimeValueType t1) as [tvt t2] eqn:E2.
  destruct (createSampleValueType_spec _ _ _ StrWF_new E1) as (Ht1 & _).
  destruct (createTimeValueType_spec _ _ _ Ht1 E2) as (Ht2 & _).
  assert (svt = {| vt_type := 1; vt_unit := 2 |}) as ->.
  { apply (f_equal fst) in E1. by vm_compute in E1. }
  assert (t1 = (createSampleValueType newStringTable).2) as Ht1eq by (by rewrite E1).
  assert (tvt = {| vt_type := 3; vt_unit := 4 |}) as ->.
  { apply (f_equal fst) in E2. rewrite Ht1eq in E2. by vm_compute in E2. }
  assert (strings t2 = [""; "samples"; "count"; "time"; "microseconds"]) as Hstr.
  { apply (f_equal (λ x, strings x.2)) in E2. rewrite Ht1eq in E2.
    by vm_compute in E2. }
  by exists t2.
Qed.

Lemma serializeHeapProfile_build prof startTimeNanos durationNanos_ intervalBytes :
  ∃ t, StrWF t ∧
    strings t = [""; "samples"; "count"; "space"; "bytes"] ∧
    serializeHeapProfile prof startTimeNanos durationNanos_ intervalBytes =
    (st ← build prof appendHeapEntryToSamples t;
     Ok {| sampleType := [ {| vt_type := 1; vt_unit := 2 |};
                           {| vt_type := 3; vt_unit := 4 |} ];
           sample := map (readSample (store st)) (samples st);
           location := locations (builder st);
           function_ := functions (builder st);
           stringTable := strings (table (builder st));
           timeNanos := startTimeNanos;
           durationNanos := durationNanos_;
           periodType := {| vt_type := 3; vt_unit := 4 |};
           period := intervalBytes |}).
Proof.
  unfold serializeHeapProfile.
  destruct (createSampleValueType newStringTable) as [svt t1] eqn:E1.
  destruct (createAllocationValueType t1) as [avt t2] eqn:E2.
  destruct (createSampleValueType_spec _ _ _ StrWF_new E1) as (Ht1 & _).
  destruct (createAllocationValueType_spec _ _ _ Ht1 E2) as (Ht2 & _).
  assert (svt = {| vt_type := 1; vt_unit := 2 |}) as ->.
  { apply (f_equal fst) in E1. by vm_compute in E1. }
  assert (t1 = (createSampleValueType newStringTable).2) as Ht1eq by (by rewrite E1).
  assert (avt = {| vt_type := 3; vt_unit := 4 |}) as ->.
  { apply (f_equal fst) in E2. rewrite Ht1eq in E2. by vm_compute in E2. }
  assert (strings t2 = [""; "samples"; "count"; "space"; "bytes"]) as Hstr.
  { apply (f_equal (λ x, strings x.2)) in E2. rewrite Ht1eq in E2.
    by vm_compute in E2. }
  by exists t2.
Qed.

(** Without children of the root the loop takes no turn. *)
Lemma build_no_children {P : Type} (root : ProfileNode P)
    (appendToSamples : AppendEntryToSamples P) t :
  children root = [] →
  build root appendToSamples t =
  Ok {| entries := []; samples := []; store := []; builder := newBuilder t |}.
Proof.
  intros Hcs. unfold build. rewrite Hcs. done.
Qed.

End Unfolded.


(** ** The order in which the tables are filled *)

Section AllocationOrder.
Context {P : Type}.
Implicit Types (n : ProfileNode P) (b : Builder) (acc : list Sample).
Implicit Types (anc ns : list (ProfileNode P)).
Implicit Types (vs : list (ProfileNode P * list (ProfileNode P))).
Variable emit : ProfileNode P → Stack → list Sample.
Variable hdr : list string.

Lemma firstOfFunction_snoc seen ns n :
  firstOfFunction seen (ns ++ [n]) =
  firstOfFunction seen ns ++
  (if decide (functionKey n ∈ seen ++ map functionKey ns) then [] else [n]).
Proof.
  revert seen. induction ns as [|a ns IH]; intros seen; simpl.
  - rewrite app_nil_r. by destruct (decide (functionKey n ∈ seen)).
  - destruct (decide (functionKey a ∈ seen)) as [Hin|Hout].
    + rewrite IH. f_equal. apply decide_ext.
      rewrite !elem_of_app, elem_of_cons. split; [tauto|].
      intros [?|[->|?]]; auto.
    + simpl. rewrite IH. do 2 f_equal. apply decide_ext.
      rewrite !elem_of_app, !elem_of_cons. tauto.
Qed.

(** Under the invariant of the string table, [getIndexOrAdd] is [addKey]. *)
Lemma getIndexOrAdd_addKey s t :
  StrWF t → strings (getIndexOrAdd s t).2 = addKey (strings t) s.
Proof.
  intros Ht. unfold getIndexOrAdd.
  destruct (stringsMap t !! s) as [i|] eqn:E; simpl.
  - symmetry. by eapply addKey_hit.
  - symmetry. by eapply addKey_miss.
Qed.

(** The string table after the visits [vs]: the strings it started with,
    then the name and the script name of each node that is the first of its
    function key, in the order of the visits. *)
Local Abbreviation Str b vs :=
  (strings (table b) =
   addKeys hdr (flat_map functionStrings (firstOfFunction [] vs.*1))).

Lemma getLocation_strings n anc b vs acc l b1 :
  Inv emit acc b vs → Str b vs →
  getLocation n b = Ok (Some l, b1) →
  Str b1 (vs ++ [(n, anc)]).
Proof.
  intros HInv HS.
  pose proof (inv_F _ _ _ _ HInv) as HF. pose proof (inv_L _ _ _ _ HInv) as HL.
  assert (functionKey n ∈ [] ++ map functionKey vs.*1 ↔
          is_Some (functionIdMap b !! functionKey n)) as Hdom.
  { rewrite <-(Indexed_elem_of _ _ _ _ (finv_keys _ _ _ _ HF)).
    rewrite elem_of_addKeys, map_fst_key. simpl.
    split; [by right|]. by intros [?%elem_of_nil|?]. }
  rewrite fmap_app. change ([(n, anc)].*1) with [n].
  rewrite firstOfFunction_snoc.
  unfold getLocation.
  destruct (locationIdMap b !! locationKey n) as [id|] eqn:Hlk.
  - intros [= _ <-].
    destruct (linv_node _ _ _ _ _ HL n _ Hlk) as (loc & fid & _ & _ & Hfid).
    rewrite decide_True by (apply Hdom; by eexists).
    by rewrite app_nil_r.
  - unfold getLine, getFunction. simpl.
    destruct (functionIdMap b !! functionKey n) as [fid|] eqn:Hfk.
    + destruct (arrayGet (functions b) (fid - 1)); simpl; [|done].
      intros [= _ <-]. simpl.
      rewrite decide_True by (apply Hdom; by eexists).
      by rewrite app_nil_r.
    + pose proof (getIndexOrAdd_addKey (name n) (table b)
                    (finv_strings _ _ _ _ HF)) as H1.
      destruct (getIndexOrAdd_spec (name n) (table b) _ _
                  (finv_strings _ _ _ _ HF) (surjective_pairing _)) as (Ht1 & _).
      pose proof (getIndexOrAdd_addKey (scriptName n) _ Ht1) as H2.
      destruct (getIndexOrAdd (name n) (table b)) as [nameId t1].
      simpl in H1, H2.
      destruct (getIndexOrAdd (scriptName n) t1) as [fileId t2]. simpl in *.
      intros [= _ <-]. simpl.
      rewrite decide_False by (rewrite Hdom; by intros [??]).
      rewrite flat_map_app, addKeys_app. simpl.
      by rewrite H2, H1, HS.
Qed.

Local Abbreviation walk_in_order := (λ n : ProfileNode P,
  ∀ anc stk acc b vs,
    Inv emit acc b vs → Str b vs →
    stk = map (idOf (locationIdMap b)) anc →
    (∀ a, a ∈ anc → is_Some (locationIdMap b !! locationKey a)) →
    ∃ acc' b', walk emit n stk acc b = Ok (acc', b') ∧
      Inv emit acc' b' (vs ++ visitNode anc n) ∧ ext b b' ∧
      Str b' (vs ++ visitNode anc n)).

Lemma walkForest_order cs anc stk acc b vs :
  Forall walk_in_order cs →
  Inv emit acc b vs → Str b vs →
  stk = map (idOf (locationIdMap b)) anc →
  (∀ a, a ∈ anc → is_Some (locationIdMap b !! locationKey a)) →
  ∃ acc' b', walkForest emit stk cs acc b = Ok (acc', b') ∧
    Inv emit acc' b' (vs ++ visitForest anc cs) ∧ ext b b' ∧
    Str b' (vs ++ visitForest anc cs).
Proof.
  intros Hcs. revert acc b vs.
  induction Hcs as [|c cs Hc Hcs IH]; intros acc b vs HInv HS Hstk Hdom; simpl.
  - exists acc, b. rewrite app_nil_r. split_and!; [done..|apply ext_refl|done].
  - destruct (IH acc b vs HInv HS Hstk Hdom)
      as (acc1 & b1 & -> & HInv1 & Hext1 & HS1).
    simpl. pose proof (ext_lmap _ _ Hext1) as Hsub.
    destruct (Hc anc stk acc1 b1 (vs ++ visitForest anc cs))
      as (acc2 & b2 & Hw & HInv2 & Hext2 & HS2).
    + done.
    + done.
    + rewrite Hstk. symmetry. by apply map_idOf_mono.
    + intros a Ha. eapply is_Some_mono; [done|]. by apply Hdom.
    + exists acc2, b2. rewrite app_assoc. split_and!; [done..| |done].
      by eapply ext_trans.
Qed.

Lemma walk_order n : walk_in_order n.
Proof.
  induction n as [n IH] using ProfileNode_forest_ind.
  intros anc stk acc b vs HInv HS Hstk Hdom.
  rewrite walk_eq, visitNode_eq.
  destruct (visit_spec emit n anc stk acc b vs HInv Hstk Hdom)
    as (l & b1 & Hloc & HInv2 & Hext2 & Hstack & Hdom2).
  pose proof (getLocation_strings _ anc _ _ _ _ _ HInv HS Hloc) as HS2.
  rewrite Hloc. simpl.
  destruct (walkForest_order (children n) (n :: anc) (loc_id l :: stk) _ _ _
              IH HInv2 HS2 Hstack Hdom2) as (acc3 & b3 & Hw & HInv3 & Hext3 & HS3).
  exists acc3, b3. rewrite <-app_assoc in HInv3, HS3.
  split_and!; [done|done|by eapply ext_trans|done].
Qed.

(** [build] returns, with the invariant of the visits and with the string
    table in the order of the visits. *)
Lemma build_order (appendToSamples : AppendEntryToSamples P)
    (root : ProfileNode P) t :
  appendsOnEntry emit appendToSamples →
  StrWF t → strings t = hdr →
  ∃ st, build root appendToSamples t = Ok st ∧
    Inv emit (map (readSample (store st)) (samples st)) (builder st)
      (visitForest [] (children root)) ∧
    Str (builder st) (visitForest [] (children root)).
Proof.
  intros Happ Ht Hhdr.
  pose proof (build_walk appendToSamples emit Happ root t) as Hbuild.
  destruct (walkForest_order (children root) [] [] [] (newBuilder t) [])
    as (acc & b & Hw & HInv & Hext & HS).
  - apply Forall_forall. intros c _. apply walk_order.
  - by apply Inv_init.
  - simpl. by rewrite Hhdr.
  - done.
  - intros a Ha. by apply elem_of_nil in Ha.
  - rewrite Hw in Hbuild.
    destruct (build root appendToSamples t) as [st| |]; simpl in Hbuild; try done.
    injection Hbuild as <- <-.
    exists st. by split_and!.
Qed.

End AllocationOrder.

(** * The claims *)

(** C1. In every profile built by [serializeTimeProfile] or
    [serializeHeapProfile], function and location ids are the position in
    the table plus one (so never 0), every location id of a sample is in
    [1, number of locations], every function id of a line is in
    [1, number of functions], and every string index of the value types and
    of the functions is below the length of the string table. Both
    serializers return such a profile on every input. The tables of the
    native interner keep the same bounds after the constructor and any
    sequence of [stringID], [functionID] and [locationID] calls, and
    [locationID] returns an id in [1, number of locations]. *)
Theorem C1_ids_and_indices_in_range :
  (∀ prof intervalMicros,
     ∃ p, serializeTimeProfile prof intervalMicros = Ok p ∧ WellFormedProfile p) ∧
  (∀ prof startTimeNanos durationNanos_ intervalBytes,
     ∃ p, serializeHeapProfile prof startTimeNanos durationNanos_ intervalBytes = Ok p ∧
          WellFormedProfile p) ∧
  (∀ pt pu per tn dn df kf calls node,
     let p := cppCalls calls (Cpp.newProfile pt pu per tn dn df kf) in
     CppWF p ∧
     1 ≤ (Cpp.locationID node p).1 ≤
       Z.of_nat (length (Cpp.location (Cpp.locationID node p).2))).
Proof.
  split; [|split]; cycle 2.
  { intros pt pu per tn dn df kf calls node p.
    assert (CppWF p) as Hp by apply cppCalls_wf, cpp_newProfile_wf.
    split; [done|]. by apply cpp_locationID_wf. }
  - intros prof i.
    destruct (serializeTimeProfile_spec prof i) as (acc & b & -> & HInv & Hpre).
    eexists. split; [done|].
    eapply (Inv_wellformed (timeSamples i) acc b _
             {| sampleType := [ {| vt_type := 1; vt_unit := 2 |};
                                {| vt_type := 3; vt_unit := 4 |} ];
                sample := []; location := []; function_ := []; stringTable := [];
                timeNanos := startTime prof * 1000 * 1000;
                durationNanos := (endTime prof - startTime prof) * 1000 * 1000;
                periodType := {| vt_type := 3; vt_unit := 4 |};
                period := i |}
             {| strings := [""; "samples"; "count"; "time"; "microseconds"];
                stringsMap := ∅ |}); try done.
    + intros n stk s. apply timeSamples_stack.
    + simpl. intros vt Hvt. repeat (apply elem_of_cons in Hvt as [->|Hvt]; [simpl; lia|]).
      by apply elem_of_nil in Hvt.
  - intros prof st d ib.
    destruct (serializeHeapProfile_spec prof st d ib) as (acc & b & -> & HInv & Hpre).
    eexists. split; [done|].
    eapply (Inv_wellformed heapSamples acc b _
             {| sampleType := [ {| vt_type := 1; vt_unit := 2 |};
                                {| vt_type := 3; vt_unit := 4 |} ];
                sample := []; location := []; function_ := []; stringTable := [];
                timeNanos := st; durationNanos := d;
                periodType := {| vt_type := 3; vt_unit := 4 |};
                period := ib |}
             {| strings := [""; "samples"; "count"; "space"; "bytes"];
                stringsMap := ∅ |}); try done.
    + intros n stk s. apply heapSamples_stack.
    + simpl. intros vt Hvt. repeat (apply elem_of_cons in Hvt as [->|Hvt]; [simpl; lia|]).
      by apply elem_of_nil in Hvt.
Qed.

(** C2. In every sample, [locationId] lists the location of the node the
    sample was emitted at, then the locations of its ancestors from the
    parent upwards, and stops at a child of the root: the samples are those
    of the visits of the tree, each with the ids of the path [v.1 :: v.2],
    every such path is a chain of the tree that ends below the root, and
    each listed id is the id of the location of the corresponding node. *)
Theorem C2_sample_stacks_leaf_first :
  (∀ prof intervalMicros,
     let visits := visitForest [] (children (topDownRoot prof)) in
     ∃ p m, serializeTimeProfile prof intervalMicros = Ok p ∧
       sample p =
         flat_map (λ v, timeSamples intervalMicros v.1 (map (idOf m) (v.1 :: v.2)))
                  visits ∧
       ∀ v, v ∈ visits →
         chain (topDownRoot prof) v.1 v.2 ∧
         ∀ a, a ∈ v.1 :: v.2 →
           located (location p) (function_ p) (stringTable p) (idOf m a) a) ∧
  (∀ prof startTimeNanos durationNanos_ intervalBytes,
     let visits := visitForest [] (children prof) in
     ∃ p m, serializeHeapProfile prof startTimeNanos durationNanos_ intervalBytes = Ok p ∧
       sample p =
         flat_map (λ v, heapSamples v.1 (map (idOf m) (v.1 :: v.2))) visits ∧
       ∀ v, v ∈ visits →
         chain prof v.1 v.2 ∧
         ∀ a, a ∈ v.1 :: v.2 →
           located (location p) (function_ p) (stringTable p) (idOf m a) a).
Proof.
  split.
  - intros prof i visits.
    destruct (serializeTimeProfile_spec prof i) as (acc & b & -> & HInv & _).
    eexists _, (locationIdMap b). split; [done|]. simpl. split.
    + exact (inv_samples _ _ _ _ HInv).
    + intros v Hv. split; [by apply visits_chain|].
      intros a Ha. by eapply Inv_located.
  - intros prof st d ib visits.
    destruct (serializeHeapProfile_spec prof st d ib) as (acc & b & -> & HInv & _).
    eexists _, (locationIdMap b). split; [done|]. simpl. split.
    + exact (inv_samples _ _ _ _ HInv).
    + intros v Hv. split; [by apply visits_chain|].
      intros a Ha. by eapply Inv_located.
Qed.

(** C3, as stated, fails: for the tree [negativeExample], whose nodes have
    the hit counts -2 and 1, the first values of the samples add up to 1,
    and the hit counts of the nodes to -1. *)
Lemma C3_counterexample :
  ¬ (∀ prof intervalMicros p,
       serializeTimeProfile prof intervalMicros = Ok p →
       sumZ (map (λ s, default 0 (value s !! 0%nat)) (sample p)) =
       sumZ (map hitCount (forestNodes (children (topDownRoot prof))))).
Proof.
  intros H.
  specialize (H negativeExample 1000 _ negativeExample_result).
  vm_compute in H. discriminate H.
Qed.

(** C3, amended. [serializeTimeProfile] emits one sample for each node (the
    root apart) whose [hitCount] is positive and none for the others, with
    value [[hitCount, hitCount * intervalMicros]]; the first values of the
    samples add up to the sum of the positive [hitCount]s of these nodes,
    and so, when no [hitCount] is negative, to the sum of the [hitCount]s
    of all these nodes. *)
Theorem C3_wall_samples_and_value_law prof intervalMicros :
  let nodes := forestNodes (children (topDownRoot prof)) in
  ∃ p visited, serializeTimeProfile prof intervalMicros = Ok p ∧
    visited ≡ₚ nodes ∧
    map value (sample p) =
      map (λ n : TimeProfileNode, [hitCount n; hitCount n * intervalMicros])
          (filter (λ n : TimeProfileNode, 0 < hitCount n) visited) ∧
    sumZ (map (λ s, default 0 (value s !! 0%nat)) (sample p)) =
      sumZ (map hitCount (filter (λ n : TimeProfileNode, 0 < hitCount n) nodes)) ∧
    ((∀ n, n ∈ nodes → 0 ≤ hitCount n) →
     sumZ (map (λ s, default 0 (value s !! 0%nat)) (sample p)) =
     sumZ (map hitCount nodes)).
Proof.
  intros nodes. subst nodes.
  destruct (serializeTimeProfile_spec prof intervalMicros) as (acc & b & -> & HInv & _).
  assert (acc =
          flat_map (λ v, timeSamples intervalMicros v.1
                           (map (idOf (locationIdMap b)) (v.1 :: v.2)))
                   (visitForest [] (children (topDownRoot prof)))) as Hs
    by exact (inv_samples _ _ _ _ HInv).
  pose proof (timeSamples_values intervalMicros (locationIdMap b)
                (visitForest [] (children (topDownRoot prof)))) as Hv.
  rewrite <-Hs in Hv.
  pose proof (visits_nodes [] (children (topDownRoot prof))) as Hperm.
  assert (sumZ (map (λ s, default 0 (value s !! 0%nat)) acc) =
          sumZ (map hitCount
                  (filter (λ n : TimeProfileNode, 0 < hitCount n)
                     (forestNodes (children (topDownRoot prof)))))) as Hsum.
  { transitivity (sumZ (map (λ l, default 0 (l !! 0%nat)) (map value acc))).
    { by rewrite map_map. }
    rewrite Hv, map_map. simpl.
    change (map (λ x : TimeProfileNode, hitCount x)) with (map hitCount).
    apply sumZ_perm, fmap_Permutation. by rewrite Hperm. }
  eexists _, _. split; [done|]. simpl.
  split_and!; [exact Hperm|exact Hv|exact Hsum|].
  intros Hpos. rewrite Hsum. by apply sumZ_filter_pos.
Qed.

Lemma C3_witness :
  (∀ n, n ∈ forestNodes (children (topDownRoot wallExample)) → 0 ≤ hitCount n) ∧
  ∃ p, serializeTimeProfile wallExample 1000 = Ok p ∧
       sumZ (map (λ s, default 0 (value s !! 0%nat)) (sample p)) = 8.
Proof.
  assert (∀ n, n ∈ forestNodes (children (topDownRoot wallExample)) →
               0 ≤ hitCount n) as Hpos.
  { intros n Hn. cbv in Hn. 
    repeat (apply elem_of_cons in Hn as [->|Hn]; [cbv; discriminate|]).
    by apply elem_of_nil in Hn. }
  split; [exact Hpos|].
  destruct (C3_wall_samples_and_value_law wallExample 1000)
    as (p & visited & Hp & _ & _ & _ & Hsum).
  exists p. split; [exact Hp|]. rewrite (Hsum Hpos). reflexivity.
Defined.

(** C4, at an input where it fails. For the tree [wallExample], whose
    [startTime] is 1 and [endTime] is 3, [serializeTimeProfile] sets
    [timeNanos] to 1000000 and [durationNanos] to 2000000: both fields are
    the sampler's numbers multiplied by [1000 * 1000], not the numbers
    themselves. *)
Theorem C4_times_multiplied_by_million :
  ∃ p, serializeTimeProfile wallExample 1000 = Ok p ∧
    timeNanos p = 1000000 ∧ durationNanos p = 2000000 ∧
    timeNanos p ≠ startTime wallExample ∧
    durationNanos p ≠ endTime wallExample - startTime wallExample.
Proof.
  destruct (serializeTimeProfile_spec wallExample 1000) as (acc & b & -> & _).
  eexists. split; [done|]. by compute.
Qed.

(** C5, as stated, fails: with two children of the root that both have
    hits, the sample of the child that comes first in [children] is not
    before the sample of the one that comes second. *)
Lemma C5_counterexample :
  ¬ (∀ prof intervalMicros p,
       serializeTimeProfile prof intervalMicros = Ok p →
       ∀ cs1 a cs2 c cs3,
         children (topDownRoot prof) = cs1 ++ a :: cs2 ++ c :: cs3 →
         0 < hitCount a → 0 < hitCount c →
         ∃ (i j : nat) la lc, (i < j)%nat ∧
           sample p !! i = Some {| locationId := la;
                                   value := [hitCount a; hitCount a * intervalMicros] |} ∧
           sample p !! j = Some {| locationId := lc;
                                   value := [hitCount c; hitCount c * intervalMicros] |}).
Proof.
  intros Hclaim.
  destruct (Hclaim siblingsExample 1000 _ siblingsExample_result []
              (leaf "first" "a.js" 1 10 0 1) []
              (leaf "second" "a.js" 1 20 0 2) [] eq_refl)
    as (i & j & la & lc & Hij & Hi & Hj); [reflexivity..|].
  cbn [sample] in Hi, Hj.
  destruct j as [|[|j]]; [lia| |discriminate Hj].
  destruct i as [|[|i]]; [|lia|lia].
  discriminate Hi.
Qed.

(** C5, amended. A node is visited before its children, and the children
    from the last to the first, each with its whole subtree; the samples of
    the profile follow this order of the visits, and the three tables are
    filled in this order: location ids are numbered in the order in which
    the visits first meet each location key, function ids in the order in
    which they first meet each function key (the line of a node's location
    names the function with the id of the node's function key), and the
    string table holds, after the strings of the value types, the name and
    the script name of each node that is the first of its function key, in
    the order of the visits and each string once. *)
Theorem C5_siblings_visited_last_to_first :
  (∀ (P : Type) (anc : list (ProfileNode P)) n,
     visitNode anc n = (n, anc) :: visitForest (n :: anc) (children n)) ∧
  (∀ (P : Type) (anc : list (ProfileNode P)) cs1 a cs2,
     visitForest anc (cs1 ++ a :: cs2) =
     visitForest anc cs2 ++ visitNode anc a ++ visitForest anc cs1) ∧
  (∀ prof intervalMicros,
     let visits := visitForest [] (children (topDownRoot prof)) in
     ∃ p m fm, serializeTimeProfile prof intervalMicros = Ok p ∧
       sample p =
         flat_map (λ v, timeSamples intervalMicros v.1 (map (idOf m) (v.1 :: v.2)))
                  visits ∧
       Indexed 1 m (addKeys [] (map (λ v, locationKey v.1) visits)) ∧
       Indexed 1 fm (addKeys [] (map (λ v, functionKey v.1) visits)) ∧
       stringTable p =
         addKeys [""; "samples"; "count"; "time"; "microseconds"]
           (flat_map functionStrings (firstOfFunction [] visits.*1)) ∧
       ∀ v, v ∈ visits →
         located (location p) (function_ p) (stringTable p) (idOf m v.1) v.1 ∧
         ∃ loc f,
           arrayGet (location p) (idOf m v.1 - 1) = Some loc ∧
           loc_line loc = [ {| ln_functionId := fidOf fm v.1;
                               ln_line := lineNumber v.1 |} ] ∧
           arrayGet (function_ p) (fidOf fm v.1 - 1) = Some f ∧
           fn_id f = fidOf fm v.1 ∧
           arrayGet (stringTable p) (fn_name f) = Some (name v.1)) ∧
  (∀ prof startTimeNanos durationNanos_ intervalBytes,
     let visits := visitForest [] (children prof) in
     ∃ p m fm,
       serializeHeapProfile prof startTimeNanos durationNanos_ intervalBytes = Ok p ∧
       sample p =
         flat_map (λ v, heapSamples v.1 (map (idOf m) (v.1 :: v.2)))
                  visits ∧
       Indexed 1 m (addKeys [] (map (λ v, locationKey v.1) visits)) ∧
       Indexed 1 fm (addKeys [] (map (λ v, functionKey v.1) visits)) ∧
       stringTable p =
         addKeys [""; "samples"; "count"; "space"; "bytes"]
           (flat_map functionStrings (firstOfFunction [] visits.*1)) ∧
       ∀ v, v ∈ visits →
         located (location p) (function_ p) (stringTable p) (idOf m v.1) v.1 ∧
         ∃ loc f,
           arrayGet (location p) (idOf m v.1 - 1) = Some loc ∧
           loc_line loc = [ {| ln_functionId := fidOf fm v.1;
                               ln_line := lineNumber v.1 |} ] ∧
           arrayGet (function_ p) (fidOf fm v.1 - 1) = Some f ∧
           fn_id f = fidOf fm v.1 ∧
           arrayGet (stringTable p) (fn_name f) = Some (name v.1)).
Proof.
  split_and!.
  - intros P anc n. apply visitNode_eq.
  - intros P anc cs1 a cs2. apply visitForest_siblings.
  - intros prof i visits.
    destruct (serializeTimeProfile_build prof i) as (t & Ht & Hstr & ->).
    destruct (build_order (timeSamples i) _ (appendTimeEntryToSamples i)
                (topDownRoot prof) t (appendTime_onEntry i) Ht Hstr)
      as (st & -> & HInv & HS).
    eexists _, (locationIdMap (builder st)), (functionIdMap (builder st)).
    split; [done|]. simpl. split_and!.
    + exact (inv_samples _ _ _ _ HInv).
    + apply (linv_keys _ _ _ _ _ (inv_L _ _ _ _ HInv)).
    + apply (finv_keys _ _ _ _ (inv_F _ _ _ _ HInv)).
    + exact HS.
    + intros v Hv. split; [eapply Inv_located; [done..|]; by left|].
      assert (v.1 ∈ forestNodes (children (topDownRoot prof))) as Hn.
      { rewrite <-(visits_nodes [] (children (topDownRoot prof))).
        apply list_elem_of_fmap. by exists v. }
      destruct (Inv_node_line _ _ _ _ _ _ HInv Hn)
        as (loc & f & H1 & H2 & _ & H3 & H4 & H5).
      by exists loc, f.
  - intros prof st0 d ib visits.
    destruct (serializeHeapProfile_build prof st0 d ib) as (t & Ht & Hstr & ->).
    destruct (build_order heapSamples _ appendHeapEntryToSamples
                prof t appendHeap_onEntry Ht Hstr)
      as (st & -> & HInv & HS).
    eexists _, (locationIdMap (builder st)), (functionIdMap (builder st)).
    split; [done|]. simpl. split_and!.
    + exact (inv_samples _ _ _ _ HInv).
    + apply (linv_keys _ _ _ _ _ (inv_L _ _ _ _ HInv)).
    + apply (finv_keys _ _ _ _ (inv_F _ _ _ _ HInv)).
    + exact HS.
    + intros v Hv. split; [eapply Inv_located; [done..|]; by left|].
      assert (v.1 ∈ forestNodes (children prof)) as Hn.
      { rewrite <-(visits_nodes [] (children prof)).
        apply list_elem_of_fmap. by exists v. }
      destruct (Inv_node_line _ _ _ _ _ _ HInv Hn)
        as (loc & f & H1 & H2 & _ & H3 & H4 & H5).
      by exists loc, f.
Qed.

(** C6, at an input where it fails. For a node [f] of [a.js] on line 10
    and fresh tables, [getFunction] misses and allocates a function whose
    name, system name and file name are the string-table indices of "f",
    "f" and "a.js", but whose [startLine] is 0 and not the line number 10
    of the node; the native [functionID] sets [startLine] to 10 for the
    same node. *)
Theorem C6_startLine_not_set :
  let n := leaf "f" "a.js" 1 10 0 (3 : Z) in
  ∃ f b', getFunction n (newBuilder newStringTable) = (Some f, b') ∧
    functions b' = [f] ∧ fn_id f = 1 ∧
    strings (table b') !! Z.to_nat (fn_name f) = Some "f" ∧
    fn_systemName f = fn_name f ∧
    strings (table b') !! Z.to_nat (fn_filename f) = Some "a.js" ∧
    fn_startLine f = 0 ∧ lineNumber n = 10 ∧
    ∃ f', Cpp.function
            (Cpp.functionID
               {| Cpp.name := "f"; Cpp.filename := "a.js"; Cpp.getFileID := 1;
                  Cpp.lineNumber := 10; Cpp.columnNumber := 0 |}
               (Cpp.newProfile "time" "microseconds" 1000 0 0 "" "")).2 = [f'] ∧
          Cpp.startLine f' = 10.
Proof.
  intros n. eexists _, _. split; [vm_compute; reflexivity|].
  split_and!; try (by vm_compute).
  eexists. split; [vm_compute; reflexivity|done].
Qed.

(** C7. Interning is idempotent. A second [getIndexOrAdd] of the same
    string, a second [getFunction] and a second [getLocation] of the same
    node return what the first call returned and leave the tables as the
    first call left them, so no table grows; and in every state that
    satisfies the invariants of the traversal, [getLocation] does return a
    location. The same holds for [stringID], [functionID] and [locationID]
    of the native interner. *)
Theorem C7_interning_idempotent :
  (∀ str t, getIndexOrAdd str (getIndexOrAdd str t).2 = getIndexOrAdd str t) ∧
  (∀ (P : Type) (n : ProfileNode P) b,
     getFunction n (getFunction n b).2 = getFunction n b) ∧
  (∀ (P : Type) (n : ProfileNode P) b r b1,
     getLocation n b = Ok (r, b1) → getLocation n b1 = Ok (r, b1)) ∧
  (∀ (P : Type) (n : ProfileNode P) b fks lks,
     FInv (P:=P) (functions b) (functionIdMap b) (table b) fks →
     LInv (P:=P) (locations b) (locationIdMap b) (functions b)
       (functionIdMap b) lks →
     ∃ l b1, getLocation n b = Ok (Some l, b1) ∧
             getLocation n b1 = Ok (Some l, b1) ∧
             locationIdMap b1 !! locationKey n = Some (loc_id l)) ∧
  (∀ s p, Cpp.stringID s (Cpp.stringID s p).2 = Cpp.stringID s p) ∧
  (∀ node p, Cpp.functionID node (Cpp.functionID node p).2 = Cpp.functionID node p) ∧
  (∀ node p, Cpp.locationID node (Cpp.locationID node p).2 = Cpp.locationID node p).
Proof.
  split_and!;
    [| | | |apply cpp_stringID_twice|apply cpp_functionID_twice
     |apply cpp_locationID_twice].
  - apply getIndexOrAdd_twice.
  - intros P n b. apply getFunction_twice.
  - intros P n b r b1 Hget. by eapply getLocation_twice.
  - intros P n b fks lks HF HL.
    destruct (getLocation_spec n b fks lks HF HL) as (l & b1 & Hget & _ & _ & Hid & _).
    exists l, b1. split_and!; [done| |done]. by eapply getLocation_twice.
Qed.

Lemma C7_witness :
  let n := leaf "f" "a.js" 1 10 0 (3 : Z) in
  let b := newBuilder newStringTable in
  FInv (P:=Z) (functions b) (functionIdMap b) (table b) [] ∧
  LInv (P:=Z) (locations b) (locationIdMap b) (functions b) (functionIdMap b) [] ∧
  ∃ l b1, getLocation n b = Ok (Some l, b1) ∧
    getLocation n b1 = Ok (Some l, b1) ∧
    locationIdMap b1 !! locationKey n = Some (loc_id l).
Proof.
  intros n b.
  pose proof (Inv_init (P:=Z) (λ _ _, []) newStringTable StrWF_new) as HInv.
  pose proof (inv_F _ _ _ _ HInv) as HF. pose proof (inv_L _ _ _ _ HInv) as HL.
  split; [exact HF|]. split; [exact HL|].
  destruct C7_interning_idempotent as (_ & _ & Htwice & Hreturns & _).
  destruct (Hreturns Z n b [] [] HF HL) as (l & b1 & Hget & _ & Hid).
  exists l, b1. split; [exact Hget|]. split; [|exact Hid].
  exact (Htwice Z n b (Some l) b1 Hget).
Defined.

(** C8. A poll that ends in a status outside 200..299 (4xx included) or in
    a transport error is logged, followed by a wait of [backoffMillis] and
    by a new poll; [createProfile] returns the body of the first answer with
    a status in 200..299, returns a body only in that way, and never
    throws. *)
Theorem C8_poll_retries_until_2xx config profileTypes :
  (∀ failures body response server',
     Forall Agent.failed failures →
     200 ≤ Agent.statusCode response < 300 →
     Agent.createProfile config profileTypes
       (failures ++ Agent.Resolved body response :: server') =
     (flat_map (Agent.retryEvents config profileTypes) failures ++
      [ Agent.EvRequest "POST" "/profiles"
          (Agent.projectId config, Agent.service config,
           (Agent.zone config, Agent.instance config)) profileTypes ],
      Agent.Returned body)) ∧
  (∀ server events body,
     Agent.createProfile config profileTypes server = (events, Agent.Returned body) →
     ∃ failures response server',
       server = failures ++ Agent.Resolved body response :: server' ∧
       Forall Agent.failed failures ∧
       200 ≤ Agent.statusCode response < 300) ∧
  (∀ server message,
     (Agent.createProfile config profileTypes server).2 ≠ Agent.Thrown message) ∧
  (∀ failures,
     Forall Agent.failed failures →
     Agent.createProfile config profileTypes failures =
     (flat_map (Agent.retryEvents config profileTypes) failures ++
      [ Agent.EvRequest "POST" "/profiles"
          (Agent.projectId config, Agent.service config,
           (Agent.zone config, Agent.instance config)) profileTypes ],
      Agent.Pending)).
Proof.
  assert (∀ code, Agent.isErrorResponseCode code = true ↔ code < 200 ∨ 300 ≤ code)
    as Hcode.
  { intros code. unfold Agent.isErrorResponseCode.
    rewrite orb_true_iff, Z.ltb_lt, Z.geb_le. done. }
  split_and!.
  - intros failures body response server' Hf Hok.
    induction Hf as [|o failures Ho Hf IH]; simpl.
    + destruct (Agent.isErrorResponseCode (Agent.statusCode response)) eqn:E; [|done].
      apply Hcode in E. lia.
    + rewrite IH. destruct o as [b r|err]; simpl; [|done].
      destruct (Agent.isErrorResponseCode (Agent.statusCode r)) eqn:E; [done|].
      simpl in Ho. apply Hcode in Ho. congruence.
  - intros server. induction server as [|o server IH]; intros events body; simpl.
    + intros [= _ ?].
    + destruct (Agent.createProfile config profileTypes server) as [evs c] eqn:Hrec.
      destruct o as [b r|err]; simpl.
      * destruct (Agent.isErrorResponseCode (Agent.statusCode r)) eqn:E.
        -- intros [= _ ->]. destruct (IH _ _ eq_refl) as (fs & resp & rest & -> & Hfs & Hresp).
           exists (Agent.Resolved b r :: fs), resp, rest.
           split; [done|]. split; [|done].
           constructor; [|done]. simpl. by apply Hcode.
        -- intros [= _ ->]. exists [], r, server.
           split; [done|]. split; [constructor|].
           destruct (decide (Agent.statusCode r < 200 ∨ 300 ≤ Agent.statusCode r))
             as [Hbad|Hgood]; [|lia].
           apply Hcode in Hbad. congruence.
      * intros [= _ ->]. destruct (IH _ _ eq_refl) as (fs & resp & rest & -> & Hfs & Hresp).
        exists (Agent.Rejected err :: fs), resp, rest.
        split; [done|]. split; [|done]. by constructor.
  - intros server message. induction server as [|o server IH]; simpl; [done|].
    destruct (Agent.createProfile config profileTypes server) as [evs c].
    destruct o as [b r|err]; simpl; [|done].
    by destruct (Agent.isErrorResponseCode (Agent.statusCode r)).
  - intros failures Hf. induction Hf as [|o failures Ho Hf IH]; simpl; [done|].
    rewrite IH. destruct o as [b r|err]; simpl; [|done].
    destruct (Agent.isErrorResponseCode (Agent.statusCode r)) eqn:E; [done|].
    simpl in Ho. apply Hcode in Ho. congruence.
Qed.

Lemma C8_witness :
  Forall Agent.failed [unavailable; unavailable] ∧
  200 ≤ 200 < 300 ∧
  Agent.createProfile pollConfig ["WALL"; "HEAP"] pollExample =
  (Agent.retryEvents pollConfig ["WALL"; "HEAP"] unavailable ++
   Agent.retryEvents pollConfig ["WALL"; "HEAP"] unavailable ++
   [ Agent.EvRequest "POST" "/profiles"
       ("project", "service", ("zone", "instance")) ["WALL"; "HEAP"] ],
   Agent.Returned wallRequest) ∧
  ∃ failures response server',
    pollExample = failures ++ Agent.Resolved wallRequest response :: server' ∧
    Forall Agent.failed failures ∧ 200 ≤ Agent.statusCode response < 300.
Proof.
  assert (Forall Agent.failed [unavailable; unavailable]) as Hf.
  { constructor; [simpl; lia|]. constructor; [simpl; lia|]. constructor. }
  assert (200 ≤ 200 < 300) as Hok by lia.
  destruct (C8_poll_retries_until_2xx pollConfig ["WALL"; "HEAP"])
    as (Hretry & Honly & _ & _).
  pose proof (Hretry [unavailable; unavailable] wallRequest
                {| Agent.statusCode := 200; Agent.statusMessage := "OK" |} [] Hf Hok)
    as Hrun.
  split; [exact Hf|]. split; [exact Hok|]. split.
  - exact Hrun.
  - exact (Honly _ _ _ Hrun).
Defined.

(** C9. The string table of every profile built by [serializeTimeProfile]
    or [serializeHeapProfile] has the empty string at index 0, and so has
    the string table the native constructor [Profile::Profile] leaves. *)
Theorem C9_string_table_starts_with_empty :
  (∀ prof intervalMicros,
     ∃ p, serializeTimeProfile prof intervalMicros = Ok p ∧
          stringTable p !! 0%nat = Some "") ∧
  (∀ prof startTimeNanos durationNanos_ intervalBytes,
     ∃ p, serializeHeapProfile prof startTimeNanos durationNanos_ intervalBytes = Ok p ∧
          stringTable p !! 0%nat = Some "") ∧
  (∀ pt pu per tn dn df kf,
     Cpp.strings (Cpp.newProfile pt pu per tn dn df kf) !! 0%nat = Some "").
Proof.
  split; [|split]; [| |apply cpp_newProfile_strings].
  - intros prof i.
    destruct (serializeTimeProfile_spec prof i) as (acc & b & -> & _ & Hpre).
    eexists. split; [done|]. simpl.
    by eapply prefix_lookup_Some; [|done].
  - intros prof st d ib.
    destruct (serializeHeapProfile_spec prof st d ib) as (acc & b & -> & _ & Hpre).
    eexists. split; [done|]. simpl.
    by eapply prefix_lookup_Some; [|done].
Qed.

(** C10. Every node but the root has its location and its function in the
    tables of the profile, whether or not it gave a sample (a WALL node
    without hits, a HEAP node without allocations); the number of locations
    is the number of distinct location keys of these nodes, and the number
    of functions the number of their distinct function keys. *)
Theorem C10_every_node_interned :
  (∀ prof intervalMicros,
     let nodes := forestNodes (children (topDownRoot prof)) in
     ∃ p, serializeTimeProfile prof intervalMicros = Ok p ∧
       (∀ n, n ∈ nodes →
          ∃ id, located (location p) (function_ p) (stringTable p) id n) ∧
       length (location p) = size (list_to_set (map locationKey nodes) : gset string) ∧
       length (function_ p) = size (list_to_set (map functionKey nodes) : gset string)) ∧
  (∀ prof startTimeNanos durationNanos_ intervalBytes,
     let nodes := forestNodes (children prof) in
     ∃ p, serializeHeapProfile prof startTimeNanos durationNanos_ intervalBytes = Ok p ∧
       (∀ n, n ∈ nodes →
          ∃ id, located (location p) (function_ p) (stringTable p) id n) ∧
       length (location p) = size (list_to_set (map locationKey nodes) : gset string) ∧
       length (function_ p) = size (list_to_set (map functionKey nodes) : gset string)).
Proof.
  split.
  - intros prof i nodes.
    destruct (serializeTimeProfile_spec prof i) as (acc & b & -> & HInv & _).
    eexists. split; [done|]. simpl. split_and!.
    + intros n Hn. eexists. by eapply Inv_all_located.
    + by eapply Inv_location_count.
    + by eapply Inv_function_count.
  - intros prof st d ib nodes.
    destruct (serializeHeapProfile_spec prof st d ib) as (acc & b & -> & HInv & _).
    eexists. split; [done|]. simpl. split_and!.
    + intros n Hn. eexists. by eapply Inv_all_located.
    + by eapply Inv_location_count.
    + by eapply Inv_function_count.
Qed.

(** * Further properties *)

(** ** Values of the HEAP samples *)

Section HeapValues.
Implicit Types (vs : list (AllocationProfileNode * list AllocationProfileNode)).

Lemma heapSamples_values m vs :
  map value
    (flat_map (λ v, heapSamples v.1 (map (idOf m) (v.1 :: v.2))) vs) =
  map (λ a, [count a; sizeBytes a * count a]) (flat_map allocations vs.*1).
Proof.
  induction vs as [|v vs IH]; [done|].
  cbn [flat_map fmap list_fmap]. rewrite !map_app, IH. f_equal.
  unfold heapSamples. by rewrite map_map.
Qed.

Lemma flat_map_perm {A B} (f : A → list B) (l1 l2 : list A) :
  l1 ≡ₚ l2 → flat_map f l1 ≡ₚ flat_map f l2.
Proof.
  induction 1 as [|x l1 l2 _ IH|x y l|l1 l2 l3 _ IH1 _ IH2]; simpl.
  - done.
  - by rewrite IH.
  - rewrite !app_assoc. f_equiv. apply Permutation_app_comm.
  - by etrans.
Qed.

End HeapValues.

(** ** The string table under any sequence of calls *)

Section TableCalls.

Lemma internAll_snoc l s t :
  internAll (l ++ [s]) t = (getIndexOrAdd s (internAll l t)).2.
Proof. unfold internAll. by rewrite foldl_app. Qed.

Lemma internAll_spec l t :
  StrWF t → StrWF (internAll l t) ∧ strings t `prefix_of` strings (internAll l t).
Proof.
  intros Ht. induction l as [|s l IH] using rev_ind; [done|].
  rewrite internAll_snoc. destruct IH as [IH1 IH2].
  destruct (getIndexOrAdd s (internAll l t)) as [i t'] eqn:E.
  destruct (getIndexOrAdd_spec _ _ _ _ IH1 E) as (Ht' & Hpre & _).
  split; [done|]. by etrans.
Qed.

Lemma StrWF_lookup t s i :
  StrWF t → stringsMap t !! s = Some i ↔ 0 ≤ i ∧ strings t !! Z.to_nat i = Some s.
Proof.
  intros Ht. rewrite (Ht s i). by replace (i - 0) with i by lia.
Qed.

Lemma getIndexOrAdd_hit t s i :
  StrWF t → 0 ≤ i → strings t !! Z.to_nat i = Some s →
  getIndexOrAdd s t = (i, t).
Proof.
  intros Ht Hi Hs. unfold getIndexOrAdd.
  by rewrite (proj2 (StrWF_lookup t s i Ht) (conj Hi Hs)).
Qed.

Lemma getIndexOrAdd_new t s :
  StrWF t → s ∉ strings t →
  getIndexOrAdd s t =
    (Z.of_nat (length (strings t)),
     {| strings := strings t ++ [s];
        stringsMap := <[s := Z.of_nat (length (strings t))]> (stringsMap t) |}).
Proof.
  intros Ht Hs. unfold getIndexOrAdd.
  destruct (stringsMap t !! s) as [i|] eqn:E.
  - apply (StrWF_lookup _ _ _ Ht) in E as [_ E].
    apply list_elem_of_lookup_2 in E. done.
  - rewrite length_app. simpl.
    by replace (Z.of_nat (length (strings t) + 1) - 1)
         with (Z.of_nat (length (strings t))) by lia.
Qed.

End TableCalls.

(** ** Depth of the stacks *)

Section Depth.
Context {P : Type}.
Implicit Types (n : ProfileNode P) (anc cs : list (ProfileNode P)).

Lemma height_eq n : height n = S (forestHeight (children n)).
Proof.
  by destruct n.
Qed.

Lemma visitForest_depth anc cs v :
  Forall (λ c, ∀ anc v, v ∈ visitNode anc c →
                 (S (length v.2) ≤ length anc + height c)%nat) cs →
  v ∈ visitForest anc cs →
  (S (length v.2) ≤ length anc + forestHeight cs)%nat.
Proof.
  induction 1 as [|c cs Hc _ IH]; simpl; intros Hv.
  - by apply elem_of_nil in Hv.
  - apply elem_of_app in Hv as [Hv|Hv].
    + specialize (IH Hv). lia.
    + specialize (Hc _ _ Hv). lia.
Qed.

Lemma visitNode_depth n :
  ∀ anc v, v ∈ visitNode anc n → (S (length v.2) ≤ length anc + height n)%nat.
Proof.
  induction n as [n IH] using ProfileNode_forest_ind. intros anc v.
  rewrite visitNode_eq, height_eq.
  intros [->|Hv]%elem_of_cons; simpl; [lia|].
  pose proof (visitForest_depth (n :: anc) (children n) v IH Hv) as H.
  simpl in H. lia.
Qed.

Lemma visits_depth cs v :
  v ∈ visitForest [] cs → (S (length v.2) ≤ forestHeight cs)%nat.
Proof.
  intros Hv.
  apply (visitForest_depth [] cs v); [|done].
  apply Forall_forall. intros c _. apply visitNode_depth.
Qed.

End Depth.

(** ** Where the functions and the strings come from *)

Section Origins.
Context {P : Type}.
Implicit Types (n : ProfileNode P) (b : Builder) (ns cs : list (ProfileNode P)).
Variable emit : ProfileNode P → Stack → list Sample.
Variable hdr : list string.

(** The string table numbers its strings, every function has the name and
    the script name of one of the nodes [ns], and every string is one of
    [hdr] or comes from one of these nodes. *)
Local Abbreviation From b ns :=
  (StrWF (table b) ∧ FunFrom (functions b) (strings (table b)) ns ∧
   StrFrom hdr (strings (table b)) ns).

Lemma FunFrom_mono funs strs strs' ns ns' :
  FunFrom (P:=P) funs strs ns → strs `prefix_of` strs' →
  (∀ n, n ∈ ns → n ∈ ns') → FunFrom funs strs' ns'.
Proof.
  intros HF Hpre Hsub f Hf. destruct (HF f Hf) as (n & Hn & Hname & Hfile).
  exists n. split_and!; [by apply Hsub|by eapply prefix_lookup_Some..].
Qed.

Lemma StrFrom_mono strs ns ns' :
  StrFrom (P:=P) hdr strs ns → (∀ n, n ∈ ns → n ∈ ns') → StrFrom hdr strs ns'.
Proof.
  intros HS Hsub s Hs. destruct (HS s Hs) as [?|(n & Hn & Hor)]; [by left|].
  right. exists n. split; [by apply Hsub|done].
Qed.

Lemma getIndexOrAdd_strings str t s :
  s ∈ strings (getIndexOrAdd str t).2 → s ∈ strings t ∨ s = str.
Proof.
  unfold getIndexOrAdd. destruct (stringsMap t !! str); simpl; [by left|].
  intros [?| ->%list_elem_of_singleton]%elem_of_app; [by left|by right].
Qed.

Lemma getFunction_from n b ns :
  From b ns → From (getFunction n b).2 (n :: ns).
Proof.
  intros (Ht & HF & HS). unfold getFunction.
  destruct (functionIdMap b !! functionKey n) as [id|]; simpl.
  - split_and!; [done| |].
    + eapply FunFrom_mono; [done..|]. intros ??. by right.
    + eapply StrFrom_mono; [done|]. intros ??. by right.
  - pose proof (getIndexOrAdd_strings (name n) (table b)) as Hs1.
    destruct (getIndexOrAdd (name n) (table b)) as [nameId t1] eqn:E1.
    pose proof (getIndexOrAdd_strings (scriptName n) t1) as Hs2.
    destruct (getIndexOrAdd (scriptName n) t1) as [fileId t2] eqn:E2.
    destruct (getIndexOrAdd_spec _ _ _ _ Ht E1) as (Ht1 & Hpre1 & Hr1 & Hl1).
    destruct (getIndexOrAdd_spec _ _ _ _ Ht1 E2) as (Ht2 & Hpre2 & Hr2 & Hl2).
    simpl in *. split_and!; [done| |].
    + intros f [Hf| ->%list_elem_of_singleton]%elem_of_app.
      * destruct (HF f Hf) as (n' & Hn' & Hname & Hfile).
        exists n'. split; [by right|].
        split; eapply prefix_lookup_Some; try done; by etrans.
      * exists n. simpl. split; [by left|].
        split; [by eapply prefix_lookup_Some|done].
    + intros s Hs. apply Hs2 in Hs as [Hs| ->].
      * apply Hs1 in Hs as [Hs| ->].
        -- destruct (HS s Hs) as [?|(n' & Hn' & Hor)]; [by left|].
           right. exists n'. split; [by right|done].
        -- right. exists n. split; [by left|by left].
      * right. exists n. split; [by left|by right].
Qed.

Lemma getLocation_from n b ns r b1 :
  From b ns → getLocation n b = Ok (r, b1) → From b1 (n :: ns).
Proof.
  intros HF. unfold getLocation.
  destruct (locationIdMap b !! locationKey n) as [id|].
  - intros [= _ <-]. destruct HF as (Ht & HF & HS). split_and!; [done| |].
    + eapply FunFrom_mono; [done..|]. intros ??. by right.
    + eapply StrFrom_mono; [done|]. intros ??. by right.
  - unfold getLine.
    match goal with
    | |- context [getFunction n ?b0] =>
        pose proof (getFunction_from n b0 ns HF) as HF1;
        destruct (getFunction n b0) as [[f|] b2]
    end; simpl; [|done].
    intros [= _ <-]. done.
Qed.

Lemma From_mono b ns ns' :
  From b ns → (∀ n, n ∈ ns → n ∈ ns') → From b ns'.
Proof.
  intros (Ht & HF & HS) Hsub. split_and!; [done| |].
  - by eapply FunFrom_mono.
  - by eapply StrFrom_mono.
Qed.

Lemma walkForest_from cs stk acc b ns acc' b' :
  Forall (λ c, ∀ stk acc b ns acc' b',
            From b ns → walk emit c stk acc b = Ok (acc', b') →
            From b' (nodesOf c ++ ns)) cs →
  From b ns → walkForest emit stk cs acc b = Ok (acc', b') →
  From b' (forestNodes cs ++ ns).
Proof.
  intros Hcs. revert acc' b'.
  induction Hcs as [|c cs Hc _ IH]; intros acc' b' HF; simpl.
  - by intros [= _ <-].
  - destruct (walkForest emit stk cs acc b) as [[acc1 b1]| |]; simpl; try done.
    intros Hw. rewrite <-app_assoc. eapply Hc; [|done]. by eapply IH.
Qed.

Lemma walk_from n :
  ∀ stk acc b ns acc' b',
    From b ns → walk emit n stk acc b = Ok (acc', b') →
    From b' (nodesOf n ++ ns).
Proof.
  induction n as [n IH] using ProfileNode_forest_ind.
  intros stk acc b ns acc' b' HF. rewrite walk_eq.
  destruct (getLocation n b) as [[[l|] b1]| |] eqn:E; simpl; try done.
  intros Hw.
  pose proof (getLocation_from _ _ _ _ _ HF E) as HF1.
  pose proof (walkForest_from _ _ _ _ _ _ _ IH HF1 Hw) as HF2.
  eapply From_mono; [exact HF2|].
  intros x. rewrite nodesOf_eq. simpl.
  rewrite !elem_of_cons, !elem_of_app, !elem_of_cons. tauto.
Qed.

(** The functions and the strings that [build] leaves all come from the
    table it was given and from nodes below the root. *)
Lemma build_from (appendToSamples : AppendEntryToSamples P)
    (root : ProfileNode P) t st :
  appendsOnEntry emit appendToSamples → StrWF t → strings t = hdr →
  build root appendToSamples t = Ok st →
  FunFrom (functions (builder st)) (strings (table (builder st)))
    (forestNodes (children root)) ∧
  StrFrom hdr (strings (table (builder st))) (forestNodes (children root)).
Proof.
  intros Happ Ht Hhdr Hb.
  pose proof (build_walk appendToSamples emit Happ root t) as Hbuild.
  rewrite Hb in Hbuild. simpl in Hbuild. symmetry in Hbuild.
  assert (From (newBuilder t) ([] : list (ProfileNode P))) as H0.
  { split_and!; [done| |].
    - intros f Hf. by apply elem_of_nil in Hf.
    - intros s Hs. left. simpl in Hs. by rewrite <-Hhdr. }
  unfold readState in Hbuild.
  destruct (λ H, walkForest_from (children root) [] [] (newBuilder t) [] _ _
                   H H0 Hbuild) as (_ & HF & HS).
  - apply Forall_forall. intros c _. apply walk_from.
  - by rewrite app_nil_r in HF, HS.
Qed.

End Origins.

(** ** Every table entry has a node *)

Section Entries.
Context {P : Type}.
Implicit Types (b : Builder) (cs : list (ProfileNode P)) (acc : list Sample).
Variable emit : ProfileNode P → Stack → list Sample.

Lemma Inv_location_origin acc b anc cs l :
  Inv emit acc b (visitForest anc cs) → l ∈ locations b →
  ∃ n, n ∈ forestNodes cs ∧
    located (locations b) (functions b) (strings (table b)) (loc_id l) n.
Proof.
  intros HInv [i Hi]%list_elem_of_lookup.
  pose proof (inv_L _ _ _ _ HInv) as HL.
  destruct (linv_locs _ _ _ _ _ HL _ _ Hi) as [Hid _].
  pose proof (lookup_lt_Some _ _ _ Hi) as Hlt.
  rewrite (linv_length _ _ _ _ _ HL) in Hlt.
  destruct (lookup_lt_is_Some_2 _ _ Hlt) as [k Hk].
  assert (locationIdMap b !! k = Some (loc_id l)) as Hm.
  { apply (linv_keys _ _ _ _ _ HL). split; [lia|].
    by replace (Z.to_nat (loc_id l - 1)) with i by lia. }
  apply list_elem_of_lookup_2 in Hk.
  apply elem_of_addKeys in Hk as [Hk|Hk]; [by apply elem_of_nil in Hk|].
  apply list_elem_of_fmap in Hk as (v & -> & Hv).
  assert (v.1 ∈ forestNodes cs) as Hn.
  { rewrite <-(visits_nodes anc cs). apply list_elem_of_fmap. by exists v. }
  exists v.1. split; [done|].
  pose proof (Inv_all_located emit _ _ _ _ _ HInv Hn) as Hloc.
  unfold idOf in Hloc. by rewrite Hm in Hloc.
Qed.

End Entries.

(** ** Further properties of the serializers *)

(** X1. [serializeHeapProfile] emits one sample for each allocation of each
    node (the root apart), with value [[count, sizeBytes * count]]; the
    first values of the samples add up to the number of allocated objects
    and the second values to the number of allocated bytes. *)
Theorem X1_heap_samples_and_value_law prof startTimeNanos durationNanos_
    intervalBytes :
  let nodes := forestNodes (children prof) in
  ∃ p visited,
    serializeHeapProfile prof startTimeNanos durationNanos_ intervalBytes = Ok p ∧
    visited ≡ₚ nodes ∧
    map value (sample p) =
      map (λ a, [count a; sizeBytes a * count a]) (flat_map allocations visited) ∧
    sumZ (map (λ s, default 0 (value s !! 0%nat)) (sample p)) =
      sumZ (map count (flat_map allocations nodes)) ∧
    sumZ (map (λ s, default 0 (value s !! 1%nat)) (sample p)) =
      sumZ (map (λ a, sizeBytes a * count a) (flat_map allocations nodes)).
Proof.
  intros nodes. subst nodes.
  destruct (serializeHeapProfile_spec prof startTimeNanos durationNanos_
              intervalBytes) as (acc & b & -> & HInv & _).
  assert (acc =
          flat_map (λ v, heapSamples v.1 (map (idOf (locationIdMap b)) (v.1 :: v.2)))
                   (visitForest [] (children prof))) as Hs
    by exact (inv_samples _ _ _ _ HInv).
  pose proof (heapSamples_values (locationIdMap b)
                (visitForest [] (children prof))) as Hv.
  rewrite <-Hs in Hv.
  pose proof (visits_nodes [] (children prof)) as Hperm.
  eexists _, _. split; [done|]. simpl. split_and!; [exact Hperm|exact Hv|..].
  - transitivity (sumZ (map (λ l, default 0 (l !! 0%nat)) (map value acc))).
    { by rewrite map_map. }
    rewrite Hv, map_map. simpl. apply sumZ_perm.
    apply fmap_Permutation. by apply flat_map_perm.
  - transitivity (sumZ (map (λ l, default 0 (l !! 1%nat)) (map value acc))).
    { by rewrite map_map. }
    rewrite Hv, map_map. simpl. apply sumZ_perm.
    apply fmap_Permutation. by apply flat_map_perm.
Qed.

(** X2. There is an assignment of location ids to nodes that gives the
    stacks of all samples, under which every node below the root has its
    location, and under which two such nodes have the same location id
    exactly when they agree on script id, line number, column number and
    name. *)
Theorem X2_location_shared_iff_same_key :
  (∀ prof intervalMicros,
     let nodes := forestNodes (children (topDownRoot prof)) in
     ∃ p m, serializeTimeProfile prof intervalMicros = Ok p ∧
       sample p =
         flat_map (λ v, timeSamples intervalMicros v.1 (map (idOf m) (v.1 :: v.2)))
                  (visitForest [] (children (topDownRoot prof))) ∧
       (∀ a, a ∈ nodes →
          located (location p) (function_ p) (stringTable p) (idOf m a) a) ∧
       ∀ a c, a ∈ nodes → c ∈ nodes →
         (idOf m a = idOf m c ↔
          scriptId a = scriptId c ∧ lineNumber a = lineNumber c ∧
          columnNumber a = columnNumber c ∧ name a = name c)) ∧
  (∀ prof startTimeNanos durationNanos_ intervalBytes,
     let nodes := forestNodes (children prof) in
     ∃ p m, serializeHeapProfile prof startTimeNanos durationNanos_ intervalBytes = Ok p ∧
       sample p =
         flat_map (λ v, heapSamples v.1 (map (idOf m) (v.1 :: v.2)))
                  (visitForest [] (children prof)) ∧
       (∀ a, a ∈ nodes →
          located (location p) (function_ p) (stringTable p) (idOf m a) a) ∧
       ∀ a c, a ∈ nodes → c ∈ nodes →
         (idOf m a = idOf m c ↔
          scriptId a = scriptId c ∧ lineNumber a = lineNumber c ∧
          columnNumber a = columnNumber c ∧ name a = name c)).
Proof.
  split.
  - intros prof intervalMicros nodes. subst nodes.
    destruct (serializeTimeProfile_spec prof intervalMicros)
      as (acc & b & -> & HInv & _).
    eexists _, (locationIdMap b). simpl. split_and!; [done|..].
    + exact (inv_samples _ _ _ _ HInv).
    + intros a Ha. by eapply Inv_all_located.
    + intros a c Ha Hc. rewrite <-locationKey_inj.
      by eapply Inv_location_shared.
  - intros prof startTimeNanos durationNanos_ intervalBytes nodes. subst nodes.
    destruct (serializeHeapProfile_spec prof startTimeNanos durationNanos_
                intervalBytes) as (acc & b & -> & HInv & _).
    eexists _, (locationIdMap b). simpl. split_and!; [done|..].
    + exact (inv_samples _ _ _ _ HInv).
    + intros a Ha. by eapply Inv_all_located.
    + intros a c Ha Hc. rewrite <-locationKey_inj.
      by eapply Inv_location_shared.
Qed.

(** X3. The line of the location of a node names a function of the
    function table that has this id and the name of the node, and the
    locations of two nodes below the root name the same function exactly
    when the nodes agree on script id and name (whatever their lines and
    columns). *)
Theorem X3_function_shared_iff_same_script_and_name :
  (∀ prof intervalMicros,
     let nodes := forestNodes (children (topDownRoot prof)) in
     ∃ p m fm, serializeTimeProfile prof intervalMicros = Ok p ∧
       sample p =
         flat_map (λ v, timeSamples intervalMicros v.1 (map (idOf m) (v.1 :: v.2)))
                  (visitForest [] (children (topDownRoot prof))) ∧
       (∀ a, a ∈ nodes →
          ∃ loc f,
            arrayGet (location p) (idOf m a - 1) = Some loc ∧
            loc_line loc = [ {| ln_functionId := fidOf fm a;
                                ln_line := lineNumber a |} ] ∧
            arrayGet (function_ p) (fidOf fm a - 1) = Some f ∧
            fn_id f = fidOf fm a ∧
            arrayGet (stringTable p) (fn_name f) = Some (name a)) ∧
       ∀ a c, a ∈ nodes → c ∈ nodes →
         (fidOf fm a = fidOf fm c ↔ scriptId a = scriptId c ∧ name a = name c)) ∧
  (∀ prof startTimeNanos durationNanos_ intervalBytes,
     let nodes := forestNodes (children prof) in
     ∃ p m fm,
       serializeHeapProfile prof startTimeNanos durationNanos_ intervalBytes = Ok p ∧
       sample p =
         flat_map (λ v, heapSamples v.1 (map (idOf m) (v.1 :: v.2)))
                  (visitForest [] (children prof)) ∧
       (∀ a, a ∈ nodes →
          ∃ loc f,
            arrayGet (location p) (idOf m a - 1) = Some loc ∧
            loc_line loc = [ {| ln_functionId := fidOf fm a;
                                ln_line := lineNumber a |} ] ∧
            arrayGet (function_ p) (fidOf fm a - 1) = Some f ∧
            fn_id f = fidOf fm a ∧
            arrayGet (stringTable p) (fn_name f) = Some (name a)) ∧
       ∀ a c, a ∈ nodes → c ∈ nodes →
         (fidOf fm a = fidOf fm c ↔ scriptId a = scriptId c ∧ name a = name c)).
Proof.
  split.
  - intros prof intervalMicros nodes. subst nodes.
    destruct (serializeTimeProfile_spec prof intervalMicros)
      as (acc & b & -> & HInv & _).
    eexists _, (locationIdMap b), (functionIdMap b). simpl. split_and!; [done|..].
    + exact (inv_samples _ _ _ _ HInv).
    + intros a Ha.
      destruct (Inv_node_line _ _ _ _ _ _ HInv Ha)
        as (loc & f & H1 & H2 & _ & H3 & H4 & H5).
      by exists loc, f.
    + intros a c Ha Hc. rewrite <-functionKey_inj.
      by eapply Inv_function_shared.
  - intros prof startTimeNanos durationNanos_ intervalBytes nodes. subst nodes.
    destruct (serializeHeapProfile_spec prof startTimeNanos durationNanos_
                intervalBytes) as (acc & b & -> & HInv & _).
    eexists _, (locationIdMap b), (functionIdMap b). simpl. split_and!; [done|..].
    + exact (inv_samples _ _ _ _ HInv).
    + intros a Ha.
      destruct (Inv_node_line _ _ _ _ _ _ HInv Ha)
        as (loc & f & H1 & H2 & _ & H3 & H4 & H5).
      by exists loc, f.
    + intros a c Ha Hc. rewrite <-functionKey_inj.
      by eapply Inv_function_shared.
Qed.

(** X4. The string table of a profile holds no string twice. *)
Theorem X4_string_table_without_duplicates :
  (∀ prof intervalMicros,
     ∃ p, serializeTimeProfile prof intervalMicros = Ok p ∧
          NoDup (stringTable p)) ∧
  (∀ prof startTimeNanos durationNanos_ intervalBytes,
     ∃ p, serializeHeapProfile prof startTimeNanos durationNanos_ intervalBytes = Ok p ∧
          NoDup (stringTable p)).
Proof.
  split.
  - intros prof intervalMicros.
    destruct (serializeTimeProfile_spec prof intervalMicros)
      as (acc & b & -> & HInv & _).
    eexists. split; [done|]. simpl.
    exact (Indexed_NoDup _ _ _ (finv_strings _ _ _ _ (inv_F _ _ _ _ HInv))).
  - intros prof startTimeNanos durationNanos_ intervalBytes.
    destruct (serializeHeapProfile_spec prof startTimeNanos durationNanos_
                intervalBytes) as (acc & b & -> & HInv & _).
    eexists. split; [done|]. simpl.
    exact (Indexed_NoDup _ _ _ (finv_strings _ _ _ _ (inv_F _ _ _ _ HInv))).
Qed.

(** X5. In a string table reached from the constructor by any sequence of
    [getIndexOrAdd] calls, [getIndexOrAdd(s)] returns an index at which the
    table then holds [s]; a string that is in the table leaves the table as
    it is, a string that is not is appended at the end; the table never
    holds a string twice; and after any further calls [getIndexOrAdd(s)]
    still returns the same index and changes nothing. *)
Theorem X5_string_table_lookup_after_insert l s :
  let t := internAll l newStringTable in
  let i := (getIndexOrAdd s t).1 in
  let t' := (getIndexOrAdd s t).2 in
  0 ≤ i ∧ strings t' !! Z.to_nat i = Some s ∧
  NoDup (strings t') ∧
  (s ∈ strings t → t' = t) ∧
  (s ∉ strings t →
     strings t' = strings t ++ [s] ∧ i = Z.of_nat (length (strings t))) ∧
  ∀ l', getIndexOrAdd s (internAll l' t') = (i, internAll l' t').
Proof.
  intros t i t'.
  destruct (internAll_spec l newStringTable StrWF_new) as [Ht _]. fold t in Ht.
  assert (getIndexOrAdd s t = (i, t')) as E by (by destruct (getIndexOrAdd s t)).
  destruct (getIndexOrAdd_spec _ _ _ _ Ht E) as (Ht' & Hpre & Hr & Hl).
  split_and!; [lia|done|by eapply Indexed_NoDup|..].
  - intros [j Hj]%list_elem_of_lookup.
    assert (getIndexOrAdd s t = (Z.of_nat j, t)) as E'.
    { apply getIndexOrAdd_hit; [done|lia|by rewrite Nat2Z.id]. }
    rewrite E in E'. by injection E' as _ ->.
  - intros Hs. rewrite (getIndexOrAdd_new _ _ Ht Hs) in E.
    by injection E as <- <-.
  - intros l'. destruct (internAll_spec l' t' Ht') as [Ht'' Hpre'].
    apply getIndexOrAdd_hit; [done|lia|by eapply prefix_lookup_Some].
Qed.

(** X6. For a tree whose root has no children, both serializers return a
    profile without samples, locations and functions, whose string table
    holds exactly the empty string and the four strings of the two value
    types. *)
Theorem X6_root_without_children :
  (∀ prof intervalMicros,
     children (topDownRoot prof) = [] →
     ∃ p, serializeTimeProfile prof intervalMicros = Ok p ∧
       sample p = [] ∧ location p = [] ∧ function_ p = [] ∧
       stringTable p = [""; "samples"; "count"; "time"; "microseconds"]) ∧
  (∀ prof startTimeNanos durationNanos_ intervalBytes,
     children prof = [] →
     ∃ p, serializeHeapProfile prof startTimeNanos durationNanos_ intervalBytes = Ok p ∧
       sample p = [] ∧ location p = [] ∧ function_ p = [] ∧
       stringTable p = [""; "samples"; "count"; "space"; "bytes"]).
Proof.
  split.
  - intros prof intervalMicros Hcs.
    destruct (serializeTimeProfile_build prof intervalMicros)
      as (t & _ & Hstr & ->).
    rewrite build_no_children by done. simpl. eexists. split; [done|].
    simpl. by rewrite Hstr.
  - intros prof startTimeNanos durationNanos_ intervalBytes Hcs.
    destruct (serializeHeapProfile_build prof startTimeNanos durationNanos_
                intervalBytes) as (t & _ & Hstr & ->).
    rewrite build_no_children by done. simpl. eexists. split; [done|].
    simpl. by rewrite Hstr.
Qed.

Lemma X6_witness :
  (children (topDownRoot {| endTime := 7; startTime := 5;
                            topDownRoot := leaf "(root)" "" 0 0 0 0 |}) = [] ∧
   ∃ p, serializeTimeProfile {| endTime := 7; startTime := 5;
                                topDownRoot := leaf "(root)" "" 0 0 0 0 |} 1000
        = Ok p ∧
        sample p = [] ∧ location p = [] ∧ length (stringTable p) = 5%nat) ∧
  (children (leaf "(root)" "" 0 0 0 [ {| count := 1; sizeBytes := 8 |} ]) = [] ∧
   ∃ p, serializeHeapProfile
          (leaf "(root)" "" 0 0 0 [ {| count := 1; sizeBytes := 8 |} ]) 0 0 512
        = Ok p ∧
        sample p = [] ∧ location p = [] ∧ length (stringTable p) = 5%nat).
Proof.
  split; (split; [reflexivity|]).
  - destruct (proj1 X6_root_without_children
                {| endTime := 7; startTime := 5;
                   topDownRoot := leaf "(root)" "" 0 0 0 0 |} 1000 eq_refl)
      as (p & Hp & Hs & Hl & _ & Hstr).
    exists p. split; [exact Hp|]. split; [exact Hs|]. split; [exact Hl|].
    rewrite Hstr. reflexivity.
  - destruct (proj2 X6_root_without_children
                (leaf "(root)" "" 0 0 0 [ {| count := 1; sizeBytes := 8 |} ])
                0 0 512 eq_refl)
      as (p & Hp & Hs & Hl & _ & Hstr).
    exists p. split; [exact Hp|]. split; [exact Hs|]. split; [exact Hl|].
    rewrite Hstr. reflexivity.
Defined.

(** X7. The two sample types of a WALL profile point to the strings
    ("samples", "count") and ("time", "microseconds"), its period type to
    ("time", "microseconds"), and its period is the sampling interval. The
    sample types of a HEAP profile point to ("samples", "count") and
    ("space", "bytes"), its period type to ("space", "bytes"), its period
    is the sampling interval in bytes, and its [timeNanos] and
    [durationNanos] are the numbers it was given. *)
Theorem X7_value_types_resolve :
  (∀ prof intervalMicros,
     ∃ p, serializeTimeProfile prof intervalMicros = Ok p ∧
       map (valueTypeNames (stringTable p)) (sampleType p) =
         [ Some ("samples", "count"); Some ("time", "microseconds") ] ∧
       valueTypeNames (stringTable p) (periodType p) =
         Some ("time", "microseconds") ∧
       period p = intervalMicros) ∧
  (∀ prof startTimeNanos durationNanos_ intervalBytes,
     ∃ p, serializeHeapProfile prof startTimeNanos durationNanos_ intervalBytes = Ok p ∧
       map (valueTypeNames (stringTable p)) (sampleType p) =
         [ Some ("samples", "count"); Some ("space", "bytes") ] ∧
       valueTypeNames (stringTable p) (periodType p) = Some ("space", "bytes") ∧
       period p = intervalBytes ∧
       timeNanos p = startTimeNanos ∧ durationNanos p = durationNanos_).
Proof.
  assert (∀ (hdr strs : list string) i s,
            hdr `prefix_of` strs → 0 ≤ i → hdr !! Z.to_nat i = Some s →
            arrayGet strs i = Some s) as Hget.
  { intros hdr strs i s Hpre Hi Hs. apply arrayGet_Some.
    split; [done|]. by eapply prefix_lookup_Some. }
  split.
  - intros prof intervalMicros.
    destruct (serializeTimeProfile_spec prof intervalMicros)
      as (acc & b & -> & _ & Hpre).
    eexists. split; [done|]. unfold valueTypeNames. simpl.
    rewrite (Hget _ _ 1 "samples" Hpre), (Hget _ _ 2 "count" Hpre),
      (Hget _ _ 3 "time" Hpre), (Hget _ _ 4 "microseconds" Hpre) by done.
    done.
  - intros prof startTimeNanos durationNanos_ intervalBytes.
    destruct (serializeHeapProfile_spec prof startTimeNanos durationNanos_
                intervalBytes) as (acc & b & -> & _ & Hpre).
    eexists. split; [done|]. unfold valueTypeNames. simpl.
    rewrite (Hget _ _ 1 "samples" Hpre), (Hget _ _ 2 "count" Hpre),
      (Hget _ _ 3 "space" Hpre), (Hget _ _ 4 "bytes" Hpre) by done.
    done.
Qed.

(** X8. Every sample of a profile has as many values as the profile has
    sample types (two), and a stack of location ids that is not empty and
    not longer than the longest path below the root. *)
Theorem X8_sample_shape :
  (∀ prof intervalMicros,
     ∃ p, serializeTimeProfile prof intervalMicros = Ok p ∧
       ∀ s, s ∈ sample p →
         length (value s) = length (sampleType p) ∧
         (1 ≤ length (locationId s) ≤
            forestHeight (children (topDownRoot prof)))%nat) ∧
  (∀ prof startTimeNanos durationNanos_ intervalBytes,
     ∃ p, serializeHeapProfile prof startTimeNanos durationNanos_ intervalBytes = Ok p ∧
       ∀ s, s ∈ sample p →
         length (value s) = length (sampleType p) ∧
         (1 ≤ length (locationId s) ≤ forestHeight (children prof))%nat).
Proof.
  split.
  - intros prof intervalMicros.
    destruct (serializeTimeProfile_spec prof intervalMicros)
      as (acc & b & -> & HInv & _).
    eexists. split; [done|]. simpl. intros s Hs.
    rewrite (inv_samples _ _ _ _ HInv) in Hs.
    apply list_elem_of_In, in_flat_map in Hs as (v & Hv & Hs).
    apply list_elem_of_In in Hv, Hs.
    pose proof (visits_depth _ _ Hv) as Hd.
    unfold timeSamples in Hs. destruct (0 <? hitCount v.1); [|by apply elem_of_nil in Hs].
    apply list_elem_of_singleton in Hs as ->. simpl.
    rewrite length_map. split; [done|lia].
  - intros prof startTimeNanos durationNanos_ intervalBytes.
    destruct (serializeHeapProfile_spec prof startTimeNanos durationNanos_
                intervalBytes) as (acc & b & -> & HInv & _).
    eexists. split; [done|]. simpl. intros s Hs.
    rewrite (inv_samples _ _ _ _ HInv) in Hs.
    apply list_elem_of_In, in_flat_map in Hs as (v & Hv & Hs).
    apply list_elem_of_In in Hv, Hs.
    pose proof (visits_depth _ _ Hv) as Hd.
    unfold heapSamples in Hs. apply list_elem_of_fmap in Hs as (a & -> & _).
    simpl. rewrite length_map. split; [done|lia].
Qed.

(** X9. The tables hold nothing but the nodes: every location of a profile
    is the location of a node below the root; every function has the name
    and the script name of a node below the root, with the system name
    equal to the name; and every string of the string table is the empty
    string, one of the four strings of the value types, or the name or the
    script name of a node below the root. *)
Theorem X9_table_entries_come_from_nodes :
  (∀ prof intervalMicros,
     let nodes := forestNodes (children (topDownRoot prof)) in
     ∃ p, serializeTimeProfile prof intervalMicros = Ok p ∧
       (∀ l, l ∈ location p →
          ∃ n, n ∈ nodes ∧
            located (location p) (function_ p) (stringTable p) (loc_id l) n) ∧
       (∀ f, f ∈ function_ p →
          fn_systemName f = fn_name f ∧
          ∃ n, n ∈ nodes ∧
            stringTable p !! Z.to_nat (fn_name f) = Some (name n) ∧
            stringTable p !! Z.to_nat (fn_filename f) = Some (scriptName n)) ∧
       (∀ s, s ∈ stringTable p →
          s ∈ [""; "samples"; "count"; "time"; "microseconds"] ∨
          ∃ n, n ∈ nodes ∧ (s = name n ∨ s = scriptName n))) ∧
  (∀ prof startTimeNanos durationNanos_ intervalBytes,
     let nodes := forestNodes (children prof) in
     ∃ p, serializeHeapProfile prof startTimeNanos durationNanos_ intervalBytes = Ok p ∧
       (∀ l, l ∈ location p →
          ∃ n, n ∈ nodes ∧
            located (location p) (function_ p) (stringTable p) (loc_id l) n) ∧
       (∀ f, f ∈ function_ p →
          fn_systemName f = fn_name f ∧
          ∃ n, n ∈ nodes ∧
            stringTable p !! Z.to_nat (fn_name f) = Some (name n) ∧
            stringTable p !! Z.to_nat (fn_filename f) = Some (scriptName n)) ∧
       (∀ s, s ∈ stringTable p →
          s ∈ [""; "samples"; "count"; "space"; "bytes"] ∨
          ∃ n, n ∈ nodes ∧ (s = name n ∨ s = scriptName n))).
Proof.
  split.
  - intros prof intervalMicros nodes. subst nodes.
    destruct (serializeTimeProfile_build prof intervalMicros)
      as (t & Ht & Hstr & ->).
    destruct (build_spec (timeSamples intervalMicros)
                (appendTimeEntryToSamples intervalMicros) (topDownRoot prof) t
                (appendTime_onEntry intervalMicros) Ht) as (st & Hb & HInv & _).
    destruct (build_from _ _ _ _ _ _ (appendTime_onEntry intervalMicros) Ht Hstr Hb)
      as [HF HS].
    rewrite Hb. eexists. split; [done|]. simpl. split_and!.
    + intros l Hl. by eapply Inv_location_origin.
    + intros f Hf. split; [|by apply HF].
      apply list_elem_of_lookup in Hf as [i Hi].
      by destruct (finv_funs _ _ _ _ (inv_F _ _ _ _ HInv) _ _ Hi) as (_ & ? & _).
    + exact HS.
  - intros prof startTimeNanos durationNanos_ intervalBytes nodes. subst nodes.
    destruct (serializeHeapProfile_build prof startTimeNanos durationNanos_
                intervalBytes) as (t & Ht & Hstr & ->).
    destruct (build_spec heapSamples appendHeapEntryToSamples prof t
                appendHeap_onEntry Ht) as (st & Hb & HInv & _).
    destruct (build_from _ _ _ _ _ _ appendHeap_onEntry Ht Hstr Hb) as [HF HS].
    rewrite Hb. eexists. split; [done|]. simpl. split_and!.
    + intros l Hl. by eapply Inv_location_origin.
    + intros f Hf. split; [|by apply HF].
      apply list_elem_of_lookup in Hf as [i Hi].
      by destruct (finv_funs _ _ _ _ (inv_F _ _ _ _ HInv) _ _ Hi) as (_ & ? & _).
    + exact HS.
Qed.

(** X10. The loop of [serialize] gives every sample the very array of its
    entry and later puts further ids in front of the arrays of other
    entries. For a callback that appends nothing but samples on the array
    of its entry, this sharing is harmless: what a reader finds after the
    loop (the samples, read through the arrays as they end up, and the
    tables) is what a recursive walk with stacks as values computes, which
    visits a node and then its children from the last to the first. *)
Theorem X10_loop_agrees_with_recursive_walk {P : Type}
    (emit : ProfileNode P → Stack → list Sample)
    (appendToSamples : AppendEntryToSamples P) (root : ProfileNode P) t :
  appendsOnEntry emit appendToSamples →
  readState <$> build root appendToSamples t =
  walkForest emit [] (children root) [] (newBuilder t).
Proof.
  intros Happ. by apply build_walk.
Qed.

Lemma X10_witness :
  appendsOnEntry (timeSamples 1000) (appendTimeEntryToSamples 1000) ∧
  readState <$> build (topDownRoot wallExample) (appendTimeEntryToSamples 1000)
                  newStringTable =
  walkForest (timeSamples 1000) [] (children (topDownRoot wallExample)) []
    (newBuilder newStringTable).
Proof.
  split; [exact (appendTime_onEntry 1000)|].
  exact (X10_loop_agrees_with_recursive_walk (timeSamples 1000)
           (appendTimeEntryToSamples 1000) (topDownRoot wallExample)
           newStringTable (appendTime_onEntry 1000)).
Defined.

(** ** The native tables *)

Section IndexedByKeys.
Context `{Countable K}.
Implicit Types (m : gmap K Z) (ks : list K) (k : K).

Lemma IndexedBy_empty off : IndexedBy (K:=K) off ∅ [].
Proof. intros k id. rewrite lookup_empty. split; [done|]. by intros [_ ?]. Qed.

Lemma IndexedBy_range off m ks k id :
  IndexedBy off m ks → m !! k = Some id → off ≤ id < off + Z.of_nat (length ks).
Proof.
  intros Hm Hk. apply Hm in Hk as [? Hk].
  apply lookup_lt_Some in Hk. lia.
Qed.

Lemma IndexedBy_inj off m ks k1 k2 id :
  IndexedBy off m ks → m !! k1 = Some id → m !! k2 = Some id → k1 = k2.
Proof.
  intros HI H1 H2. apply HI in H1 as [_ H1]. apply HI in H2 as [_ H2].
  congruence.
Qed.

Lemma IndexedBy_insert off m ks k :
  IndexedBy off m ks → m !! k = None →
  IndexedBy off (<[k := Z.of_nat (length ks) + off]> m) (ks ++ [k]).
Proof.
  intros Hm Hk k' id. destruct (decide (k = k')) as [<-|Hne].
  - rewrite lookup_insert_eq. split.
    + intros [= <-]. split; [lia|].
      replace (Z.to_nat (Z.of_nat (length ks) + off - off)) with (length ks) by lia.
      by rewrite lookup_app_r, Nat.sub_diag.
    + intros [Hoff Hl].
      destruct (decide (Z.to_nat (id - off) < length ks)%nat) as [Hlt|Hge].
      * rewrite lookup_app_l in Hl by done.
        assert (m !! k = Some id) as Hc by (by apply Hm). congruence.
      * apply lookup_lt_Some in Hl as Hlen. rewrite length_app in Hlen.
        simpl in Hlen. f_equal. lia.
  - rewrite lookup_insert_ne by done. rewrite (Hm k' id). split.
    + intros [Hoff Hl]. split; [done|]. by apply lookup_app_l_Some.
    + intros [Hoff Hl]. split; [done|].
      destruct (decide (Z.to_nat (id - off) < length ks)%nat) as [Hlt|Hge].
      * by rewrite lookup_app_l in Hl.
      * rewrite lookup_app_r in Hl by lia.
        apply list_lookup_singleton_Some in Hl as [_ ?]. done.
Qed.

Lemma IndexedBy_NoDup off m ks : IndexedBy off m ks → NoDup ks.
Proof.
  intros Hm. apply NoDup_alt. intros i j k Hi Hj.
  assert (m !! k = Some (Z.of_nat i + off)) as Hi'.
  { apply Hm. split; [lia|].
    by replace (Z.to_nat (Z.of_nat i + off - off)) with i by lia. }
  assert (m !! k = Some (Z.of_nat j + off)) as Hj'.
  { apply Hm. split; [lia|].
    by replace (Z.to_nat (Z.of_nat j + off - off)) with j by lia. }
  rewrite Hi' in Hj'. simplify_eq. lia.
Qed.

(** A key keeps its number when the list of keys grows. *)
Lemma IndexedBy_later off m ks m' ks' k id :
  IndexedBy off m ks → IndexedBy off m' ks' → ks `prefix_of` ks' →
  m !! k = Some id → m' !! k = Some id.
Proof.
  intros Hm Hm' Hpre Hk. apply Hm in Hk as [Hoff Hk]. apply Hm'.
  split; [done|]. by eapply prefix_lookup_Some.
Qed.

End IndexedByKeys.

Section NativeTables.
Implicit Types (p : Cpp.Profile) (node : Cpp.Node).
Implicit Types (fks : list (Z * string)) (lks : list (Z * Z * Z * string)).

Lemma cpp_stringID_tables s p fks lks :
  CppTables p fks lks →
  CppTables (Cpp.stringID s p).2 fks lks ∧
  Cpp.strings p `prefix_of` Cpp.strings (Cpp.stringID s p).2 ∧
  0 ≤ (Cpp.stringID s p).1 ∧
  Cpp.strings (Cpp.stringID s p).2 !! Z.to_nat (Cpp.stringID s p).1 = Some s ∧
  Cpp.sampleType (Cpp.stringID s p).2 = Cpp.sampleType p ∧
  Cpp.periodType (Cpp.stringID s p).2 = Cpp.periodType p ∧
  Cpp.dropFramesX (Cpp.stringID s p).2 = Cpp.dropFramesX p ∧
  Cpp.keepFramesX (Cpp.stringID s p).2 = Cpp.keepFramesX p.
Proof.
  intros Hp. unfold Cpp.stringID.
  destruct (Cpp.stringIDMap p !! s) as [id|] eqn:Hlk; simpl.
  - apply (ct_strings _ _ _ Hp) in Hlk as [H0 Hlk].
    replace (id - 0) with id in Hlk by lia. done.
  - destruct Hp as [Hs Hfk Hfl Hf Hlk' Hll Hl].
    split_and!; try done.
    + split; simpl; try done.
      * pose proof (IndexedBy_insert 0 _ _ s Hs Hlk) as Hi.
        by replace (Z.of_nat (length (Cpp.strings p)) + 0)
             with (Z.of_nat (length (Cpp.strings p))) in Hi by lia.
      * intros i f k Hi Hk. destruct (Hf i f k Hi Hk) as (? & ? & ? & Hn).
        split_and!; try done. by apply lookup_app_l_Some.
    + by apply prefix_app_r.
    + lia.
    + rewrite Nat2Z.id. by rewrite lookup_app_r, Nat.sub_diag.
Qed.

Lemma cpp_functionID_tables node p fks lks :
  CppTables p fks lks →
  ∃ fks', CppTables (Cpp.functionID node p).2 fks' lks ∧ fks `prefix_of` fks' ∧
    Cpp.strings p `prefix_of` Cpp.strings (Cpp.functionID node p).2 ∧
    Cpp.functionIDMap (Cpp.functionID node p).2 !! cppFunctionKey node =
      Some (Cpp.functionID node p).1 ∧
    Cpp.sampleType (Cpp.functionID node p).2 = Cpp.sampleType p ∧
    Cpp.periodType (Cpp.functionID node p).2 = Cpp.periodType p ∧
    Cpp.dropFramesX (Cpp.functionID node p).2 = Cpp.dropFramesX p ∧
    Cpp.keepFramesX (Cpp.functionID node p).2 = Cpp.keepFramesX p.
Proof.
  intros Hp. unfold Cpp.functionID. fold (cppFunctionKey node).
  destruct (Cpp.functionIDMap p !! cppFunctionKey node) as [id|] eqn:Hlk; simpl.
  - exists fks. done.
  - destruct (cpp_stringID_tables (Cpp.name node) p fks lks Hp)
      as (Hp1 & Hpre1 & Hn0 & Hn & Hst1 & Hpt1 & Hd1 & Hk1).
    pose proof (cpp_stringID_other (Cpp.name node) p) as (Hf1 & Hfm1 & _).
    destruct (Cpp.stringID (Cpp.name node) p) as [nameX p1]. simpl in *.
    destruct (cpp_stringID_tables (Cpp.filename node) p1 fks lks Hp1)
      as (Hp2 & Hpre2 & _ & _ & Hst2 & Hpt2 & Hd2 & Hk2).
    pose proof (cpp_stringID_other (Cpp.filename node) p1) as (Hf2 & Hfm2 & _).
    destruct (Cpp.stringID (Cpp.filename node) p1) as [filenameX p2]. simpl in *.
    assert (Cpp.functionIDMap p2 !! cppFunctionKey node = None) as Hlk2
      by congruence.
    destruct Hp2 as [Hs Hfk Hfl Hf Hlk' Hll Hl].
    exists (fks ++ [cppFunctionKey node]). split_and!; simpl; try congruence.
    + split; simpl; try done.
      * rewrite Hfl. by apply IndexedBy_insert.
      * rewrite !length_app. simpl. lia.
      * intros i f k Hi Hk.
        destruct (decide (i < length fks)%nat) as [Hlt|Hge].
        -- rewrite lookup_app_l in Hi by lia. rewrite lookup_app_l in Hk by done.
           by eapply Hf.
        -- rewrite lookup_app_r in Hi by lia. rewrite lookup_app_r in Hk by lia.
           apply list_lookup_singleton_Some in Hi as [Hi <-].
           apply list_lookup_singleton_Some in Hk as [_ <-]. simpl.
           split_and!; try done; [lia|]. by eapply prefix_lookup_Some.
      * intros i l k Hi Hk. destruct (Hl i l k Hi Hk) as (fid & -> & Hfid).
        exists fid. split; [done|]. rewrite lookup_insert_ne; [done|].
        intros Heq. rewrite <-Heq in Hfid. congruence.
    + by apply prefix_app_r.
    + by etrans.
    + by rewrite lookup_insert_eq.
Qed.

Lemma cpp_locationID_tables node p fks lks :
  CppTables p fks lks →
  ∃ fks' lks', CppTables (Cpp.locationID node p).2 fks' lks' ∧
    fks `prefix_of` fks' ∧ lks `prefix_of` lks' ∧
    Cpp.strings p `prefix_of` Cpp.strings (Cpp.locationID node p).2 ∧
    Cpp.locationIDMap (Cpp.locationID node p).2 !! cppLocationKey node =
      Some (Cpp.locationID node p).1 ∧
    Cpp.sampleType (Cpp.locationID node p).2 = Cpp.sampleType p ∧
    Cpp.periodType (Cpp.locationID node p).2 = Cpp.periodType p ∧
    Cpp.dropFramesX (Cpp.locationID node p).2 = Cpp.dropFramesX p ∧
    Cpp.keepFramesX (Cpp.locationID node p).2 = Cpp.keepFramesX p.
Proof.
  intros Hp. unfold Cpp.locationID. fold (cppLocationKey node).
  destruct (Cpp.locationIDMap p !! cppLocationKey node) as [id|] eqn:Hlk; simpl.
  - exists fks, lks. done.
  - unfold Cpp.lineOf.
    destruct (cpp_functionID_tables node p fks lks Hp)
      as (fks' & Hp1 & Hpre & Hstr & Hfid & Hst & Hpt & Hd & Hk).
    pose proof (cpp_functionID_other node p) as (Hl1 & Hlm1).
    destruct (Cpp.functionID node p) as [fid p1]. simpl in *.
    assert (Cpp.locationIDMap p1 !! cppLocationKey node = None) as Hlk1
      by congruence.
    destruct Hp1 as [Hs Hfk Hfl Hf Hlk' Hll Hl].
    exists fks', (lks ++ [cppLocationKey node]). split_and!; simpl; try done.
    + split; simpl; try done.
      * rewrite <-Hl1, Hll. by apply IndexedBy_insert.
      * rewrite !length_app. simpl. lia.
      * intros i l k Hi Hk'.
        destruct (decide (i < length lks)%nat) as [Hlt|Hge].
        -- rewrite lookup_app_l in Hi by lia. rewrite lookup_app_l in Hk' by done.
           by eapply Hl.
        -- rewrite lookup_app_r in Hi by lia. rewrite lookup_app_r in Hk' by lia.
           apply list_lookup_singleton_Some in Hi as [Hi <-].
           apply list_lookup_singleton_Some in Hk' as [_ <-]. simpl.
           exists fid. split; [|done]. rewrite <-Hl1. do 2 f_equal. lia.
    + by apply prefix_app_r.
    + by rewrite lookup_insert_eq.
Qed.

End NativeTables.

Section NativeCalls.
Implicit Types (p : Cpp.Profile) (node : Cpp.Node).
Implicit Types (fks : list (Z * string)) (lks : list (Z * Z * Z * string)).

Lemma CppLater_refl p fks lks : CppTables p fks lks → CppLater p fks lks p fks lks.
Proof. intros Hp. by split. Qed.

Lemma CppLater_trans p1 fks1 lks1 p2 fks2 lks2 p3 fks3 lks3 :
  CppLater p1 fks1 lks1 p2 fks2 lks2 → CppLater p2 fks2 lks2 p3 fks3 lks3 →
  CppLater p1 fks1 lks1 p3 fks3 lks3.
Proof.
  intros [] []. split; try done; try (by etrans); congruence.
Qed.

Lemma cpp_functionID_grows node p :
  Cpp.function p `prefix_of` Cpp.function (Cpp.functionID node p).2.
Proof.
  unfold Cpp.functionID.
  destruct (Cpp.functionIDMap p !! _); [done|].
  pose proof (cpp_stringID_other (Cpp.name node) p) as (H1 & _).
  destruct (Cpp.stringID (Cpp.name node) p) as [nameX p1]. simpl in *.
  pose proof (cpp_stringID_other (Cpp.filename node) p1) as (H2 & _).
  destruct (Cpp.stringID (Cpp.filename node) p1) as [filenameX p2]. simpl in *.
  rewrite H2, H1. by apply prefix_app_r.
Qed.

Lemma cpp_locationID_grows node p :
  Cpp.function p `prefix_of` Cpp.function (Cpp.locationID node p).2 ∧
  Cpp.location p `prefix_of` Cpp.location (Cpp.locationID node p).2.
Proof.
  unfold Cpp.locationID.
  destruct (Cpp.locationIDMap p !! _); [done|]. unfold Cpp.lineOf.
  pose proof (cpp_functionID_grows node p) as Hf.
  pose proof (cpp_functionID_other node p) as (Hl & _).
  destruct (Cpp.functionID node p) as [fid p1]. simpl in *.
  split; [done|]. rewrite Hl. by apply prefix_app_r.
Qed.

Lemma cpp_stringID_later s p fks lks :
  CppTables p fks lks → CppLater p fks lks (Cpp.stringID s p).2 fks lks.
Proof.
  intros Hp.
  destruct (cpp_stringID_tables s p fks lks Hp)
    as (Hp' & Hpre & _ & _ & Hst & Hpt & Hd & Hk).
  pose proof (cpp_stringID_other s p) as (Hf & _ & Hl & _).
  split; try done; by rewrite ?Hst, ?Hf, ?Hl.
Qed.

Lemma cpp_functionID_later node p fks lks :
  CppTables p fks lks →
  ∃ fks', CppLater p fks lks (Cpp.functionID node p).2 fks' lks.
Proof.
  intros Hp.
  destruct (cpp_functionID_tables node p fks lks Hp)
    as (fks' & Hp' & Hfks & Hpre & _ & Hst & Hpt & Hd & Hk).
  pose proof (cpp_functionID_other node p) as (Hl & _).
  exists fks'. split; try done; [apply cpp_functionID_grows|by rewrite Hl|by rewrite Hst].
Qed.

Lemma cpp_locationID_later node p fks lks :
  CppTables p fks lks →
  ∃ fks' lks', CppLater p fks lks (Cpp.locationID node p).2 fks' lks'.
Proof.
  intros Hp.
  destruct (cpp_locationID_tables node p fks lks Hp)
    as (fks' & lks' & Hp' & Hfks & Hlks & Hpre & _ & Hst & Hpt & Hd & Hk).
  exists fks', lks'.
  split; try done; [apply cpp_locationID_grows..|by rewrite Hst].
Qed.

Lemma cpp_addSampleType_tables type unit p fks lks :
  CppTables p fks lks →
  CppLater p fks lks (Cpp.addSampleType type unit p) fks lks ∧
  ∃ vt, Cpp.sampleType (Cpp.addSampleType type unit p) = Cpp.sampleType p ++ [vt] ∧
    valueTypeNames (Cpp.strings (Cpp.addSampleType type unit p)) vt =
      Some (type, unit).
Proof.
  intros Hp. unfold Cpp.addSampleType.
  destruct (cpp_stringID_tables type p fks lks Hp)
    as (Hp1 & Hpre1 & Ht0 & Ht & Hst1 & Hpt1 & Hd1 & Hk1).
  pose proof (cpp_stringID_other type p) as (Hf1 & _ & Hl1 & _).
  destruct (Cpp.stringID type p) as [typeX p1]. simpl in *.
  destruct (cpp_stringID_tables unit p1 fks lks Hp1)
    as (Hp2 & Hpre2 & Hu0 & Hu & Hst2 & Hpt2 & Hd2 & Hk2).
  pose proof (cpp_stringID_other unit p1) as (Hf2 & _ & Hl2 & _).
  destruct (Cpp.stringID unit p1) as [unitX p2]. simpl in *.
  split.
  - split; simpl; try congruence; try (by etrans).
    + by destruct Hp2.
    + by rewrite Hf2, Hf1.
    + by rewrite Hl2, Hl1.
    + rewrite Hst2, Hst1. by apply prefix_app_r.
  - eexists. split; [by rewrite Hst2, Hst1|].
    unfold valueTypeNames. simpl.
    rewrite (proj2 (arrayGet_Some _ typeX type)); simpl.
    + by rewrite (proj2 (arrayGet_Some _ unitX unit)).
    + split; [done|]. by eapply prefix_lookup_Some.
Qed.

Lemma nativeCall_later c p fks lks :
  CppTables p fks lks →
  ∃ fks' lks', CppLater p fks lks (nativeCall p c) fks' lks'.
Proof.
  intros Hp. destruct c as [[s|node|node]|type unit]; simpl.
  - exists fks, lks. by apply cpp_stringID_later.
  - destruct (cpp_functionID_later node p fks lks Hp) as (fks' & H').
    by exists fks', lks.
  - by apply cpp_locationID_later.
  - exists fks, lks. by apply cpp_addSampleType_tables.
Qed.

Lemma nativeCalls_later calls p fks lks :
  CppTables p fks lks →
  ∃ fks' lks', CppLater p fks lks (nativeCalls calls p) fks' lks'.
Proof.
  revert p fks lks. induction calls as [|c calls IH]; intros p fks lks Hp.
  - exists fks, lks. by apply CppLater_refl.
  - simpl. destruct (nativeCall_later c p fks lks Hp) as (fks1 & lks1 & H1).
    destruct (IH _ _ _ (later_tables _ _ _ _ _ _ H1)) as (fks2 & lks2 & H2).
    exists fks2, lks2. by eapply CppLater_trans.
Qed.

Lemma cpp_newProfile_tables pt pu per tn dn df kf :
  let p := Cpp.newProfile pt pu per tn dn df kf in
  CppTables p [] [] ∧
  valueTypeNames (Cpp.strings p) (Cpp.periodType p) = Some (pt, pu) ∧
  arrayGet (Cpp.strings p) (Cpp.dropFramesX p) = Some df ∧
  arrayGet (Cpp.strings p) (Cpp.keepFramesX p) = Some kf ∧
  Cpp.sampleType p = [].
Proof.
  unfold Cpp.newProfile.
  match goal with |- context [Cpp.stringID "" ?p0] =>
    assert (CppTables p0 [] []) as H0
  end.
  { split; simpl; try done; try apply IndexedBy_empty;
      by intros ??? ?%lookup_nil_Some. }
  destruct (cpp_stringID_tables "" _ _ _ H0)
    as (H1 & _ & _ & _ & Hs1 & _).
  destruct (Cpp.stringID "" _) as [i0 p1]. simpl in *.
  destruct (cpp_stringID_tables pt _ _ _ H1)
    as (H2 & _ & Ht0 & Ht & Hs2 & _).
  destruct (Cpp.stringID pt p1) as [typeX p2]. simpl in *.
  destruct (cpp_stringID_tables pu _ _ _ H2)
    as (H3 & Hpre3 & Hu0 & Hu & Hs3 & _).
  destruct (Cpp.stringID pu p2) as [unitX p3]. simpl in *.
  destruct (cpp_stringID_tables df _ _ _ H3)
    as (H4 & Hpre4 & Hd0 & Hd & Hs4 & _).
  destruct (Cpp.stringID df p3) as [dropX p4]. simpl in *.
  destruct (cpp_stringID_tables kf _ _ _ H4)
    as (H5 & Hpre5 & Hk0 & Hk & Hs5 & _).
  destruct (Cpp.stringID kf p4) as [keepX p5]. simpl in *.
  split_and!.
  - destruct H5. by split.
  - unfold valueTypeNames. simpl.
    rewrite (proj2 (arrayGet_Some _ typeX pt)); simpl.
    + rewrite (proj2 (arrayGet_Some _ unitX pu)); [done|].
      split; [done|]. eapply prefix_lookup_Some; [done|]. by etrans.
    + split; [done|]. eapply prefix_lookup_Some; [done|].
      etrans; [done|]. by etrans.
  - apply arrayGet_Some. split; [done|]. by eapply prefix_lookup_Some.
  - by apply arrayGet_Some.
  - congruence.
Qed.

(** The strings a value type points to stay the same when the string table
    grows. *)
Lemma valueTypeNames_later (strs strs' : list string) vt r :
  strs `prefix_of` strs' → valueTypeNames strs vt = Some r →
  valueTypeNames strs' vt = Some r.
Proof.
  intros Hpre. unfold valueTypeNames.
  destruct (arrayGet strs (vt_type vt)) as [ty|] eqn:Ety; simpl; [|done].
  destruct (arrayGet strs (vt_unit vt)) as [un|] eqn:Eun; simpl; [|done].
  intros [= <-].
  apply arrayGet_Some in Ety as [? Ety]. apply arrayGet_Some in Eun as [? Eun].
  rewrite (proj2 (arrayGet_Some strs' (vt_type vt) ty)); simpl.
  - by rewrite (proj2 (arrayGet_Some strs' (vt_unit vt) un))
      by (split; [done|by eapply prefix_lookup_Some]).
  - split; [done|by eapply prefix_lookup_Some].
Qed.

End NativeCalls.

(** ** Further properties of the native profile *)

(** X11. In a native profile reached from the constructor by any calls of
    [stringID], [functionID], [locationID] and [addSampleType],
    [stringID(s)] returns an index at which the string table then holds [s];
    a string that is in the table leaves the profile as it is, a string
    that is not is appended at the end; the table never holds a string
    twice; and after any further calls [stringID(s)] still returns the
    same index and changes nothing. *)
Theorem X11_native_string_lookup_after_insert pt pu per tn dn df kf calls s :
  let p := nativeCalls calls (Cpp.newProfile pt pu per tn dn df kf) in
  let i := (Cpp.stringID s p).1 in
  let p' := (Cpp.stringID s p).2 in
  0 ≤ i ∧ Cpp.strings p' !! Z.to_nat i = Some s ∧
  NoDup (Cpp.strings p') ∧
  (s ∈ Cpp.strings p → p' = p) ∧
  (s ∉ Cpp.strings p →
     Cpp.strings p' = Cpp.strings p ++ [s] ∧
     i = Z.of_nat (length (Cpp.strings p))) ∧
  ∀ calls', Cpp.stringID s (nativeCalls calls' p') = (i, nativeCalls calls' p').
Proof.
  intros p i p'.
  destruct (cpp_newProfile_tables pt pu per tn dn df kf) as (H0 & _).
  destruct (nativeCalls_later calls _ _ _ H0) as (fks & lks & Hl). fold p in Hl.
  pose proof (later_tables _ _ _ _ _ _ Hl) as Hp.
  destruct (cpp_stringID_tables s p fks lks Hp) as (Hp' & Hpre & Hi0 & Hi & _).
  fold i p' in Hp', Hpre, Hi0, Hi.
  split_and!; [done|done|exact (IndexedBy_NoDup _ _ _ (ct_strings _ _ _ Hp'))|..].
  - intros [j Hj]%list_elem_of_lookup. subst p'. unfold Cpp.stringID.
    assert (Cpp.stringIDMap p !! s = Some (Z.of_nat j)) as ->; [|done].
    apply (ct_strings _ _ _ Hp). split; [lia|].
    by replace (Z.to_nat (Z.of_nat j - 0)) with j by lia.
  - intros Hs. subst i p'. unfold Cpp.stringID.
    destruct (Cpp.stringIDMap p !! s) as [j|] eqn:E; [|done].
    apply (ct_strings _ _ _ Hp) in E as [_ E].
    apply list_elem_of_lookup_2 in E. done.
  - intros calls'.
    destruct (nativeCalls_later calls' _ _ _ Hp') as (fks' & lks' & Hl').
    pose proof (later_tables _ _ _ _ _ _ Hl') as Hp''.
    unfold Cpp.stringID at 1.
    assert (Cpp.stringIDMap (nativeCalls calls' p') !! s = Some i) as ->; [|done].
    apply (ct_strings _ _ _ Hp''). split; [done|].
    replace (i - 0) with i by lia.
    eapply prefix_lookup_Some; [done|]. apply (later_strings _ _ _ _ _ _ Hl').
Qed.

(** X12. In a native profile reached from the constructor by any calls,
    [locationID] of a node, and then after any further calls [locationID]
    of a second node, return the same id exactly when the two nodes agree
    on file id, line number, column number and name; the same holds for
    [functionID] and agreement on file id and name. *)
Theorem X12_native_ids_shared_iff_same_key pt pu per tn dn df kf calls calls'
    n1 n2 :
  let p := nativeCalls calls (Cpp.newProfile pt pu per tn dn df kf) in
  ((Cpp.locationID n2 (nativeCalls calls' (Cpp.locationID n1 p).2)).1 =
     (Cpp.locationID n1 p).1 ↔
   Cpp.getFileID n1 = Cpp.getFileID n2 ∧ Cpp.lineNumber n1 = Cpp.lineNumber n2 ∧
   Cpp.columnNumber n1 = Cpp.columnNumber n2 ∧ Cpp.name n1 = Cpp.name n2) ∧
  ((Cpp.functionID n2 (nativeCalls calls' (Cpp.functionID n1 p).2)).1 =
     (Cpp.functionID n1 p).1 ↔
   Cpp.getFileID n1 = Cpp.getFileID n2 ∧ Cpp.name n1 = Cpp.name n2).
Proof.
  intros p.
  destruct (cpp_newProfile_tables pt pu per tn dn df kf) as (H0 & _).
  destruct (nativeCalls_later calls _ _ _ H0) as (fks & lks & Hl). fold p in Hl.
  pose proof (later_tables _ _ _ _ _ _ Hl) as Hp.
  split.
  - destruct (cpp_locationID_tables n1 p fks lks Hp)
      as (fks1 & lks1 & Hp1 & _ & _ & _ & Hid1 & _).
    destruct (nativeCalls_later calls' _ _ _ Hp1) as (fks2 & lks2 & Hl2).
    pose proof (later_tables _ _ _ _ _ _ Hl2) as Hp2.
    pose proof (IndexedBy_later _ _ _ _ _ _ _ (ct_lkeys _ _ _ Hp1)
                  (ct_lkeys _ _ _ Hp2) (later_lks _ _ _ _ _ _ Hl2) Hid1) as Hid2.
    set (q := nativeCalls calls' (Cpp.locationID n1 p).2) in *.
    destruct (cpp_locationID_tables n2 q fks2 lks2 Hp2)
      as (fks3 & lks3 & Hp3 & _ & Hlks3 & _ & Hid3 & _).
    pose proof (IndexedBy_later _ _ _ _ _ _ _ (ct_lkeys _ _ _ Hp2)
                  (ct_lkeys _ _ _ Hp3) Hlks3 Hid2) as Hid1'.
    transitivity (cppLocationKey n1 = cppLocationKey n2).
    + split.
      * intros Heq. rewrite Heq in Hid3.
        exact (IndexedBy_inj _ _ _ _ _ _ (ct_lkeys _ _ _ Hp3) Hid1' Hid3).
      * intros Heq. rewrite Heq in Hid1'. congruence.
    + unfold cppLocationKey. split; [by intros [= -> -> -> ->]|].
      by intros (-> & -> & -> & ->).
  - destruct (cpp_functionID_tables n1 p fks lks Hp)
      as (fks1 & Hp1 & _ & _ & Hid1 & _).
    destruct (nativeCalls_later calls' _ _ _ Hp1) as (fks2 & lks2 & Hl2).
    pose proof (later_tables _ _ _ _ _ _ Hl2) as Hp2.
    pose proof (IndexedBy_later _ _ _ _ _ _ _ (ct_fkeys _ _ _ Hp1)
                  (ct_fkeys _ _ _ Hp2) (later_fks _ _ _ _ _ _ Hl2) Hid1) as Hid2.
    set (q := nativeCalls calls' (Cpp.functionID n1 p).2) in *.
    destruct (cpp_functionID_tables n2 q fks2 lks2 Hp2)
      as (fks3 & Hp3 & Hfks3 & _ & Hid3 & _).
    pose proof (IndexedBy_later _ _ _ _ _ _ _ (ct_fkeys _ _ _ Hp2)
                  (ct_fkeys _ _ _ Hp3) Hfks3 Hid2) as Hid1'.
    transitivity (cppFunctionKey n1 = cppFunctionKey n2).
    + split.
      * intros Heq. rewrite Heq in Hid3.
        exact (IndexedBy_inj _ _ _ _ _ _ (ct_fkeys _ _ _ Hp3) Hid1' Hid3).
      * intros Heq. rewrite Heq in Hid1'. congruence.
    + unfold cppFunctionKey. split; [by intros [= -> ->]|].
      by intros (-> & ->).
Qed.

(** X13. After [locationID] of a node, and after any further calls, the
    location table holds under the returned id a location with that id,
    mapping id 0, address 0, not folded, and one line; the line is on the
    line number of the node and names the id that [functionID] of the node
    returns without changing the profile; under this id the function table
    holds a function with this id whose name and system name both point to
    the name of the node. *)
Theorem X13_native_location_of_node pt pu per tn dn df kf calls calls' node :
  let p := nativeCalls calls (Cpp.newProfile pt pu per tn dn df kf) in
  let id := (Cpp.locationID node p).1 in
  let q := nativeCalls calls' (Cpp.locationID node p).2 in
  ∃ fid f,
    arrayGet (Cpp.location q) (id - 1) =
      Some {| Cpp.locID := id; Cpp.mappingID := 0; Cpp.address := 0;
              Cpp.lines := [ {| Cpp.getFunctionID := fid;
                                Cpp.getLine := Cpp.lineNumber node |} ];
              Cpp.isFolded := false |} ∧
    Cpp.functionID node q = (fid, q) ∧
    arrayGet (Cpp.function q) (fid - 1) = Some f ∧
    Cpp.fnID f = fid ∧ Cpp.systemNameX f = Cpp.nameX f ∧
    arrayGet (Cpp.strings q) (Cpp.nameX f) = Some (Cpp.name node).
Proof.
  intros p id q.
  destruct (cpp_newProfile_tables pt pu per tn dn df kf) as (H0 & _).
  destruct (nativeCalls_later calls _ _ _ H0) as (fks & lks & Hl). fold p in Hl.
  pose proof (later_tables _ _ _ _ _ _ Hl) as Hp.
  destruct (cpp_locationID_tables node p fks lks Hp)
    as (fks1 & lks1 & Hp1 & _ & _ & _ & Hid1 & _). fold id in Hid1.
  destruct (nativeCalls_later calls' _ _ _ Hp1) as (fks2 & lks2 & Hl2).
  fold q in Hl2.
  pose proof (later_tables _ _ _ _ _ _ Hl2) as Hq.
  pose proof (IndexedBy_later _ _ _ _ _ _ _ (ct_lkeys _ _ _ Hp1)
                (ct_lkeys _ _ _ Hq) (later_lks _ _ _ _ _ _ Hl2) Hid1) as Hid.
  apply (ct_lkeys _ _ _ Hq) in Hid as [Hid1' Hk].
  pose proof (lookup_lt_Some _ _ _ Hk) as Hlt.
  rewrite <-(ct_llength _ _ _ Hq) in Hlt.
  destruct (lookup_lt_is_Some_2 _ _ Hlt) as [l Hloc].
  destruct (ct_locs _ _ _ Hq _ _ _ Hloc Hk) as (fid & -> & Hfid). simpl in Hfid.
  fold (cppFunctionKey node) in Hfid.
  pose proof Hfid as Hfk. apply (ct_fkeys _ _ _ Hq) in Hfk as [Hfid1 Hfk].
  pose proof (lookup_lt_Some _ _ _ Hfk) as Hflt.
  rewrite <-(ct_flength _ _ _ Hq) in Hflt.
  destruct (lookup_lt_is_Some_2 _ _ Hflt) as [f Hfun].
  destruct (ct_funs _ _ _ Hq _ _ _ Hfun Hfk) as (Hfn & Hsys & Hn0 & Hname).
  exists fid, f. split_and!.
  - apply arrayGet_Some. split; [lia|]. rewrite Hloc. do 2 f_equal. lia.
  - unfold Cpp.functionID. fold (cppFunctionKey node). by rewrite Hfid.
  - apply arrayGet_Some. split; [lia|done].
  - rewrite Hfn. lia.
  - done.
  - by apply arrayGet_Some.
Qed.

(** X14. [addSampleType(type, unit)] appends one sample type and keeps the
    earlier ones, and after any further calls this sample type still points
    to the strings [type] and [unit]; likewise the period type, the
    drop-frames index and the keep-frames index that the constructor set
    point, after any calls, to the strings the constructor was given. *)
Theorem X14_native_value_types_resolve pt pu per tn dn df kf calls calls'
    type unit :
  let p := nativeCalls calls (Cpp.newProfile pt pu per tn dn df kf) in
  let p1 := Cpp.addSampleType type unit p in
  let q := nativeCalls calls' p1 in
  (∃ vt, Cpp.sampleType p1 = Cpp.sampleType p ++ [vt] ∧
         Cpp.sampleType p1 `prefix_of` Cpp.sampleType q ∧
         valueTypeNames (Cpp.strings q) vt = Some (type, unit)) ∧
  valueTypeNames (Cpp.strings q) (Cpp.periodType q) = Some (pt, pu) ∧
  arrayGet (Cpp.strings q) (Cpp.dropFramesX q) = Some df ∧
  arrayGet (Cpp.strings q) (Cpp.keepFramesX q) = Some kf.
Proof.
  intros p p1 q.
  destruct (cpp_newProfile_tables pt pu per tn dn df kf)
    as (H0 & Hpt & Hdf & Hkf & _).
  destruct (nativeCalls_later calls _ _ _ H0) as (fks & lks & Hl). fold p in Hl.
  pose proof (later_tables _ _ _ _ _ _ Hl) as Hp.
  destruct (cpp_addSampleType_tables type unit p fks lks Hp)
    as (Hl1 & vt & Hst & Hvt). fold p1 in Hl1, Hst, Hvt.
  destruct (nativeCalls_later calls' _ _ _ (later_tables _ _ _ _ _ _ Hl1))
    as (fks2 & lks2 & Hl2). fold q in Hl2.
  pose proof (CppLater_trans _ _ _ _ _ _ _ _ _ Hl (CppLater_trans _ _ _ _ _ _ _ _ _ Hl1 Hl2))
    as Hall.
  pose proof (later_strings _ _ _ _ _ _ Hall) as Hpre.
  split_and!.
  - exists vt. split_and!; [done|apply (later_sampleType _ _ _ _ _ _ Hl2)|].
    eapply valueTypeNames_later; [|done]. apply (later_strings _ _ _ _ _ _ Hl2).
  - rewrite (later_periodType _ _ _ _ _ _ Hall).
    by eapply valueTypeNames_later.
  - rewrite (later_dropFramesX _ _ _ _ _ _ Hall).
    apply arrayGet_Some in Hdf as [? Hdf]. apply arrayGet_Some.
    split; [done|]. by eapply prefix_lookup_Some.
  - rewrite (later_keepFramesX _ _ _ _ _ _ Hall).
    apply arrayGet_Some in Hkf as [? Hkf]. apply arrayGet_Some.
    split; [done|]. by eapply prefix_lookup_Some.
Qed.

(** X15. A function keeps what the first node of its key gave it. When
    [functionID] is called for a node whose file id and name have no
    function yet, then after this call and any further calls (of nodes
    with the same file id and name, too) the function table holds under
    the returned id a function with that id, whose start line is the line
    number of this node and whose name and file name point to the name and
    the file name of this node. *)
Theorem X15_native_function_of_first_node pt pu per tn dn df kf calls calls'
    node :
  let p := nativeCalls calls (Cpp.newProfile pt pu per tn dn df kf) in
  let id := (Cpp.functionID node p).1 in
  let q := nativeCalls calls' (Cpp.functionID node p).2 in
  Cpp.functionIDMap p !! (Cpp.getFileID node, Cpp.name node) = None →
  ∃ f,
    arrayGet (Cpp.function q) (id - 1) = Some f ∧
    Cpp.fnID f = id ∧
    Cpp.startLine f = Cpp.lineNumber node ∧
    Cpp.systemNameX f = Cpp.nameX f ∧
    arrayGet (Cpp.strings q) (Cpp.nameX f) = Some (Cpp.name node) ∧
    arrayGet (Cpp.strings q) (Cpp.filenameX f) = Some (Cpp.filename node).
Proof.
  intros p id q Hmiss.
  destruct (cpp_newProfile_tables pt pu per tn dn df kf) as (H0 & _).
  destruct (nativeCalls_later calls _ _ _ H0) as (fks & lks & Hl). fold p in Hl.
  pose proof (later_tables _ _ _ _ _ _ Hl) as Hp.
  destruct (cpp_functionID_later node p fks lks Hp) as (fks1 & Hl1).
  destruct (nativeCalls_later calls' _ _ _ (later_tables _ _ _ _ _ _ Hl1))
    as (fks2 & lks2 & Hl2). fold q in Hl2.
  pose proof (later_function _ _ _ _ _ _ Hl2) as Hfpre.
  pose proof (later_strings _ _ _ _ _ _ Hl2) as Hspre.
  subst id. revert Hfpre Hspre. generalize q. clear Hl2 Hl1. intros q' Hfpre Hspre.
  unfold Cpp.functionID in *. rewrite Hmiss in *.
  destruct (cpp_stringID_tables (Cpp.name node) p fks lks Hp)
    as (Hp1 & _ & Hn0 & Hn & _).
  pose proof (cpp_stringID_other (Cpp.name node) p) as (Hf1 & _).
  destruct (Cpp.stringID (Cpp.name node) p) as [nameX p1]. simpl in *.
  destruct (cpp_stringID_tables (Cpp.filename node) p1 fks lks Hp1)
    as (Hp2 & Hpre2 & Hf0 & Hf & _).
  destruct (Cpp.stringID (Cpp.filename node) p1) as [filenameX p2]. simpl in *.
  eexists. split_and!.
  - apply arrayGet_Some. split; [lia|].
    eapply prefix_lookup_Some; [|done].
    replace (Z.to_nat (Z.of_nat (length (Cpp.function p2)) + 1 - 1))
      with (length (Cpp.function p2)) by lia.
    by rewrite lookup_app_r, Nat.sub_diag.
  - done.
  - done.
  - done.
  - apply arrayGet_Some. split; [done|]. simpl.
    eapply prefix_lookup_Some; [|done]. by eapply prefix_lookup_Some.
  - apply arrayGet_Some. split; [done|]. simpl.
    by eapply prefix_lookup_Some.
Qed.

Lemma X15_witness :
  Cpp.functionIDMap (nativeCalls [] timeNativeProfile)
    !! (Cpp.getFileID firstNode, Cpp.name firstNode) = None ∧
  ∃ f, arrayGet
         (Cpp.function
            (nativeCalls [NativeIntern (CallLocationID secondNode)]
               (Cpp.functionID firstNode (nativeCalls [] timeNativeProfile)).2))
         ((Cpp.functionID firstNode (nativeCalls [] timeNativeProfile)).1 - 1)
       = Some f ∧
       Cpp.startLine f = 10 ∧
       arrayGet
         (Cpp.strings
            (nativeCalls [NativeIntern (CallLocationID secondNode)]
               (Cpp.functionID firstNode (nativeCalls [] timeNativeProfile)).2))
         (Cpp.filenameX f) = Some "a.js".
Proof.
  assert (Cpp.functionIDMap (nativeCalls [] timeNativeProfile)
            !! (Cpp.getFileID firstNode, Cpp.name firstNode) = None)
    as Hmiss by (vm_compute; reflexivity).
  split; [exact Hmiss|].
  destruct (X15_native_function_of_first_node "time" "microseconds" 1000 0 0 "" ""
              [] [NativeIntern (CallLocationID secondNode)] firstNode Hmiss)
    as (f & Hf & _ & Hline & _ & _ & Hfile).
  exists f. split; [exact Hf|]. split; [exact Hline|exact Hfile].
Defined.

(** ** Collection and upload *)

Section CollectProps.
Import Collect.
Implicit Types (w : World) (this : Profiler) (prof : Agent.RequestProfile).




(** What [profile] yields: no event and an error, or one run of a sampler
    with either an error or the request with the bytes filled in. *)
Lemma profile_cases w this prof :
  (∃ err, profile w this prof = ([], Failure err)) ∨
  (∃ e, (e = EvTimeProfile 10000 ∧ Agent.profileType prof = Some "WALL" ∧
         is_Some (timeProfiler this) ∨
         e = EvHeapProfile ∧ Agent.profileType prof = Some "HEAP" ∧
         is_Some (heapProfiler this)) ∧
        ((∃ err, profile w this prof = ([e], Failure err)) ∨
         (∃ bytes, profile w this prof = ([e], Done (setProfileBytes prof bytes))))).
Proof.
  unfold profile.
  destruct (decide (Agent.profileType prof = Some "WALL")) as [Hw|Hw].
  - unfold writeTimeProfile. destruct (timeProfiler this) as [tp|]; [|left; by eexists].
    right. exists (EvTimeProfile 10000). split; [left; by split_and!|].
    change (10 * 1000) with 10000.
    destruct (timeProfile w tp 10000) as [p|err]; [|left; by eexists].
    destruct (profileBytes w p) as [bytes|err]; [right|left]; by eexists.
  - destruct (decide (Agent.profileType prof = Some "HEAP")) as [Hh|Hh];
      [|left; by eexists].
    unfold writeHeapProfile. destruct (heapProfiler this) as [hp|]; [|left; by eexists].
    right. exists EvHeapProfile. split; [right; by split_and!|].
    destruct (heapProfile w hp) as [p|err]; [|left; by eexists].
    destruct (profileBytes w p) as [bytes|err]; [right|left]; by eexists.
Qed.

Lemma newProfiler_fields config :
  profileTypes (newProfiler config) =
    (if disableTime config then [] else ["WALL"]) ++
    (if disableHeap config then [] else ["HEAP"]) ∧
  (is_Some (timeProfiler (newProfiler config)) ↔ disableTime config = false) ∧
  (is_Some (heapProfiler (newProfiler config)) ↔ disableHeap config = false).
Proof.
  unfold newProfiler.
  destruct (disableTime config), (disableHeap config); simpl;
    split_and!; try done; split; try done; by intros [??].
Qed.

End CollectProps.

Section UploadProps.
Import Collect.
Implicit Types (w : World) (this : Profiler) (prof : Agent.RequestProfile).

Lemma profile_events w this prof e :
  e ∈ (profile w this prof).1 → e = EvTimeProfile 10000 ∨ e = EvHeapProfile.
Proof.
  destruct (profile_cases w this prof)
    as [[err ->]|(e' & He & [[err ->]|[bytes ->]])]; simpl.
  - by intros ?%elem_of_nil.
  - intros ->%list_elem_of_singleton. destruct He as [(-> & _)|(-> & _)]; auto.
  - intros ->%list_elem_of_singleton. destruct He as [(-> & _)|(-> & _)]; auto.
Qed.

(** The two ways [profileAndUpload] goes. *)
Lemma profileAndUpload_cases w this prof answer :
  (∃ err, (profile w this prof).2 = Failure err ∧
     profileAndUpload w this prof answer =
       ((profile w this prof).1 ++
          [EvLogDebug ("Error collecting profile: " +:+ err)], true)) ∨
  (∃ bytes logs,
     (profile w this prof).2 = Done (setProfileBytes prof bytes) ∧
     profileAndUpload w this prof answer =
       ((profile w this prof).1 ++
          EvPatch (API +:+ "/" +:+ text (Agent.name prof))
                  (setProfileBytes prof bytes) :: logs,
        bool_decide (is_Some answer)) ∧
     ∀ e, e ∈ logs → ∃ message, e = EvLogDebug message).
Proof.
  unfold profileAndUpload.
  destruct (profile_cases w this prof)
    as [[err ->]|(e & He & [[err ->]|[bytes ->]])]; simpl.
  - left. by eexists.
  - left. by eexists.
  - right. exists bytes.
    destruct answer as [[body response|err]|]; simpl.
    + destruct (Agent.isErrorResponseCode (Agent.statusCode response)).
      * eexists [_]. split_and!; [done..|].
        intros x ->%list_elem_of_singleton. by eexists.
      * exists []. split_and!; [done..|]. by intros x ?%elem_of_nil.
    + eexists [_]. split_and!; [done..|].
      intros x ->%list_elem_of_singleton. by eexists.
    + exists []. split_and!; [done..|]. by intros x ?%elem_of_nil.
Qed.

Lemma profileAndUpload_events w this prof answer e :
  e ∈ (profileAndUpload w this prof answer).1 →
  e = EvTimeProfile 10000 ∨ e = EvHeapProfile ∨
  (∃ message, e = EvLogDebug message) ∨
  (∃ bytes, e = EvPatch (API +:+ "/" +:+ text (Agent.name prof))
                        (setProfileBytes prof bytes) ∧
            (profile w this prof).2 = Done (setProfileBytes prof bytes)).
Proof.
  destruct (profileAndUpload_cases w this prof answer)
    as [(err & Hr & ->)|(bytes & logs & Hr & -> & Hlogs)]; simpl.
  - intros [Hin|Hin%list_elem_of_singleton]%elem_of_app.
    + apply profile_events in Hin as [->| ->]; auto.
    + right. right. left. by eexists.
  - intros [Hin|Hin]%elem_of_app.
    + apply profile_events in Hin as [->| ->]; auto.
    + apply elem_of_cons in Hin as [->|Hin].
      * right. right. right. by exists bytes.
      * right. right. left. by apply Hlogs.
Qed.

End UploadProps.

(** X16. A profiler made by the constructor announces "WALL" unless time
    profiling is disabled and "HEAP" unless heap profiling is disabled, in
    this order, and [profile] runs a sampler exactly for a request whose
    type is one of the announced ones. For an announced "WALL" it runs the
    time sampler, made with the configured interval, once and for
    10000 ms, whatever duration the request names; for an announced "HEAP"
    it runs the heap sampler, made with the configured interval and stack
    depth, once; each time it does nothing else, and returns the request
    with the encoded profile, or throws the error of the sampler or of the
    encoding. For any other request it throws without running a sampler. *)
Theorem X16_profile_runs_announced_types_only config w nm ty du bs lb :
  let this := Collect.newProfiler config in
  let prof := {| Agent.name := nm; Agent.profileType := ty;
                 Agent.duration := du; Agent.profileBytes := bs;
                 Agent.labels := lb |} in
  Collect.profileTypes this =
    (if Collect.disableTime config then [] else ["WALL"]) ++
    (if Collect.disableHeap config then [] else ["HEAP"]) ∧
  (ty = Some "WALL" → "WALL" ∈ Collect.profileTypes this →
   Collect.profile w this prof =
     ([Collect.EvTimeProfile 10000],
      withBytes w prof
        (Collect.timeProfile w
           {| Collect.intervalMicros := Collect.timeIntervalMicros config |}
           10000))) ∧
  (ty = Some "HEAP" → "HEAP" ∈ Collect.profileTypes this →
   Collect.profile w this prof =
     ([Collect.EvHeapProfile],
      withBytes w prof
        (Collect.heapProfile w
           {| Collect.intervalBytes := Collect.heapIntervalBytes config;
              Collect.stackDepth := Collect.heapMaxStackDepth config |}))) ∧
  ((∃ t, ty = Some t ∧ t ∈ Collect.profileTypes this) ↔
   ∃ e, (Collect.profile w this prof).1 = [e]) ∧
  ((¬ ∃ t, ty = Some t ∧ t ∈ Collect.profileTypes this) →
   ∃ err, Collect.profile w this prof = ([], Collect.Failure err)) ∧
  (∀ d, Collect.EvTimeProfile d ∈ (Collect.profile w this prof).1 →
        d = 10000 ∧ ty = Some "WALL") ∧
  (Collect.EvHeapProfile ∈ (Collect.profile w this prof).1 → ty = Some "HEAP").
Proof.
  intros this prof.
  destruct (newProfiler_fields config) as (Htypes & Htime & Hheap).
  fold this in Htypes, Htime, Hheap.
  assert ((∃ t, ty = Some t ∧ t ∈ Collect.profileTypes this) ↔
          (ty = Some "WALL" ∧ is_Some (Collect.timeProfiler this)) ∨
          (ty = Some "HEAP" ∧ is_Some (Collect.heapProfiler this))) as Hann.
  { rewrite Htypes, Htime, Hheap. split.
    - intros (t & -> & Ht).
      destruct (Collect.disableTime config), (Collect.disableHeap config);
        simpl in Ht;
        repeat (apply elem_of_cons in Ht as [->|Ht]);
        try (by apply elem_of_nil in Ht); auto.
    - intros [[-> ->]|[-> ->]].
      + exists "WALL". split; [done|]. simpl. by left.
      + exists "HEAP". split; [done|].
        destruct (Collect.disableTime config); simpl;
          [by left|right; by left]. }
  assert ((ty = Some "WALL" → "WALL" ∈ Collect.profileTypes this →
           Collect.profile w this prof =
             ([Collect.EvTimeProfile 10000],
              withBytes w prof
                (Collect.timeProfile w
                   {| Collect.intervalMicros := Collect.timeIntervalMicros config |}
                   10000))) ∧
          (ty = Some "HEAP" → "HEAP" ∈ Collect.profileTypes this →
           Collect.profile w this prof =
             ([Collect.EvHeapProfile],
              withBytes w prof
                (Collect.heapProfile w
                   {| Collect.intervalBytes := Collect.heapIntervalBytes config;
                      Collect.stackDepth := Collect.heapMaxStackDepth config |}))))
    as [Hwall Hheapr].
  { split.
    - intros Hty Hin.
      assert (Collect.disableTime config = false) as Hdt.
      { rewrite Htypes in Hin.
        destruct (Collect.disableTime config); [|done].
        destruct (Collect.disableHeap config); simpl in Hin.
        - by apply elem_of_nil in Hin.
        - by apply list_elem_of_singleton in Hin. }
      subst this prof ty.
      unfold Collect.profile, Collect.writeTimeProfile, Collect.newProfiler,
        withBytes.
      simpl. rewrite Hdt. simpl.
      change (10 * 1000) with 10000.
      destruct (Collect.disableHeap config); simpl;
        (destruct (Collect.timeProfile w _ 10000) as [p|]; [|done]);
        by destruct (Collect.profileBytes w p).
    - intros Hty Hin.
      assert (Collect.disableHeap config = false) as Hdh.
      { rewrite Htypes in Hin.
        destruct (Collect.disableHeap config); [|done].
        destruct (Collect.disableTime config); simpl in Hin.
        - by apply elem_of_nil in Hin.
        - by apply list_elem_of_singleton in Hin. }
      subst this prof ty.
      unfold Collect.profile, Collect.writeHeapProfile, Collect.newProfiler,
        withBytes.
      simpl. rewrite Hdh. simpl.
      destruct (Collect.disableTime config); simpl;
        (destruct (Collect.heapProfile w _) as [p|]; [|done]);
        by destruct (Collect.profileBytes w p). }
  destruct (profile_cases w this prof)
    as [[err Hrun]|(e & He & Hrun)].
  - assert (¬ ∃ t, ty = Some t ∧ t ∈ Collect.profileTypes this) as Hno.
    { rewrite Hann. intros [[-> Htp]|[-> Hhp]].
      - unfold Collect.profile, Collect.writeTimeProfile in Hrun. simpl in Hrun.
        destruct Htp as [tp Htp]. rewrite Htp in Hrun.
        destruct (Collect.timeProfile w tp (10 * 1000)) as [p|]; [|done].
        by destruct (Collect.profileBytes w p).
      - unfold Collect.profile, Collect.writeHeapProfile in Hrun. simpl in Hrun.
        destruct Hhp as [hp Hhp]. rewrite Hhp in Hrun.
        destruct (Collect.heapProfile w hp) as [p|]; [|done].
        by destruct (Collect.profileBytes w p). }
    rewrite Hrun. simpl. rewrite Hrun in Hwall, Hheapr.
    split_and!; [done|exact Hwall|exact Hheapr| |by eexists|..].
    + split; [done|]. by intros [e ?].
    + intros d Hd. by apply elem_of_nil in Hd.
    + intros Hd. by apply elem_of_nil in Hd.
  - assert ((Collect.profile w this prof).1 = [e]) as Hev.
    { by destruct Hrun as [[err ->]|[bytes ->]]. }
    rewrite Hev. simpl in He.
    split_and!; [done|exact Hwall|exact Hheapr|..].
    + split; [by eexists|]. intros _. apply Hann.
      destruct He as [(_ & ? & ?)|(_ & ? & ?)]; [by left|by right].
    + intros Hno. exfalso. apply Hno, Hann.
      destruct He as [(_ & ? & ?)|(_ & ? & ?)]; [by left|by right].
    + intros d Hd%list_elem_of_singleton.
      destruct He as [(He & ? & _)|(He & _)]; rewrite He in Hd; [|done].
      by injection Hd as ->.
    + intros Hd%list_elem_of_singleton.
      destruct He as [(He & _)|(_ & ? & _)]; [|done]. by rewrite He in Hd.
Qed.


(** X17. [profileAndUpload] first does what [profile] does. It sends an
    upload request exactly when [profile] returned, and then one only: a
    PATCH to the API address followed by the name of the request, whose
    body is the request it was given with nothing but [profileBytes]
    changed. When [profile] threw, it logs the error and sends nothing.
    The call comes to its end unless that upload request is never
    answered. *)
Theorem X17_upload_exactly_what_was_collected w this prof answer :
  let run := Collect.profile w this prof in
  let events := (Collect.profileAndUpload w this prof answer).1 in
  run.1 `prefix_of` events ∧
  (∀ uri body, Collect.EvPatch uri body ∈ events →
     run.2 = Collect.Done body ∧
     (∃ bytes, body = Collect.setProfileBytes prof bytes) ∧
     uri = Collect.API +:+ "/" +:+ Collect.text (Agent.name prof)) ∧
  (∀ body, run.2 = Collect.Done body →
     ∃ logs, events =
       run.1 ++
       Collect.EvPatch (Collect.API +:+ "/" +:+ Collect.text (Agent.name prof)) body
       :: logs ∧
       ∀ e, e ∈ logs → ∃ message, e = Collect.EvLogDebug message) ∧
  (∀ err, run.2 = Collect.Failure err →
     events = run.1 ++ [Collect.EvLogDebug ("Error collecting profile: " +:+ err)]) ∧
  ((Collect.profileAndUpload w this prof answer).2 = false ↔
   (∃ body, run.2 = Collect.Done body) ∧ answer = None).
Proof.
  intros run events. subst run events.
  split_and!.
  - destruct (profileAndUpload_cases w this prof answer)
      as [(err & Hr & ->)|(bytes & logs & Hr & -> & Hlogs)]; simpl;
      by apply prefix_app_r.
  - intros uri body Hin.
    apply profileAndUpload_events in Hin
      as [?|[?|[[? ?]|(bytes & [= -> ->] & Hr)]]]; try done.
    split_and!; [done|by eexists|done].
  - intros body Hbody.
    destruct (profileAndUpload_cases w this prof answer)
      as [(err & Hr & ->)|(bytes & logs & Hr & -> & Hlogs)]; simpl.
    + congruence.
    + rewrite Hr in Hbody. injection Hbody as <-. by exists logs.
  - intros err Herr.
    destruct (profileAndUpload_cases w this prof answer)
      as [(err' & Hr & ->)|(bytes & logs & Hr & -> & Hlogs)]; simpl.
    + rewrite Hr in Herr. by injection Herr as ->.
    + congruence.
  - destruct (profileAndUpload_cases w this prof answer)
      as [(err & Hr & ->)|(bytes & logs & Hr & -> & Hlogs)]; simpl.
    + split; [done|]. intros [[body Hb] _]. congruence.
    + rewrite Hr. destruct answer; simpl.
      * split; [done|]. by intros [_ ?].
      * split; [|done]. intros _. split; [by eexists|done].
Qed.

Lemma X17_witness :
  (Collect.profile workingWorld (Collect.newProfiler bothConfig) wallRequest).2 =
    Collect.Done (Collect.setProfileBytes wallRequest "H4sIAAAA") ∧
  ∃ logs,
    (Collect.profileAndUpload workingWorld (Collect.newProfiler bothConfig)
       wallRequest (Some unavailable)).1 =
    [Collect.EvTimeProfile 10000] ++
    Collect.EvPatch
      "https://cloudprofiler.googleapis.com/v2/projects/project/profiles/1"
      (Collect.setProfileBytes wallRequest "H4sIAAAA") :: logs.
Proof.
  assert ((Collect.profile workingWorld (Collect.newProfiler bothConfig)
             wallRequest).2 =
          Collect.Done (Collect.setProfileBytes wallRequest "H4sIAAAA")) as Hrun
    by (vm_compute; reflexivity).
  split; [exact Hrun|].
  destruct (X17_upload_exactly_what_was_collected workingWorld
              (Collect.newProfiler bothConfig) wallRequest (Some unavailable))
    as (_ & _ & Hdone & _).
  destruct (Hdone _ Hrun) as (logs & Heq & _).
  exists logs. exact Heq.
Defined.



(** ** The start-up configuration *)

Section InitProps.
Import Init.

Lemma substring_0 s : substring 0 s = s.
Proof. by destruct s. Qed.

Lemma lastIndexOf_spec c s :
  -1 ≤ lastIndexOf c s ∧
  (lastIndexOf c s = -1 → without c s ∧ substring 0 s = s) ∧
  (0 ≤ lastIndexOf c s →
     ∃ pre, s = pre +:+ String c (substring (Z.to_nat (lastIndexOf c s + 1)) s)) ∧
  without c (substring (Z.to_nat (lastIndexOf c s + 1)) s).
Proof.
  induction s as [|a s (IH1 & IH2 & IH3 & IH4)]; simpl.
  - split_and!; [lia|done|lia|done].
  - destruct (Z.leb_spec 0 (lastIndexOf c s)) as [Hpos|Hneg].
    + assert (Z.to_nat (lastIndexOf c s + 1 + 1) = S (Z.to_nat (lastIndexOf c s + 1)))
        as -> by lia.
      simpl. split_and!; [lia|lia| |done].
      intros _. destruct (IH3 Hpos) as [pre Hpre].
      exists (String a pre).
      change (String a s = String a (pre +:+ String c
                (substring (Z.to_nat (lastIndexOf c s + 1)) s))).
      f_equal. exact Hpre.
    + assert (lastIndexOf c s = -1) as Hi by lia.
      destruct (IH2 Hi) as [Hw _].
      destruct (bool_decide_reflect (a = c)) as [->|Hne]; simpl.
      * split_and!; [lia|lia| |done].
        intros _. by exists "".
      * split_and!; try done; lia.
Qed.

(** The part of [z] after its last [/]. *)
Lemma zone_suffix z :
  let zone' := substring (Z.to_nat (lastIndexOf "/" z + 1)) z in
  without "/" zone' ∧
  (without "/" z → zone' = z) ∧
  (¬ without "/" z → ∃ pre, z = pre +:+ "/" +:+ zone').
Proof.
  intros zone'. subst zone'.
  destruct (lastIndexOf_spec "/" z) as (H1 & H2 & H3 & H4).
  split; [done|].
  destruct (decide (lastIndexOf "/" z = -1)) as [Hi|Hi].
  - destruct (H2 Hi) as [Hw Hs]. rewrite Hi. simpl. split; [done|].
    intros Hn. by destruct Hn.
  - assert (0 ≤ lastIndexOf "/" z) as Hpos by lia.
    destruct (H3 Hpos) as [pre Hpre]. split.
    + intros Hw. exfalso. rewrite Hpre in Hw. clear -Hw.
      induction pre as [|a pre IH]; simpl in Hw; [by destruct Hw|].
      apply IH. by destruct Hw.
    + intros _. by exists pre.
Qed.

Lemma unset_false field : unset field = false → ∃ s, field = Some s ∧ s ≠ "".
Proof.
  destruct field as [s|]; simpl; [|done].
  intros Hs%bool_decide_eq_false. by exists s.
Qed.

End InitProps.

(** X19. When the configuration has no zone (none, or the empty string)
    and the three metadata requests succeed, [initConfig] sets the zone to
    the part of the metadata zone after its last [/]: a string without
    [/], equal to the metadata zone when that holds no [/], and otherwise
    what follows some prefix and a [/]. The instance, when the
    configuration has none, is the metadata instance name, and the
    project id, when the configuration has none, the metadata project
    id; with a service in the configuration the call returns. *)
Theorem X19_zone_is_the_part_after_the_last_slash m metaInstance metaZone
    metaProject :
  Init.unset (Init.zone m) = true →
  is_Some (Init.service m) →
  ∃ cfg zone',
    Init.initConfig m (Some (metaInstance, metaZone, metaProject)) =
      Init.Returned cfg ∧
    Init.zone cfg = Some zone' ∧
    without "/" zone' ∧
    (without "/" metaZone → zone' = metaZone) ∧
    (¬ without "/" metaZone → ∃ pre, metaZone = pre +:+ "/" +:+ zone') ∧
    (Init.unset (Init.instance m) = true → Init.instance cfg = Some metaInstance) ∧
    (Init.unset (Init.projectId m) = true → Init.projectId cfg = Some metaProject).
Proof.
  intros Hz [svc Hsvc].
  destruct (zone_suffix metaZone) as (Hw & Hsame & Hpre).
  unfold Init.initConfig. rewrite Hz. simpl.
  destruct (Init.unset (Init.instance m)) eqn:Hi; simpl;
    destruct (Init.unset (Init.projectId m)) eqn:Hp; simpl; rewrite Hsvc.
  - eexists _, _. split_and!; done.
  - destruct (unset_false _ Hp) as (p & Hp' & _). rewrite Hp'.
    eexists _, _. split_and!; done.
  - eexists _, _. split_and!; done.
  - destruct (unset_false _ Hp) as (p & Hp' & _). rewrite Hp'.
    eexists _, _. split_and!; done.
Qed.

Lemma X19_witness :
  Init.unset (Init.zone bareConfig) = true ∧
  is_Some (Init.service bareConfig) ∧
  ∃ cfg, Init.initConfig bareConfig gceMetadata = Init.Returned cfg ∧
         Init.zone cfg = Some "us-central1-a" ∧
         Init.instance cfg = Some "instance-1" ∧
         Init.projectId cfg = Some "project".
Proof.
  split; [reflexivity|]. split; [by eexists|].
  destruct (X19_zone_is_the_part_after_the_last_slash bareConfig "instance-1"
              "projects/123456789012/zones/us-central1-a" "gce-project")
    as (cfg & zone' & Hrun & _); [reflexivity|by eexists|].
  exists cfg. split; [exact Hrun|].
  vm_compute in Hrun. injection Hrun as <-. done.
Defined.

(** X20. What the configuration sets is kept: [initConfig] never changes
    the service, nor a zone, an instance or a project id that is set and
    not empty. When zone and instance are both set, the configuration is
    returned as it is and the answers of the metadata service play no
    part, the project id included. When the metadata requests fail, a
    missing zone and a missing instance become the empty string. *)
Theorem X20_configured_values_are_kept m metadata cfg :
  Init.initConfig m metadata = Init.Returned cfg →
  Init.service cfg = Init.service m ∧
  (Init.unset (Init.zone m) = false → Init.zone cfg = Init.zone m) ∧
  (Init.unset (Init.instance m) = false → Init.instance cfg = Init.instance m) ∧
  (Init.unset (Init.projectId m) = false → Init.projectId cfg = Init.projectId m) ∧
  (Init.unset (Init.zone m) = false → Init.unset (Init.instance m) = false →
     cfg = m ∧ ∀ metadata', Init.initConfig m metadata' = Init.Returned m) ∧
  (metadata = None →
     (Init.unset (Init.zone m) = true → Init.zone cfg = Some "") ∧
     (Init.unset (Init.instance m) = true → Init.instance cfg = Some "")).
Proof.
  unfold Init.initConfig.
  destruct metadata as [[[metaInstance metaZone] metaProject]|];
    destruct (Init.unset (Init.zone m)) eqn:Hz;
    destruct (Init.unset (Init.instance m)) eqn:Hi;
    destruct (Init.unset (Init.projectId m)) eqn:Hp;
    repeat (simpl; rewrite ?Hz, ?Hi, ?Hp);
    destruct (Init.service m) as [svc|] eqn:Hsvc; simpl; try done;
    destruct (Init.projectId m) as [pid|] eqn:Hpid; simpl; try done;
    intros [= <-]; simpl; split_and!; try done;
    intros; repeat (simpl; rewrite ?Hz, ?Hi, ?Hp);
    simpl; rewrite ?Hsvc, ?Hpid; done.
Qed.

Lemma X20_witness :
  Init.initConfig bareConfig gceMetadata =
    Init.Returned {| Init.projectId := Some "project";
                     Init.service := Some "service";
                     Init.zone := Some "us-central1-a";
                     Init.instance := Some "instance-1" |} ∧
  Init.service {| Init.projectId := Some "project";
                  Init.service := Some "service";
                  Init.zone := Some "us-central1-a";
                  Init.instance := Some "instance-1" |} =
    Init.service bareConfig.
Proof.
  assert (Init.initConfig bareConfig gceMetadata =
          Init.Returned {| Init.projectId := Some "project";
                           Init.service := Some "service";
                           Init.zone := Some "us-central1-a";
                           Init.instance := Some "instance-1" |}) as Hrun
    by (vm_compute; reflexivity).
  split; [exact Hrun|].
  exact (proj1 (X20_configured_values_are_kept _ _ _ Hrun)).
Defined.

